(** * FlowDownloader backend: job lifecycle, progress tracking and retention

    A shallow embedding of the job-tracking code of the backend:

    - [services/ffmpegService.js]: the conversion jobs ([jobs],
      [progressTracking], [convertVideo], [extractAudio], [getProgress],
      [getOutputFile], [cleanup]);
    - [routes/convert.js]: the conversion routes;
    - [routes/download.js]: the download jobs ([downloadJobs],
      [downloadVideo], the progress timer, the batch route, the hourly sweep).

    JavaScript [Map]s keyed by job id are finite maps [gmap string _]; job
    objects are records whose fields are optional wherever the JavaScript
    object may lack them; [Date.now()] and [uuidv4()] are inputs of the
    handlers, one for each call whose value is written to a job (the loop
    of the batch route reads the clock once per job); thrown exceptions are
    the [Throw] results of a small error monad. *)

From Stdlib Require Import ZArith QArith Qround Ascii String List Lia.
From stdpp Require Import gmap strings list fin_maps pretty.

Open Scope Z_scope.

Set Warnings "-register-all,-clear-no-such-hyp".

(** ** JavaScript primitives used by the handlers *)

Module Js.

(** The result of code that may [throw new Error(message)]. *)
Inductive res (A : Type) : Type :=
| Ok (a : A)
| Throw (message : string).
Arguments Ok {A} a.
Arguments Throw {A} message.

#[export] Instance res_ret : MRet res := @Ok.
#[export] Instance res_bind : MBind res := fun A B k m =>
  match m with
  | Ok a => k a
  | Throw msg => Throw msg
  end.

(** A JavaScript number as the handlers produce it: an integer, or [NaN]
    (arithmetic on [undefined]). *)
Inductive num : Type :=
| Num (z : Z)
| NaN.

#[export] Instance num_eq_dec : EqDecision num.
Proof. solve_decision. Defined.

(** [Math.round(x)]: the nearest integer, halves rounded up. *)
Definition Math_round (x : Q) : Z := Qfloor (x + (1 # 2))%Q.

(** [x || 0] on a number that may be [undefined] (or [NaN]). *)
Definition or_zero (x : option Q) : Q := default 0%Q x.

(** [s || d] on a string that may be [undefined]; the empty string is falsy. *)
Definition or_string (s : option string) (d : string) : string :=
  match s with
  | Some (String c r) => String c r
  | _ => d
  end.

(** Truthiness of an optional timestamp ([job.endTime && ...]): [undefined]
    and [0] are falsy. *)
Definition truthy_time (t : option Z) : option Z :=
  match t with
  | Some t => if decide (t = 0) then None else Some t
  | None => None
  end.

(** Truthiness of an optional string ([job.outputFile && ...]). *)
Definition truthy_string (s : option string) : option string :=
  match s with
  | Some (String c r) => Some (String c r)
  | _ => None
  end.

(** [hay.includes(needle)]. *)
Fixpoint includes (needle hay : string) : bool :=
  String.prefix needle hay ||
  match hay with
  | EmptyString => false
  | String _ rest => includes needle rest
  end.

(** [path.join(dir, name)] for a normalised [dir] and a plain [name]. *)
Definition path_join (dir name : string) : string := dir +:+ "/" +:+ name.

(** [path.basename(p)]: what follows the last separator. *)
Fixpoint path_basename (p : string) : string :=
  match p with
  | EmptyString => EmptyString
  | String c rest =>
      if includes "/" rest then path_basename rest
      else if decide (c = "/"%char) then rest else p
  end.

(** JSON values of request and response bodies. *)
Inductive Json : Type :=
| JUndefined
| JNull
| JBool (b : bool)
| JNumber (n : num)
| JReal (q : Q)
| JString (s : string)
| JArray (l : list Json)
| JObject (fields : list (string * Json)).

Definition of_opt_string (s : option string) : Json :=
  match s with Some s => JString s | None => JUndefined end.
Definition of_opt_Z (z : option Z) : Json :=
  match z with Some z => JNumber (Num z) | None => JUndefined end.

(** [v === 's'] for a string literal ['s']. *)
Definition is_string (v : Json) (s : string) : bool :=
  match v with
  | JString s' => bool_decide (s' = s)
  | _ => false
  end.

(** The default of a destructured property ([{ format = 'mp4' }]): it is
    taken when the property is [undefined], and only then. *)
Definition or_default (v : Json) (d : string) : Json :=
  match v with
  | JUndefined => JString d
  | _ => v
  end.

(** [obj.key] on a JSON object. *)
Fixpoint field (key : string) (fields : list (string * Json)) : Json :=
  match fields with
  | [] => JUndefined
  | (k, v) :: rest => if decide (k = key) then v else field key rest
  end.

Definition of_opt_Q (q : option Q) : Json :=
  match q with Some q => JReal q | None => JUndefined end.

(** An HTTP response: [res.status(code).json(body)]. *)
Record Response := { code : Z; body : list (string * Json) }.

(** What a route that serves a file answers: a JSON response, or
    [res.sendFile(path)] with the attachment's file name. *)
Inductive Reply : Type :=
| Send (r : Response)
| SendFile (path filename : string).

End Js.
Import Js.

(** ** The file system as the handlers see it *)

Module Fs.

(** [fs.Stats]: what [statSync] returns. *)
Record Stats := { isFile : bool; size : Z; mtimeMs : Z }.

(** One directory entry; the list order is the order in which
    [readdirSync] lists a directory. An entry that is not a regular file
    is a directory. A [dangling] entry is a symbolic link whose target is
    missing: the directory lists its name, and nothing is found through
    it. *)
Record DirEnt := {
  dir : string;
  name : string;
  stats : Stats;
  dangling : bool
}.

Definition t := list DirEnt.

Definition path_of (e : DirEnt) : string := path_join (dir e) (name e).

(** The entry at [p] itself; a link is not followed. *)
Definition lstat (p : string) (fs : t) : option DirEnt :=
  List.find (fun e => bool_decide (path_of e = p)) fs.

(** What [p] leads to; a dangling link leads to nothing. *)
Definition lookup_path (p : string) (fs : t) : option DirEnt :=
  match lstat p fs with
  | Some e => if dangling e then None else Some e
  | None => None
  end.

(** [fs.existsSync(p)]; [existsSync(undefined)] is [false]. *)
Definition existsSync (p : option string) (fs : t) : bool :=
  match p with
  | Some p => match lookup_path p fs with Some _ => true | None => false end
  | None => false
  end.

(** [fs.statSync(p)]: throws when nothing is at [p]. *)
Definition statSync (p : string) (fs : t) : res Stats :=
  match lookup_path p fs with
  | Some e => Ok (stats e)
  | None => Throw ("ENOENT: no such file or directory, stat '" +:+ p +:+ "'")
  end.

(** [fs.readdirSync(d)]: the names in [d], in directory order, links
    included; throws when nothing is at [d] and when [d] is not a
    directory. *)
Definition readdirSync (d : string) (fs : t) : res (list string) :=
  match lookup_path d fs with
  | None => Throw ("ENOENT: no such file or directory, scandir '" +:+ d +:+ "'")
  | Some e =>
      if isFile (stats e)
      then Throw ("ENOTDIR: not a directory, scandir '" +:+ d +:+ "'")
      else Ok (name <$> List.filter (fun e => bool_decide (dir e = d)) fs)
  end.

(** [fs.unlinkSync(p)]: removes a file or a link; throws on a missing path
    and on a directory. *)
Definition unlinkSync (p : string) (fs : t) : res t :=
  match lstat p fs with
  | None => Throw ("ENOENT: no such file or directory, unlink '" +:+ p +:+ "'")
  | Some e =>
      if dangling e || isFile (stats e)
      then Ok (List.filter (fun e => negb (bool_decide (path_of e = p))) fs)
      else Throw ("EISDIR: illegal operation on a directory, unlink '" +:+ p +:+ "'")
  end.

(** Whether [if (existsSync(p)) unlinkSync(p)] does not throw: [p] leads
    to nothing, or to a regular file. *)
Definition unlinkable (fs : t) (p : string) : bool :=
  match lookup_path p fs with
  | Some e => isFile (stats e)
  | None => true
  end.

End Fs.

(** ** Job status

    The status strings of both job stores: ['starting'] and ['downloading']
    (downloads), ['processing'] (conversions), ['completed'] and ['failed']. *)

Inductive Status : Type :=
| starting
| downloading
| processing
| completed
| failed.

#[export] Instance Status_eq_dec : EqDecision Status.
Proof. solve_decision. Defined.

Definition status_string (s : Status) : string :=
  match s with
  | starting => "starting"
  | downloading => "downloading"
  | processing => "processing"
  | completed => "completed"
  | failed => "failed"
  end.

(** The terminal states of the job state machine. *)
Definition terminal (s : Status) : bool :=
  match s with
  | completed | failed => true
  | _ => false
  end.

(** ** The transcoder's progress events (fluent-ffmpeg)

    The fields of the object passed to the ['progress'] listener; each may be
    missing. The numbers the tool reports are finite and are taken as
    rationals. *)

Module Ffmpeg.

Record Progress := {
  percent : option Q;
  currentFps : option Q;
  currentKbps : option Q;
  targetSize : option Q;
  timemark : option string
}.

(** How a command finishes: it emits ['end'] or ['error'], once. *)
Inductive Outcome : Type :=
| End
| Error (message : string).

(** One run of a command: its progress events in order, and the final event
    with the clock reading at which it is handled; [None] while the tool has
    not finished. *)
Record Run := {
  events : list Progress;
  outcome : option (Outcome * Z)
}.

End Ffmpeg.

(** ** services/ffmpegService.js *)

Module FFmpegService.

(** A value of the [jobs] map. Every object literal written to the map sets
    [status]; the other fields are spread from the previous value. *)
Record Job := {
  status : Status;
  inputFile : option string;
  outputFile : option string;
  startTime : option Z;
  type : option string;
  error : option string;
  endTime : option Z
}.

(** A value of the [progressTracking] map; every literal sets [percent]. *)
Record Progress := {
  percent : Z;
  currentFps : option Q;
  currentKbps : option Q;
  targetSize : option Q;
  timemark : option string
}.

(** The two module-level maps. *)
Record State := {
  jobs : gmap string Job;
  progressTracking : gmap string Progress
}.

Definition init : State := {| jobs := ∅; progressTracking := ∅ |}.

(** [{...jobs.get(jobId), status, endTime}] and
    [{...jobs.get(jobId), status, error, endTime}]. *)
Definition spread_job (old : option Job) (s : Status) (err : option string)
    (now : Z) : Job :=
  match old with
  | Some j =>
      {| status := s; inputFile := inputFile j; outputFile := outputFile j;
         startTime := startTime j; type := type j;
         error := match err with Some m => Some m | None => error j end;
         endTime := Some now |}
  | None =>
      {| status := s; inputFile := None; outputFile := None;
         startTime := None; type := None; error := err; endTime := Some now |}
  end.

(** [{...progressTracking.get(jobId), percent: 100}]. *)
Definition spread_progress (old : option Progress) (p : Z) : Progress :=
  match old with
  | Some pr =>
      {| percent := p; currentFps := currentFps pr;
         currentKbps := currentKbps pr; targetSize := targetSize pr;
         timemark := timemark pr |}
  | None =>
      {| percent := p; currentFps := None; currentKbps := None;
         targetSize := None; timemark := None |}
  end.

(** [convertVideo], up to [command.run()]: the output path and the two
    initial writes. The ffmpeg command built from [quality] and [codec]
    belongs to the tool and is not part of the stores. *)
Definition convertVideo_start (outputDir : string) (now : Z)
    (inputFile format jobId : string) (st : State) : State :=
  let outputFile := path_join outputDir (jobId +:+ "." +:+ format) in
  {| jobs :=
       <[jobId := {| status := processing; inputFile := Some inputFile;
                     outputFile := Some outputFile; startTime := Some now;
                     type := Some "video_conversion";
                     error := None; endTime := None |}]> (jobs st);
     progressTracking :=
       <[jobId := {| percent := 0; currentFps := Some 0%Q;
                     currentKbps := Some 0%Q; targetSize := Some 0%Q;
                     timemark := Some "00:00:00.00" |}]>
         (progressTracking st) |}.

(** [extractAudio], up to [command.run()]. *)
Definition extractAudio_start (outputDir : string) (now : Z)
    (inputFile format jobId : string) (st : State) : State :=
  let outputFile := path_join outputDir (jobId +:+ "." +:+ format) in
  {| jobs :=
       <[jobId := {| status := processing; inputFile := Some inputFile;
                     outputFile := Some outputFile; startTime := Some now;
                     type := Some "audio_extraction";
                     error := None; endTime := None |}]> (jobs st);
     progressTracking :=
       <[jobId := {| percent := 0; currentFps := None;
                     currentKbps := Some 0%Q; targetSize := None;
                     timemark := Some "00:00:00.00" |}]>
         (progressTracking st) |}.

(** The ['progress'] listener of [convertVideo]. *)
Definition convertVideo_on_progress (jobId : string) (progress : Ffmpeg.Progress)
    (st : State) : State :=
  {| jobs := jobs st;
     progressTracking :=
       <[jobId := {| percent := Math_round (or_zero (Ffmpeg.percent progress));
                     currentFps := Some (or_zero (Ffmpeg.currentFps progress));
                     currentKbps := Some (or_zero (Ffmpeg.currentKbps progress));
                     targetSize := Some (or_zero (Ffmpeg.targetSize progress));
                     timemark := Some (or_string (Ffmpeg.timemark progress)
                                         "00:00:00.00") |}]>
         (progressTracking st) |}.

(** The ['progress'] listener of [extractAudio]. *)
Definition extractAudio_on_progress (jobId : string) (progress : Ffmpeg.Progress)
    (st : State) : State :=
  {| jobs := jobs st;
     progressTracking :=
       <[jobId := {| percent := Math_round (or_zero (Ffmpeg.percent progress));
                     currentFps := None;
                     currentKbps := Some (or_zero (Ffmpeg.currentKbps progress));
                     targetSize := None;
                     timemark := Some (or_string (Ffmpeg.timemark progress)
                                         "00:00:00.00") |}]>
         (progressTracking st) |}.

(** The ['end'] listener (the same text in both functions). *)
Definition on_end (jobId : string) (now : Z) (st : State) : State :=
  {| jobs := <[jobId := spread_job (jobs st !! jobId) completed None now]> (jobs st);
     progressTracking :=
       <[jobId := spread_progress (progressTracking st !! jobId) 100]>
         (progressTracking st) |}.

(** The ['error'] listener (the same text in both functions). *)
Definition on_error (jobId : string) (message : string) (now : Z) (st : State)
    : State :=
  {| jobs := <[jobId := spread_job (jobs st !! jobId) failed (Some message) now]>
               (jobs st);
     progressTracking := progressTracking st |}.

(** How the promise returned by [convertVideo] settles. *)
Inductive Settled : Type :=
| Resolved (outputFile jobId : string)
| Rejected (message : string).

(** [convertVideo] against one run of the tool: the state once every event
    of the run has been handled, and the settled promise ([None]: pending). *)
Definition convertVideo (outputDir : string) (now : Z)
    (inputFile format jobId : string) (run : Ffmpeg.Run) (st : State)
    : State * option Settled :=
  let st1 := convertVideo_start outputDir now inputFile format jobId st in
  let st2 := foldl (fun s p => convertVideo_on_progress jobId p s) st1
               (Ffmpeg.events run) in
  match Ffmpeg.outcome run with
  | None => (st2, None)
  | Some (Ffmpeg.End, t) =>
      (on_end jobId t st2,
       Some (Resolved (path_join outputDir (jobId +:+ "." +:+ format)) jobId))
  | Some (Ffmpeg.Error m, t) => (on_error jobId m t st2, Some (Rejected m))
  end.

(** [extractAudio] against one run of the tool. *)
Definition extractAudio (outputDir : string) (now : Z)
    (inputFile format jobId : string) (run : Ffmpeg.Run) (st : State)
    : State * option Settled :=
  let st1 := extractAudio_start outputDir now inputFile format jobId st in
  let st2 := foldl (fun s p => extractAudio_on_progress jobId p s) st1
               (Ffmpeg.events run) in
  match Ffmpeg.outcome run with
  | None => (st2, None)
  | Some (Ffmpeg.End, t) =>
      (on_end jobId t st2,
       Some (Resolved (path_join outputDir (jobId +:+ "." +:+ format)) jobId))
  | Some (Ffmpeg.Error m, t) => (on_error jobId m t st2, Some (Rejected m))
  end.

(** What [getProgress] returns for a known job. *)
Record Report := {
  r_jobId : string;
  r_status : Status;
  r_progress : Progress;
  r_startTime : option Z;
  r_endTime : option Z;
  r_error : option string
}.

(** [getProgress(jobId)]; [None] is [null]. *)
Definition getProgress (jobId : string) (st : State) : option Report :=
  match jobs st !! jobId with
  | None => None
  | Some job =>
      Some {| r_jobId := jobId;
              r_status := status job;
              r_progress :=
                default {| percent := 0; currentFps := None; currentKbps := None;
                           targetSize := None; timemark := None |}
                        (progressTracking st !! jobId);
              r_startTime := startTime job;
              r_endTime := endTime job;
              r_error := error job |}
  end.

(** [getOutputFile(jobId)]; [None] is [null] (or an [undefined] field). *)
Definition getOutputFile (jobId : string) (st : State) : option string :=
  match jobs st !! jobId with
  | Some job => outputFile job
  | None => None
  end.

(** The default of [cleanup]'s parameter: 24 hours in milliseconds. *)
Definition default_maxAge : Z := 24 * 60 * 60 * 1000.

(** The body of the loop of [cleanup] for one entry of [jobs]. *)
Definition cleanup_entry (now maxAge : Z) (acc : State * Fs.t)
    (entry : string * Job) : res (State * Fs.t) :=
  let '(st, fs) := acc in
  let '(jobId, job) := entry in
  match truthy_time (endTime job) with
  | None => Ok (st, fs)
  | Some t =>
      if decide (now - t > maxAge) then
        fs1 ← (if Fs.existsSync (outputFile job) fs
               then Fs.unlinkSync (default "" (outputFile job)) fs
               else Ok fs);
        fs2 ← match inputFile job with
              | None =>
                  Throw "Cannot read properties of undefined (reading 'includes')"
              | Some f =>
                  if includes "uploads" f && Fs.existsSync (Some f) fs1
                  then Fs.unlinkSync f fs1
                  else Ok fs1
              end;
        Ok ({| jobs := delete jobId (jobs st);
               progressTracking := delete jobId (progressTracking st) |}, fs2)
      else Ok (st, fs)
  end.

(** A loop whose body may throw. *)
Fixpoint for_of {A B : Type} (body : A → B → res A) (l : list B) (a : A)
    : res A :=
  match l with
  | [] => Ok a
  | x :: l' => a' ← body a x; for_of body l' a'
  end.

(** [cleanup(maxAge)]: one sweep over the entries of [jobs]. Deleting the
    entry being visited does not disturb the iteration of a JavaScript
    [Map], so the loop runs over the entries present at the start. *)
Definition cleanup (now maxAge : Z) (st : State) (fs : Fs.t)
    : res (State * Fs.t) :=
  for_of (cleanup_entry now maxAge) (map_to_list (jobs st)) (st, fs).

(** The condition of the sweep: the job has a (truthy) end time that lies
    more than [maxAge] before [now]. *)
Definition due (now maxAge : Z) (job : Job) : Prop :=
  ∃ t, truthy_time (endTime job) = Some t ∧ now - t > maxAge.

(** The paths the sweep unlinks for a job: the output file, and the input
    file when its path contains ["uploads"]. *)
Definition artifacts (job : Job) : list string :=
  option_list (outputFile job) ++
  match inputFile job with
  | Some f => if includes "uploads" f then [f] else []
  | None => []
  end.

#[export] Instance due_dec now maxAge job : Decision (due now maxAge job).
Proof.
  unfold due. destruct (truthy_time (endTime job)) as [t|].
  - destruct (decide (now - t > maxAge)) as [Hold|Hyoung].
    + left. by exists t.
    + right. intros (t' & [= <-] & Hold). done.
  - right. by intros (t' & [=] & _).
Defined.

(** What lets a sweep run to its end without an exception: every job to
    remove has an input path, and none of its paths is a directory. *)
Definition sweepable (now maxAge : Z) (st : State) (fs : Fs.t) : bool :=
  forallb (λ entry : string * Job,
             implb (bool_decide (due now maxAge entry.2))
                   (bool_decide (is_Some (inputFile entry.2)) &&
                    forallb (Fs.unlinkable fs) (artifacts entry.2)))
          (map_to_list (jobs st)).

(** *** The service as a transition system

    [running] holds the ids of the commands that have been started and have
    not yet emitted ['end'] or ['error'], with the function that started
    them. *)

Inductive Kind : Type :=
| video_conversion
| audio_extraction.

Record Sys := {
  store : State;
  running : gmap string Kind
}.

Definition sys_init : Sys := {| store := init; running := ∅ |}.

Definition start (k : Kind) : string → Z → string → string → string → State → State :=
  match k with
  | video_conversion => convertVideo_start
  | audio_extraction => extractAudio_start
  end.

Definition on_progress (k : Kind) : string → Ffmpeg.Progress → State → State :=
  match k with
  | video_conversion => convertVideo_on_progress
  | audio_extraction => extractAudio_on_progress
  end.

(** One step of the service: a call of [convertVideo] or [extractAudio] with
    a fresh id, an event of a running command, or a sweep. *)
Inductive step : Sys → Sys → Prop :=
| step_start k outputDir now inputFile format jobId s :
    (* convertVideo / extractAudio is called with the id of uuidv4() *)
    jobs (store s) !! jobId = None →
    running s !! jobId = None →
    step s {| store := start k outputDir now inputFile format jobId (store s);
              running := <[jobId := k]> (running s) |}
| step_progress k jobId progress s :
    (* a running command emits 'progress' *)
    running s !! jobId = Some k →
    step s {| store := on_progress k jobId progress (store s);
              running := running s |}
| step_end jobId now s :
    (* a running command emits 'end' *)
    is_Some (running s !! jobId) →
    step s {| store := on_end jobId now (store s);
              running := delete jobId (running s) |}
| step_error jobId message now s :
    (* a running command emits 'error' *)
    is_Some (running s !! jobId) →
    step s {| store := on_error jobId message now (store s);
              running := delete jobId (running s) |}
| step_cleanup now maxAge fs st' fs' s :
    (* cleanup(maxAge) runs to its end on the file system fs *)
    cleanup now maxAge (store s) fs = Ok (st', fs') →
    step s {| store := st'; running := running s |}.

Definition reachable (s : Sys) : Prop := rtc step sys_init s.

(** What holds of every job of a reachable state. *)
Definition job_ok (st : State) (run : option Kind) (jobId : string) (j : Job)
    : Prop :=
  (status j = processing ∨ status j = completed ∨ status j = failed) ∧
  (is_Some run ↔ status j = processing) ∧
  is_Some (inputFile j) ∧
  is_Some (outputFile j) ∧
  (is_Some (error j) ↔ status j = failed) ∧
  (is_Some (endTime j) ↔ status j ≠ processing) ∧
  (∃ pr, progressTracking st !! jobId = Some pr ∧
         (status j = completed → percent pr = 100)).

Definition invariant (s : Sys) : Prop :=
  (∀ jobId j, jobs (store s) !! jobId = Some j →
              job_ok (store s) (running s !! jobId) jobId j) ∧
  (∀ jobId, is_Some (running s !! jobId) →
            is_Some (jobs (store s) !! jobId)).

End FFmpegService.

(** ** routes/convert.js *)

Module Convert.

Import FFmpegService.

(** The response of the two conversion routes once the awaited promise has
    settled; [started] is the route's message. *)
Definition respond (jobId started failure : string) (r : Settled) : Response :=
  match r with
  | Resolved outputFile _ =>
      {| code := 200;
         body := [("success", JBool true); ("jobId", JString jobId);
                  ("message", JString started);
                  ("outputFile", JString outputFile)] |}
  | Rejected message =>
      {| code := 500;
         body := [("success", JBool false); ("error", JString failure);
                  ("message", JString message)] |}
  end.

(** [POST /video]: the handler awaits [convertVideo] and answers when the
    promise settles; [None]: no response has been sent yet. [file_path] is
    [req.file.path], [jobId] the fresh [uuidv4()]. *)
Definition post_video (outputDir : string) (now : Z) (jobId file_path : string)
    (format quality codec : option string) (run : Ffmpeg.Run) (st : State)
    : State * option Response :=
  let '(st', settled) :=
    convertVideo outputDir now file_path (or_string format "mp4") jobId run st in
  (st', respond jobId "Video conversion started" "Video conversion failed"
          <$> settled).

(** [POST /audio]. *)
Definition post_audio (outputDir : string) (now : Z) (jobId file_path : string)
    (format bitrate : option string) (run : Ffmpeg.Run) (st : State)
    : State * option Response :=
  let '(st', settled) :=
    extractAudio outputDir now file_path (or_string format "mp3") jobId run st in
  (st', respond jobId "Audio extraction started" "Audio extraction failed"
          <$> settled).

Definition progress_json (p : Progress) : Json :=
  JObject [("percent", JNumber (Num (percent p)));
           ("currentFps", of_opt_Q (currentFps p));
           ("currentKbps", of_opt_Q (currentKbps p));
           ("targetSize", of_opt_Q (targetSize p));
           ("timemark", of_opt_string (timemark p))].

Definition report_json (r : Report) : Json :=
  JObject [("jobId", JString (r_jobId r));
           ("status", JString (status_string (r_status r)));
           ("progress", progress_json (r_progress r));
           ("startTime", of_opt_Z (r_startTime r));
           ("endTime", of_opt_Z (r_endTime r));
           ("error", of_opt_string (r_error r))].

Definition not_found (message : string) : Response :=
  {| code := 404;
     body := [("success", JBool false); ("error", JString message)] |}.

(** [GET /progress/:jobId]. *)
Definition get_progress (jobId : string) (st : State) : Response :=
  match getProgress jobId st with
  | None => not_found "Job not found"
  | Some progress =>
      {| code := 200;
         body := [("success", JBool true); ("progress", report_json progress)] |}
  end.

(** [GET /download/:jobId]. *)
Definition get_download (jobId : string) (st : State) (fs : Fs.t) : Reply :=
  match truthy_string (getOutputFile jobId st) with
  | None => Send (not_found "File not found")
  | Some filePath =>
      if Fs.existsSync (Some filePath) fs
      then SendFile filePath (path_basename filePath)
      else Send (not_found "File not found")
  end.

End Convert.

(** ** The fetcher (yt-dlp-wrap) *)

Module YtDlp.

(** The object [downloadVideo] builds as [options]. *)
Record Options := {
  output : string;
  noPlaylist : bool;
  extractAudio : option bool;
  audioFormat : option string;
  audioQuality : option string;
  format : option string;
  recodeVideo : option Json
}.

(** A call [execPromise(ytDlpArguments, options)]: the first parameter is
    the argument list the tool is run with, the second the options of the
    child process that runs it. *)
Record Call := {
  ytDlpArguments : list Json;
  options : Options
}.

(** How the promise of [execPromise] settles. *)
Inductive ExecResult : Type :=
| Resolved
| Rejected (message : string).

End YtDlp.

(** ** routes/download.js *)

Module Download.

(** A value of the [downloadJobs] map. Every object literal written to the
    map sets [status]; the other fields are set at creation, at completion
    or at failure, and spread from the previous value otherwise. *)
Record Job := {
  status : Status;
  url : option Json;
  format : option Json;
  quality : option Json;
  batchId : option string;
  startTime : option Z;
  progress : option num;
  error : option string;
  outputFile : option string;
  fileSize : option Z;
  endTime : option Z
}.

(** The job object written by the two creating routes. *)
Definition new_job (url format quality : Json)
    (batchId : option string) (now : Z) : Job :=
  {| status := starting; url := Some url; format := Some format;
     quality := Some quality; batchId := batchId; startTime := Some now;
     progress := Some (Num 0); error := None; outputFile := None;
     fileSize := None; endTime := None |}.

(** [{...downloadJobs.get(jobId), status: 'downloading'}]. *)
Definition spread_downloading (old : option Job) : Job :=
  match old with
  | Some j =>
      {| status := downloading; url := url j; format := format j;
         quality := quality j; batchId := batchId j; startTime := startTime j;
         progress := progress j; error := error j; outputFile := outputFile j;
         fileSize := fileSize j; endTime := endTime j |}
  | None =>
      {| status := downloading; url := None; format := None; quality := None;
         batchId := None; startTime := None; progress := None; error := None;
         outputFile := None; fileSize := None; endTime := None |}
  end.

(** [{...currentJob, progress: estimatedProgress}]. *)
Definition spread_progress (j : Job) (p : num) : Job :=
  {| status := status j; url := url j; format := format j;
     quality := quality j; batchId := batchId j; startTime := startTime j;
     progress := Some p; error := error j; outputFile := outputFile j;
     fileSize := fileSize j; endTime := endTime j |}.

(** [{...downloadJobs.get(jobId), status: 'completed', outputFile, fileSize,
    endTime, progress: 100}]. *)
Definition spread_completed (old : option Job) (outputFile' : string)
    (fileSize' now : Z) : Job :=
  match old with
  | Some j =>
      {| status := completed; url := url j; format := format j;
         quality := quality j; batchId := batchId j; startTime := startTime j;
         progress := Some (Num 100); error := error j;
         outputFile := Some outputFile'; fileSize := Some fileSize';
         endTime := Some now |}
  | None =>
      {| status := completed; url := None; format := None; quality := None;
         batchId := None; startTime := None; progress := Some (Num 100);
         error := None; outputFile := Some outputFile';
         fileSize := Some fileSize'; endTime := Some now |}
  end.

(** [{...downloadJobs.get(jobId), status: 'failed', error, endTime}]. *)
Definition spread_failed (old : option Job) (message : string) (now : Z)
    : Job :=
  match old with
  | Some j =>
      {| status := failed; url := url j; format := format j;
         quality := quality j; batchId := batchId j; startTime := startTime j;
         progress := progress j; error := Some message;
         outputFile := outputFile j; fileSize := fileSize j;
         endTime := Some now |}
  | None =>
      {| status := failed; url := None; format := None; quality := None;
         batchId := None; startTime := None; progress := None;
         error := Some message; outputFile := None; fileSize := None;
         endTime := Some now |}
  end.

(** The [switch (quality)] of [downloadVideo]. *)
Definition formatSelector (quality : Json) : string :=
  if is_string quality "480p" then "best[height<=480]"
  else if is_string quality "720p" then "best[height<=720]"
  else if is_string quality "1080p" then "best[height<=1080]"
  else if is_string quality "1440p" then "best[height<=1440]"
  else if is_string quality "2160p" then "best[height<=2160]"
  else "best".

(** The presets of the download schema with their maximum heights. *)
Definition presets : list (string * string) :=
  [("480p", "480"); ("720p", "720"); ("1080p", "1080"); ("1440p", "1440");
   ("2160p", "2160")].

(** The options [downloadVideo] builds; [timestamp] is its [Date.now()]. *)
Definition options (jobId : string) (format quality : Json)
    (outputDir : string) (timestamp : Z) : YtDlp.Options :=
  let outputTemplate :=
    path_join outputDir (jobId +:+ "-" +:+ pretty timestamp +:+ ".%(ext)s") in
  if is_string format "mp3" then
    {| YtDlp.output := outputTemplate; YtDlp.noPlaylist := true;
       YtDlp.extractAudio := Some true; YtDlp.audioFormat := Some "mp3";
       YtDlp.audioQuality := Some "192K";
       YtDlp.format := None; YtDlp.recodeVideo := None |}
  else
    {| YtDlp.output := outputTemplate; YtDlp.noPlaylist := true;
       YtDlp.extractAudio := None; YtDlp.audioFormat := None;
       YtDlp.audioQuality := None;
       YtDlp.format := Some (formatSelector quality);
       YtDlp.recodeVideo :=
         if is_string format "best" then None else Some format |}.

(** The call of the tool: [ytDlpWrap.execPromise([url], options)]. *)
Definition downloadVideo_call (jobId : string) (url format quality : Json)
    (outputDir : string) (timestamp : Z) : YtDlp.Call :=
  {| YtDlp.ytDlpArguments := [url];
     YtDlp.options := options jobId format quality outputDir timestamp |}.

(** [downloadVideo] up to its [await]: the status becomes ['downloading']
    and the tool is called with [options]. *)
Definition downloadVideo_begin (jobId : string) (dj : gmap string Job)
    : gmap string Job :=
  <[jobId := spread_downloading (dj !! jobId)]> dj.

(** [Math.min(90, Math.floor(elapsed / 1000) * 2)] with
    [elapsed = Date.now() - currentJob.startTime]. *)
Definition estimatedProgress (now : Z) (startTime : option Z) : num :=
  match startTime with
  | Some t => Num (Z.min 90 ((now - t) / 1000 * 2))
  | None => NaN
  end.

(** The callback of [progressTimer], run once per second. *)
Definition progressTimer (jobId : string) (now : Z) (dj : gmap string Job)
    : gmap string Job :=
  match dj !! jobId with
  | Some currentJob =>
      if decide (status currentJob = downloading)
      then <[jobId := spread_progress currentJob
                        (estimatedProgress now (startTime currentJob))]> dj
      else dj
  | None => dj
  end.

(** [allFiles.filter(file => stats.isFile() && file.includes(jobId))]; the
    [statSync] of the callback may throw. *)
Fixpoint downloadedFiles (jobId outputDir : string) (fs : Fs.t)
    (allFiles : list string) : res (list string) :=
  match allFiles with
  | [] => Ok []
  | file :: rest =>
      stats ← Fs.statSync (path_join outputDir file) fs;
      rest' ← downloadedFiles jobId outputDir fs rest;
      Ok (if Fs.isFile stats && includes jobId file then file :: rest'
          else rest')
  end.

(** What the filter throws over the names [allFiles], if anything: the
    error of the first name, in the order of the listing, that cannot be
    [stat]ed. *)
Fixpoint stat_error (outputDir : string) (fs : Fs.t) (allFiles : list string)
    : option string :=
  match allFiles with
  | [] => None
  | file :: rest =>
      match Fs.statSync (path_join outputDir file) fs with
      | Throw message => Some message
      | Ok _ => stat_error outputDir fs rest
      end
  end.

(** [downloadVideo] after its [await]: [r] is how [execPromise] settled and
    [fs] the file system at that time. *)
Definition downloadVideo_finish (jobId outputDir : string)
    (r : YtDlp.ExecResult) (now : Z) (fs : Fs.t) (dj : gmap string Job)
    : res (gmap string Job) :=
  match r with
  | YtDlp.Rejected message => Throw ("yt-dlp failed: " +:+ message)
  | YtDlp.Resolved =>
      allFiles ← Fs.readdirSync outputDir fs;
      files ← downloadedFiles jobId outputDir fs allFiles;
      match files with
      | [] => Throw "Downloaded file not found"
      | file :: _ =>
          let outputFile := path_join outputDir file in
          fileStats ← Fs.statSync outputFile fs;
          Ok (<[jobId := spread_completed (dj !! jobId) outputFile
                           (Fs.size fileStats) now]> dj)
      end
  end.

(** The [.catch] handler the routes attach to [downloadVideo(...)]. *)
Definition on_rejected (jobId message : string) (now : Z)
    (dj : gmap string Job) : gmap string Job :=
  <[jobId := spread_failed (dj !! jobId) message now]> dj.

(** The task of one job from the settling of the tool to its end:
    [downloadVideo(...).catch(...)]. *)
Definition downloadVideo_settle (jobId outputDir : string)
    (r : YtDlp.ExecResult) (now : Z) (fs : Fs.t) (dj : gmap string Job)
    : gmap string Job :=
  match downloadVideo_finish jobId outputDir r now fs dj with
  | Ok dj' => dj'
  | Throw message => on_rejected jobId message now dj
  end.

(** The job [jobId] of [dj] has ended ['failed'] at [now] with the error
    [message]. *)
Definition failed_with (jobId message : string) (now : Z)
    (dj : gmap string Job) : Prop :=
  ∃ job, dj !! jobId = Some job ∧ status job = failed ∧
         error job = Some message ∧ endTime job = Some now.

(** [POST /]: [jobId] is the fresh [uuidv4()]; the body has passed
    [validateDownloadRequest]. The handler runs [downloadVideo] up to its
    [await] before it answers. *)
Definition post_download (jobId : string) (now : Z) (url format quality : string)
    (dj : gmap string Job) : gmap string Job * Response :=
  let dj1 :=
    <[jobId := new_job (JString url) (JString format) (JString quality) None
                 now]> dj in
  (downloadVideo_begin jobId dj1,
   {| code := 200;
      body := [("success", JBool true); ("jobId", JString jobId);
               ("message", JString "Download started");
               ("status", JString "starting")] |}).

(** The ids of a batch of [n] jobs: [uuid 0] is the batch id, [uuid 1] to
    [uuid n] the job ids, in the order of the calls to [uuidv4()]. *)
Definition batch_ids (uuid : nat → string) (n : nat) : list string :=
  uuid <$> seq 1 n.

(** The clock readings of a batch of [n] jobs: [now i] is the reading of
    the [Date.now()] in the [i]-th round of the loop, counted from 1 as the
    job ids are. *)
Definition batch_times (now : nat → Z) (n : nat) : list Z := now <$> seq 1 n.

(** The loop of [POST /batch] over the urls, each with its job id and the
    clock reading of its round. *)
Definition batch_loop (batchId : string) (format quality : Json)
    (entries : list (string * (Json * Z))) (dj : gmap string Job)
    : gmap string Job :=
  foldl (fun dj entry =>
           downloadVideo_begin entry.1
             (<[entry.1 := new_job entry.2.1 format quality (Some batchId)
                             entry.2.2]> dj))
        dj entries.

Definition bad_request (message : string) : Response :=
  {| code := 400;
     body := [("success", JBool false); ("error", JString message)] |}.

(** [POST /batch]: [urls], [format] and [quality] are the properties of
    [req.body] as received, of whatever kind (the route has no schema);
    [format] and [quality] default to ['mp4'] and ['720p'] when they are
    [undefined]. *)
Definition post_batch (uuid : nat → string) (now : nat → Z) (urls : Json)
    (format quality : Json) (dj : gmap string Job)
    : gmap string Job * Response :=
  match urls with
  | JArray (u :: us) =>
      let urls := u :: us in
      if decide (10 < length urls)%nat
      then (dj, bad_request "Maximum 10 URLs allowed per batch")
      else
        let jobIds := batch_ids uuid (length urls) in
        (batch_loop (uuid 0%nat) (or_default format "mp4")
           (or_default quality "720p")
           (zip jobIds (zip urls (batch_times now (length urls)))) dj,
         {| code := 200;
            body := [("success", JBool true); ("batchId", JString (uuid 0%nat));
                     ("jobIds", JArray (JString <$> jobIds));
                     ("message",
                      JString ("Batch download started for "
                               +:+ pretty (length urls) +:+ " URLs"))] |})
  | _ => (dj, bad_request "URLs array is required")
  end.

Definition not_found (message : string) : Response :=
  {| code := 404;
     body := [("success", JBool false); ("error", JString message)] |}.

(** [job.progress || 0]. *)
Definition progress_or_zero (p : option num) : num :=
  match p with
  | Some (Num z) => Num z
  | _ => Num 0
  end.

(** [GET /progress/:jobId]. *)
Definition get_progress (jobId : string) (dj : gmap string Job) : Response :=
  match dj !! jobId with
  | None => not_found "Job not found"
  | Some job =>
      {| code := 200;
         body :=
           [("success", JBool true);
            ("progress", JNumber (progress_or_zero (progress job)));
            ("status", JString (status_string (status job)));
            ("error", of_opt_string (error job))]
           ++ match decide (status job = completed),
                    truthy_string (outputFile job) with
              | left _, Some outputFile =>
                  [("downloadUrl", JString ("/api/download/file/" +:+ jobId));
                   ("filename", JString (path_basename outputFile));
                   ("fileSize", of_opt_Z (fileSize job))]
              | _, _ => []
              end |}
  end.

(** [GET /file/:jobId]. *)
Definition get_file (jobId : string) (dj : gmap string Job) (fs : Fs.t)
    : Reply :=
  match dj !! jobId with
  | None => Send (not_found "File not ready or job not found")
  | Some job =>
      if decide (status job = completed) then
        match truthy_string (outputFile job) with
        | Some outputFile =>
            if Fs.existsSync (Some outputFile) fs
            then SendFile outputFile (path_basename outputFile)
            else Send (not_found "File not found on disk")
        | None => Send (not_found "File not found on disk")
        end
      else Send (not_found "File not ready or job not found")
  end.

(** The constant of the hourly sweep: 24 hours in milliseconds. *)
Definition maxAge : Z := 24 * 60 * 60 * 1000.

(** The body of the loop of the sweep for one entry of [downloadJobs]. *)
Definition cleanup_entry (now : Z) (acc : gmap string Job * Fs.t)
    (entry : string * Job) : res (gmap string Job * Fs.t) :=
  let '(dj, fs) := acc in
  let '(jobId, job) := entry in
  match truthy_time (endTime job) with
  | None => Ok (dj, fs)
  | Some t =>
      if decide (now - t > maxAge) then
        fs1 ← match truthy_string (outputFile job) with
              | Some outputFile =>
                  if Fs.existsSync (Some outputFile) fs
                  then Fs.unlinkSync outputFile fs
                  else Ok fs
              | None => Ok fs
              end;
        Ok (delete jobId dj, fs1)
      else Ok (dj, fs)
  end.

(** The callback of the hourly [setInterval]: one sweep of [downloadJobs]. *)
Definition cleanup (now : Z) (dj : gmap string Job) (fs : Fs.t)
    : res (gmap string Job * Fs.t) :=
  FFmpegService.for_of (cleanup_entry now) (map_to_list dj) (dj, fs).

(** The condition of the sweep. *)
Definition due (now : Z) (job : Job) : Prop :=
  ∃ t, truthy_time (endTime job) = Some t ∧ now - t > maxAge.

(** The path the sweep unlinks for a job. *)
Definition artifacts (job : Job) : list string :=
  option_list (truthy_string (outputFile job)).

#[export] Instance download_due_dec now job : Decision (due now job).
Proof.
  unfold due. destruct (truthy_time (endTime job)) as [t|].
  - destruct (decide (now - t > maxAge)) as [Hold|Hyoung].
    + left. by exists t.
    + right. intros (t' & [= <-] & Hold). done.
  - right. by intros (t' & [=] & _).
Defined.

(** What lets a sweep run to its end without an exception: no output path
    of a job to remove is a directory. *)
Definition sweepable (now : Z) (dj : gmap string Job) (fs : Fs.t) : bool :=
  forallb (λ entry : string * Job,
             implb (bool_decide (due now entry.2))
                   (forallb (Fs.unlinkable fs) (artifacts entry.2)))
          (map_to_list dj).

(** *** The download routes as a transition system

    [pending] holds the ids of the jobs whose call of the tool has not
    settled, [timers] the ids whose [progressTimer] has not been cleared
    (it is cleared only when the tool succeeds), and [clock] the last
    reading of [Date.now()], which never goes back. *)

Record Sys := {
  downloadJobs : gmap string Job;
  pending : gset string;
  timers : gset string;
  clock : Z
}.

Definition sys_init (t0 : Z) : Sys :=
  {| downloadJobs := ∅; pending := ∅; timers := ∅; clock := t0 |}.

(** The job ids a request to [POST /batch] creates. *)
Definition batch_created (uuid : nat → string) (urls : Json) : list string :=
  match urls with
  | JArray l =>
      if decide (10 < length l)%nat then [] else batch_ids uuid (length l)
  | _ => []
  end.

(** One step of the routes: a creating request with fresh ids, a tick of a
    progress timer, the end of a job's task, or a sweep. *)
Inductive step : Sys → Sys → Prop :=
| step_post jobId now url format quality s :
    (* POST / with the id of uuidv4() *)
    downloadJobs s !! jobId = None →
    clock s ≤ now →
    step s {| downloadJobs :=
                (post_download jobId now url format quality (downloadJobs s)).1;
              pending := {[jobId]} ∪ pending s;
              timers := {[jobId]} ∪ timers s;
              clock := now |}
| step_batch uuid now now' urls format quality s :
    (* POST /batch with the ids of uuidv4() and one reading of the clock
       for each job; now' is the reading when the route answers *)
    (∀ i, downloadJobs s !! uuid i = None) →
    (∀ i, clock s ≤ now i ≤ now') →
    step s {| downloadJobs :=
                (post_batch uuid now urls format quality (downloadJobs s)).1;
              pending := list_to_set (batch_created uuid urls) ∪ pending s;
              timers := list_to_set (batch_created uuid urls) ∪ timers s;
              clock := now' |}
| step_tick jobId now s :
    (* the callback of a progressTimer that has not been cleared *)
    jobId ∈ timers s →
    clock s ≤ now →
    step s {| downloadJobs := progressTimer jobId now (downloadJobs s);
              pending := pending s;
              timers := timers s;
              clock := now |}
| step_settle jobId outputDir r now fs s :
    (* execPromise settles: the rest of downloadVideo and its .catch *)
    jobId ∈ pending s →
    clock s ≤ now →
    step s {| downloadJobs :=
                downloadVideo_settle jobId outputDir r now fs (downloadJobs s);
              pending := pending s ∖ {[jobId]};
              timers := match r with
                        | YtDlp.Resolved => timers s ∖ {[jobId]}
                        | YtDlp.Rejected _ => timers s
                        end;
              clock := now |}
| step_sweep now fs dj' fs' s :
    (* the hourly sweep runs to its end on the file system fs *)
    clock s ≤ now →
    cleanup now (downloadJobs s) fs = Ok (dj', fs') →
    step s {| downloadJobs := dj'; pending := pending s; timers := timers s;
              clock := now |}.

Definition reachable (s : Sys) : Prop := ∃ t0, rtc step (sys_init t0) s.

(** What holds of every job of a reachable state: [pend] says whether the
    job's call of the tool is still pending. *)
Definition job_ok (clock : Z) (pend : Prop) (j : Job) : Prop :=
  (status j = downloading ∨ status j = completed ∨ status j = failed) ∧
  (pend ↔ status j = downloading) ∧
  (∃ t p, startTime j = Some t ∧ t ≤ clock ∧
          progress j = Some (Num p) ∧ 0 ≤ p ≤ 100 ∧
          (p = 100 ↔ status j = completed) ∧
          (status j ≠ completed → p ≤ Z.min 90 ((clock - t) / 1000 * 2))) ∧
  (is_Some (outputFile j) ↔ status j = completed) ∧
  (is_Some (fileSize j) ↔ status j = completed) ∧
  (is_Some (error j) ↔ status j = failed) ∧
  (is_Some (endTime j) ↔ status j ≠ downloading).

Definition invariant (s : Sys) : Prop :=
  (∀ jobId j, downloadJobs s !! jobId = Some j →
              job_ok (clock s) (jobId ∈ pending s) j) ∧
  (∀ jobId, jobId ∈ pending s → is_Some (downloadJobs s !! jobId)).

End Download.

(** ** The artifact lookup in the words of the specification *)

Module Spec.

(** Whether [file] of [outputDir] is a regular file whose name contains the
    job id. *)
Definition is_match (jobId outputDir : string) (fs : Fs.t) (file : string)
    : bool :=
  match Fs.statSync (path_join outputDir file) fs with
  | Ok stats => Fs.isFile stats && includes jobId file
  | Throw _ => false
  end.

(** The names of the directory; none when it cannot be listed. *)
Definition listing (outputDir : string) (fs : Fs.t) : list string :=
  match Fs.readdirSync outputDir fs with
  | Ok allFiles => allFiles
  | Throw _ => []
  end.

Definition mtime_of (outputDir : string) (fs : Fs.t) (file : string) : Z :=
  match Fs.statSync (path_join outputDir file) fs with
  | Ok stats => Fs.mtimeMs stats
  | Throw _ => 0
  end.

Definition size_of (path : string) (fs : Fs.t) : Z :=
  match Fs.statSync path fs with
  | Ok stats => Fs.size stats
  | Throw _ => 0
  end.

(** "The newest file whose name contains the job id": among the matching
    files of the directory, one with the latest modification time. *)
Definition newest_match (jobId outputDir : string) (fs : Fs.t) : option string :=
  foldl (λ best file,
           match best with
           | None => Some file
           | Some b =>
               if decide (mtime_of outputDir fs b < mtime_of outputDir fs file)
               then Some file else Some b
           end)
        None
        (List.filter (is_match jobId outputDir fs) (listing outputDir fs)).

(** The claim that the runner records the newest matching file as the job's
    output. *)
Definition selects_newest (jobId outputDir : string) (fs : Fs.t)
    (dj' : gmap string Download.Job) : Prop :=
  ∃ file job,
    newest_match jobId outputDir fs = Some file ∧
    dj' !! jobId = Some job ∧
    Download.outputFile job = Some (path_join outputDir file).

(** "A requested quality preset is translated into a maximum-height format
    selector of the form best[height<=H]": the selector for the height [H]
    is among the arguments the tool is run with. *)
Definition selector_passed (H : string) (call : YtDlp.Call) : Prop :=
  ∃ a s, a ∈ YtDlp.ytDlpArguments call ∧ a = JString s ∧
         includes ("best[height<=" +:+ H +:+ "]") s = true.

(** "Requesting the audio format routes the job to an audio-only extraction
    mode": an argument of the tool asks for the extraction of the audio. *)
Definition audio_mode_passed (call : YtDlp.Call) : Prop :=
  ∃ a s, a ∈ YtDlp.ytDlpArguments call ∧ a = JString s ∧
         (includes "extract-audio" s = true ∨ includes "-x" s = true).

(** The percent recorded for a job. *)
Definition percent_of (jobId : string) (st : FFmpegService.State) : Z :=
  match FFmpegService.progressTracking st !! jobId with
  | Some pr => FFmpegService.percent pr
  | None => 0
  end.

(** The percents written for a conversion job by the progress events of a
    run, in order. *)
Fixpoint percent_writes (jobId : string) (events : list Ffmpeg.Progress)
    (st : FFmpegService.State) : list Z :=
  match events with
  | [] => []
  | progress :: rest =>
      let st' := FFmpegService.convertVideo_on_progress jobId progress st in
      percent_of jobId st' :: percent_writes jobId rest st'
  end.




(** "The output descriptor is present if and only if the job's status is
    Completed", for a conversion job. *)
Definition output_iff_completed (jobId : string) (st : FFmpegService.State)
    : Prop :=
  ∀ job, FFmpegService.jobs st !! jobId = Some job →
         (is_Some (FFmpegService.outputFile job)
          ↔ FFmpegService.status job = completed).


End Spec.

(** ** Concrete stores and runs used to exercise the statements *)

Module Examples.

(** A download job created at time 1000 whose fetch is in flight. *)
Definition fetching : Download.Job :=
  Download.spread_downloading
    (Some (Download.new_job (JString "https://youtu.be/abc") (JString "mp4")
             (JString "720p") None 1000)).

Definition fetching_store : gmap string Download.Job := {["job-1" := fetching]}.

(** Eleven urls, one more than a batch may hold. *)
Definition eleven_urls : Json :=
  JArray (replicate 11 (JString "https://youtu.be/abc")).

Definition three_urls : Json :=
  JArray [JString "https://youtu.be/a"; JString "https://youtu.be/b";
          JString "https://youtu.be/c"].

(** A generator of ids standing for successive calls of [uuidv4()]. *)
Definition uuid (n : nat) : string := "id-" +:+ pretty n.

(** Clock readings standing for the successive calls of [Date.now()] in
    the loop of a batch: two milliseconds apart, from 1001 on. *)
Definition readings (i : nat) : Z := 999 + 2 * Z.of_nat i.

(** The download directory after a fetch that left two files for job
    ["job-7"]: the fetched file, listed first, and the re-encoded file
    written after it. *)
Definition two_files : Fs.t :=
  [ {| Fs.dir := "/srv"; Fs.name := "downloads";
       Fs.stats := {| Fs.isFile := false; Fs.size := 4096; Fs.mtimeMs := 1000 |};
       Fs.dangling := false |};
    {| Fs.dir := "/srv/downloads"; Fs.name := "job-7-1000.mkv";
       Fs.stats := {| Fs.isFile := true; Fs.size := 500; Fs.mtimeMs := 2000 |};
       Fs.dangling := false |};
    {| Fs.dir := "/srv/downloads"; Fs.name := "job-7-1000.mp4";
       Fs.stats := {| Fs.isFile := true; Fs.size := 400; Fs.mtimeMs := 3000 |};
       Fs.dangling := false |} ].

(** The download directory with nothing of job ["job-7"] in it, and the
    same directory when it also holds a link whose target is gone, listed
    before the fetched file. *)
Definition other_files : Fs.t :=
  [ {| Fs.dir := "/srv"; Fs.name := "downloads";
       Fs.stats := {| Fs.isFile := false; Fs.size := 4096; Fs.mtimeMs := 1000 |};
       Fs.dangling := false |};
    {| Fs.dir := "/srv/downloads"; Fs.name := "job-3-900.mp4";
       Fs.stats := {| Fs.isFile := true; Fs.size := 300; Fs.mtimeMs := 950 |};
       Fs.dangling := false |} ].

Definition stale_link : Fs.t :=
  [ {| Fs.dir := "/srv"; Fs.name := "downloads";
       Fs.stats := {| Fs.isFile := false; Fs.size := 4096; Fs.mtimeMs := 1000 |};
       Fs.dangling := false |};
    {| Fs.dir := "/srv/downloads"; Fs.name := "latest";
       Fs.stats := {| Fs.isFile := false; Fs.size := 0; Fs.mtimeMs := 900 |};
       Fs.dangling := true |};
    {| Fs.dir := "/srv/downloads"; Fs.name := "job-7-1000.mp4";
       Fs.stats := {| Fs.isFile := true; Fs.size := 400; Fs.mtimeMs := 3000 |};
       Fs.dangling := false |} ].

Definition job7_store : gmap string Download.Job :=
  (Download.post_download "job-7" 1000 "https://youtu.be/abc" "mp4" "720p" ∅).1.

(** Two finished conversions and two finished downloads: one of each ended
    25 hours before [sweep_time], the other one hour before it. *)
Definition hour : Z := 60 * 60 * 1000.

Definition sweep_time : Z := 2000 + 25 * hour.

Definition ended (t : Z) : Ffmpeg.Run :=
  {| Ffmpeg.events := []; Ffmpeg.outcome := Some (Ffmpeg.End, t) |}.

Definition two_conversions : FFmpegService.State :=
  (FFmpegService.convertVideo "/srv/output" 3000 "/srv/uploads/b.avi" "mp4"
     "new-job" (ended (2000 + 24 * hour))
     (FFmpegService.convertVideo "/srv/output" 1000 "/srv/uploads/a.avi" "mp4"
        "old-job" (ended 2000) FFmpegService.init).1).1.

Definition regular (dir name : string) (size : Z) : Fs.DirEnt :=
  {| Fs.dir := dir; Fs.name := name;
     Fs.stats := {| Fs.isFile := true; Fs.size := size; Fs.mtimeMs := 0 |};
     Fs.dangling := false |}.

Definition directory (dir name : string) : Fs.DirEnt :=
  {| Fs.dir := dir; Fs.name := name;
     Fs.stats := {| Fs.isFile := false; Fs.size := 4096; Fs.mtimeMs := 0 |};
     Fs.dangling := false |}.

Definition conversion_files : Fs.t :=
  [regular "/srv/output" "old-job.mp4" 10; regular "/srv/uploads" "a.avi" 20;
   regular "/srv/output" "new-job.mp4" 30; regular "/srv/uploads" "b.avi" 40].

Definition download_files : Fs.t :=
  [directory "/srv" "downloads";
   regular "/srv/downloads" "old-dl-1000.mp4" 10;
   regular "/srv/downloads" "new-dl-3000.mp4" 30].

Definition two_downloads : gmap string Download.Job :=
  Download.downloadVideo_settle "new-dl" "/srv/downloads" YtDlp.Resolved
    (2000 + 24 * hour) download_files
    (Download.post_download "new-dl" 3000 "https://youtu.be/b" "mp4" "720p"
       (Download.downloadVideo_settle "old-dl" "/srv/downloads" YtDlp.Resolved
          2000 download_files
          (Download.post_download "old-dl" 1000 "https://youtu.be/a" "mp4"
             "720p" ∅).1)).1.

(** A progress event reporting [pct] percent. *)
Definition reported (pct : Q) : Ffmpeg.Progress :=
  {| Ffmpeg.percent := Some pct; Ffmpeg.currentFps := None;
     Ffmpeg.currentKbps := None; Ffmpeg.targetSize := None;
     Ffmpeg.timemark := None |}.

(** A conversion that has just been started. *)
Definition started : FFmpegService.State :=
  FFmpegService.convertVideo_start "/srv/output" 1000 "/srv/uploads/a.avi"
    "mp4" "job-9" FFmpegService.init.



(** The download routes after one request at time 1000, and after a tick
    of that job's timer at time 8500. *)
Definition posted : Download.Sys :=
  {| Download.downloadJobs :=
       (Download.post_download "job-1" 1000 "https://youtu.be/abc" "mp4" "720p"
          (Download.downloadJobs (Download.sys_init 0))).1;
     Download.pending := {["job-1"]} ∪ Download.pending (Download.sys_init 0);
     Download.timers := {["job-1"]} ∪ Download.timers (Download.sys_init 0);
     Download.clock := 1000 |}.


End Examples.

(** ** middleware/validation.js *)

Module Validation.

(** What a middleware does with a request: it calls [next()], or it answers
    itself. *)
Inductive Verdict : Type :=
| Next
| Answer (r : Response).

(** *** validateRateLimit *)

(** A value of [global.rateLimitStore]. *)
Record ClientData := { requests : list Z; lastReset : Z }.

Definition windowMs : Z := 15 * 60 * 1000.
Definition maxRequests : nat := 10.

(** [req.ip || req.connection.remoteAddress]; the key may be [undefined]. *)
Definition clientIP (ip remoteAddress : option string) : option string :=
  match truthy_string ip with
  | Some a => Some a
  | None => remoteAddress
  end.

(** [Math.ceil(x / 1000)] on an integer [x]. *)
Definition ceil_seconds (x : Z) : Z := - ((- x) / 1000).

(** The number in the message of a rejection:
    [Math.ceil((windowMs - (now - clientData.requests[0])) / 1000)]. *)
Definition retry_after (now : Z) (kept : list Z) : num :=
  match kept with
  | oldest :: _ => Num (ceil_seconds (windowMs - (now - oldest)))
  | [] => NaN
  end.

Definition num_string (n : num) : string :=
  match n with
  | Num z => pretty z
  | NaN => "NaN"
  end.

Definition too_many (now : Z) (kept : list Z) : Response :=
  {| code := 429;
     body := [("success", JBool false);
              ("error", JString "Rate limit exceeded");
              ("message",
               JString ("Too many conversion requests. Try again in "
                        +:+ num_string (retry_after now kept)
                        +:+ " seconds."))] |}.

(** [clientData.requests.filter(timestamp => now - timestamp < windowMs)]. *)
Definition in_window (now : Z) (l : list Z) : list Z :=
  List.filter (λ timestamp, bool_decide (now - timestamp < windowMs)) l.

(** [validateRateLimit] for the client [key] at clock reading [now]. The
    object read from the map is the one stored in it, so the assignment of
    the filtered list to [clientData.requests] changes the stored entry of
    a known client even when the request is rejected; the object made for
    an unknown client is stored only when the request is let through. *)
Definition validateRateLimit (key : option string) (now : Z)
    (store : gmap (option string) ClientData)
    : gmap (option string) ClientData * Verdict :=
  let clientData :=
    default {| requests := []; lastReset := now |} (store !! key) in
  let kept := in_window now (requests clientData) in
  let filtered := {| requests := kept; lastReset := lastReset clientData |} in
  if decide (maxRequests ≤ length kept)%nat then
    (match store !! key with
     | Some _ => <[key := filtered]> store
     | None => store
     end,
     Answer (too_many now kept))
  else
    (<[key := {| requests := kept ++ [now];
                 lastReset := lastReset clientData |}]> store,
     Next).

(** The limiter serving the calls [calls] (client and clock reading) in
    order: the final map, and the calls it has let through, oldest first. *)
Fixpoint serve (calls : list (option string * Z))
    (store : gmap (option string) ClientData)
    : gmap (option string) ClientData * list (option string * Z) :=
  match calls with
  | [] => (store, [])
  | (key, now) :: rest =>
      let '(store1, verdict) := validateRateLimit key now store in
      let '(store2, admitted) := serve rest store1 in
      (store2,
       match verdict with
       | Next => (key, now) :: admitted
       | Answer _ => admitted
       end)
  end.

(** The stored timestamps of a client; none for an unknown client. *)
Definition stored (key : option string)
    (store : gmap (option string) ClientData) : list Z :=
  match store !! key with
  | Some clientData => requests clientData
  | None => []
  end.

(** The clock readings of the calls of [key] among [calls]. *)
Definition times_of (key : option string) (calls : list (option string * Z))
    : list Z :=
  snd <$> List.filter (λ call, bool_decide (call.1 = key)) calls.

(** Clock readings that never go back, starting from [T]. *)
Fixpoint ascending (T : Z) (calls : list (option string * Z)) : Prop :=
  match calls with
  | [] => True
  | (_, now) :: rest => T ≤ now ∧ ascending now rest
  end.

(** The last clock reading of a run that starts at [T]. *)
Fixpoint last_reading (T : Z) (calls : list (option string * Z)) : Z :=
  match calls with
  | [] => T
  | (_, now) :: rest => last_reading now rest
  end.

(** What the map remembers of the calls let through so far, [hist], once
    the clock has reached [T]: filtered at any later reading, the stored
    timestamps of a client are its let-through calls within the window. *)
Definition remembers (T : Z) (hist : list (option string * Z))
    (store : gmap (option string) ClientData) : Prop :=
  ∀ key now, T ≤ now →
    in_window now (stored key store) = in_window now (times_of key hist).

(** Twelve calls of one client within a second. *)
Definition burst : list (option string * Z) :=
  (λ i, (Some "10.0.0.7", 1000 + Z.of_nat i)) <$> seq 0 12.

(** After the burst: the client tries again twice and another client
    sends a request. *)
Definition retries : list (option string * Z) :=
  [(Some "10.0.0.7", 2200); (Some "10.0.0.8", 2500); (Some "10.0.0.7", 2700)].

(** *** The schemas *)

(** What [schema.validate(req.body)] returns: the value with the defaults
    filled in, or the messages of the error. Joi itself is not part of the
    repository; the middleware below take its result as they receive it. *)
Inductive JoiResult (V : Type) : Type :=
| Valid (value : V)
| Invalid (details : list string).
Arguments Valid {V} value.
Arguments Invalid {V} details.

(** The values [conversionSchema] lists as [valid]. *)
Definition conversion_formats : list string :=
  ["mp4"; "avi"; "mov"; "wmv"; "flv"; "webm"; "mkv"; "mp3"; "wav"; "aac";
   "flac"; "ogg"].
Definition conversion_qualities : list string :=
  ["480p"; "720p"; "1080p"; "1440p"; "2160p"].
Definition conversion_codecs : list string :=
  ["libx264"; "libx265"; "libvpx"; "libvpx-vp9"; "aac"; "mp3"; "libvorbis";
   "flac"].

(** The body [downloadSchema] hands on: [url] is required, [format] and
    [quality] have defaults. *)
Record DownloadBody := { url : string; format : string; quality : string }.

Definition validation_failed (details : list string) : Response :=
  {| code := 400;
     body := [("success", JBool false); ("error", JString "Validation failed");
              ("details", JArray (JString <$> details))] |}.

(** *** validateConversionRequest *)

(** [file] is [req.file], present when multer has stored an upload. *)
Definition validateConversionRequest {V F : Type} (validated : JoiResult V)
    (file : option F) : Verdict :=
  match validated with
  | Invalid details => Answer (validation_failed details)
  | Valid _ =>
      match file with
      | None =>
          Answer {| code := 400;
                    body := [("success", JBool false);
                             ("error", JString "No file uploaded")] |}
      | Some _ => Next
      end
  end.

(** *** validateDownloadRequest *)

(** The regular expressions of [supportedPlatforms], written as matchers
    that take what must match next as [k]. Strings are taken as ASCII. *)

(** The rest of [s] after the literal [lit]. *)
Fixpoint strip (lit s : string) : option string :=
  match lit with
  | EmptyString => Some s
  | String c lit' =>
      match s with
      | String d s' => if decide (c = d) then strip lit' s' else None
      | EmptyString => None
      end
  end.

(** A literal, then [k]. *)
Definition literal (lit : string) (k : string → bool) (s : string) : bool :=
  match strip lit s with
  | Some rest => k rest
  | None => false
  end.

(** [(lit)?], then [k]. *)
Definition optional (lit : string) (k : string → bool) (s : string) : bool :=
  literal lit k s || k s.

(** [(a|b|...)], then [k]. *)
Definition alternatives (lits : list string) (k : string → bool) (s : string)
    : bool :=
  existsb (λ lit, literal lit k s) lits.

(** The characters [.] does not match. *)
Definition line_terminator (c : ascii) : bool :=
  bool_decide (c = "010"%char) || bool_decide (c = "013"%char).

(** [.+] at the end of a pattern without [$]: one character that is not a
    line terminator, whatever follows. *)
Definition some_char (s : string) : bool :=
  match s with
  | String c _ => negb (line_terminator c)
  | EmptyString => false
  end.

(** [/^https?:\/\/(www\.)?(name|...)suffix\/.+/.test(url)]. *)
Definition platform (names : list string) (suffix : string) (url : string)
    : bool :=
  literal "http"
    (optional "s"
       (literal "://"
          (optional "www."
             (alternatives names (literal suffix (literal "/" some_char))))))
    url.

(** The seven patterns, in the order of the array. *)
Definition supportedPlatforms : list (list string * string) :=
  [(["facebook"; "fb"], ".com"); (["instagram"], ".com"); (["tiktok"], ".com");
   (["youtube"], ".com"); (["youtu"], ".be"); (["twitter"], ".com");
   (["x"], ".com")].

(** [supportedPlatforms.some(pattern => pattern.test(url))]. *)
Definition isSupported (url : string) : bool :=
  existsb (λ p, platform p.1 p.2 url) supportedPlatforms.

(** What the middleware does with the request: it hands the validated body
    on to the route, or it answers itself. *)
Inductive Checked : Type :=
| Pass (value : DownloadBody)
| Refuse (r : Response).

Definition validateDownloadRequest (validated : JoiResult DownloadBody)
    : Checked :=
  match validated with
  | Invalid details => Refuse (validation_failed details)
  | Valid value =>
      if isSupported (url value) then Pass value
      else
        Refuse
          {| code := 400;
             body := [("success", JBool false);
                      ("error", JString "Unsupported platform");
                      ("message",
                       JString "URL must be from Facebook, Instagram, TikTok, YouTube, or Twitter/X")] |}
  end.

(** The hosts a supported url can have. *)
Definition supported_hosts : list string :=
  ["facebook.com"; "fb.com"; "instagram.com"; "tiktok.com"; "youtube.com";
   "youtu.be"; "twitter.com"; "x.com"].

End Validation.

(** ** Further concrete states *)

Module Samples.

(** The download routes after the fetch of ["job-1"] has failed, and after
    a later tick of its timer, which a failure does not clear. *)
Definition settled : Download.Sys :=
  {| Download.downloadJobs :=
       Download.downloadVideo_settle "job-1" "/srv/downloads"
         (YtDlp.Rejected "network unreachable") 5000 []
         (Download.downloadJobs Examples.posted);
     Download.pending := Download.pending Examples.posted ∖ {["job-1"]};
     Download.timers := Download.timers Examples.posted;
     Download.clock := 5000 |}.

Definition ticked_late : Download.Sys :=
  {| Download.downloadJobs :=
       Download.progressTimer "job-1" 9000 (Download.downloadJobs settled);
     Download.pending := Download.pending settled;
     Download.timers := Download.timers settled;
     Download.clock := 9000 |}.

(** The download directory with the file fetched for ["job-1"], and the
    download routes after that fetch has succeeded. *)
Definition fetched_files : Fs.t :=
  [Examples.directory "/srv" "downloads";
   Examples.regular "/srv/downloads" "job-1-1000.mp4" 700].

Definition fetched : Download.Sys :=
  {| Download.downloadJobs :=
       Download.downloadVideo_settle "job-1" "/srv/downloads" YtDlp.Resolved
         6000 fetched_files (Download.downloadJobs Examples.posted);
     Download.pending := Download.pending Examples.posted ∖ {["job-1"]};
     Download.timers := Download.timers Examples.posted ∖ {["job-1"]};
     Download.clock := 6000 |}.

(** The conversion service after a conversion has been started, after it
    has ended, and after a second one has been started. *)
Definition converting : FFmpegService.Sys :=
  {| FFmpegService.store :=
       FFmpegService.start FFmpegService.video_conversion "/srv/output" 1000
         "/srv/uploads/a.avi" "mp4" "job-9"
         (FFmpegService.store FFmpegService.sys_init);
     FFmpegService.running :=
       <["job-9" := FFmpegService.video_conversion]>
         (FFmpegService.running FFmpegService.sys_init) |}.

Definition converted : FFmpegService.Sys :=
  {| FFmpegService.store :=
       FFmpegService.on_end "job-9" 9000 (FFmpegService.store converting);
     FFmpegService.running := delete "job-9" (FFmpegService.running converting) |}.

Definition converting_next : FFmpegService.Sys :=
  {| FFmpegService.store :=
       FFmpegService.start FFmpegService.audio_extraction "/srv/output" 9500
         "/srv/uploads/b.avi" "mp3" "job-10" (FFmpegService.store converted);
     FFmpegService.running :=
       <["job-10" := FFmpegService.audio_extraction]>
         (FFmpegService.running converted) |}.

End Samples.


(** ** The commands handed to the transcoder

    What [convertVideo] and [extractAudio] configure on the fluent-ffmpeg
    command before [command.run()]: each field is an option the code sets,
    [None] where it sets nothing. *)

Module Command.

Record t := {
  input : string;
  output : string;
  format : string;
  videoCodec : option string;
  size : option string;
  videoBitrate : option string;
  noVideo : bool;
  audioBitrate : option string;
  audioCodec : option string
}.

(** The [switch (quality)] of [convertVideo]: the argument of [size] and
    of [videoBitrate]; [None] is the default branch, which keeps the
    original resolution. *)
Definition quality_settings (quality : option string)
    : option (string * string) :=
  match quality with
  | Some q =>
      if decide (q = "480p") then Some ("854x480", "1000k")
      else if decide (q = "720p") then Some ("1280x720", "2500k")
      else if decide (q = "1080p") then Some ("1920x1080", "5000k")
      else if decide (q = "1440p") then Some ("2560x1440", "8000k")
      else if decide (q = "2160p") then Some ("3840x2160", "15000k")
      else None
  | None => None
  end.

(** The command of [convertVideo]. *)
Definition convertVideo (inputFile outputFile format : string)
    (quality codec : option string) : t :=
  {| input := inputFile; output := outputFile; format := format;
     videoCodec := Some (or_string codec "libx264");
     size := fst <$> quality_settings quality;
     videoBitrate := snd <$> quality_settings quality;
     noVideo := false; audioBitrate := None; audioCodec := None |}.

(** The [switch (format)] of [extractAudio]. *)
Definition audio_codec (format : string) : option string :=
  if decide (format = "mp3") then Some "libmp3lame"
  else if decide (format = "aac") then Some "aac"
  else if decide (format = "wav") then Some "pcm_s16le"
  else if decide (format = "flac") then Some "flac"
  else if decide (format = "ogg") then Some "libvorbis"
  else None.

(** The command of [extractAudio]. *)
Definition extractAudio (inputFile outputFile format : string)
    (bitrate : option string) : t :=
  {| input := inputFile; output := outputFile; format := format;
     videoCodec := None; size := None; videoBitrate := None;
     noVideo := true; audioBitrate := Some (or_string bitrate "192k");
     audioCodec := audio_codec format |}.

(** The command [POST /video] has [convertVideo] build: the route fills in
    ['mp4'], ['720p'] and ['libx264'] for what the body leaves out. *)
Definition post_video (outputDir jobId file_path : string)
    (format quality codec : option string) : t :=
  convertVideo file_path
    (path_join outputDir (jobId +:+ "." +:+ or_string format "mp4"))
    (or_string format "mp4") (Some (or_string quality "720p"))
    (Some (or_string codec "libx264")).

(** The command [POST /audio] has [extractAudio] build. *)
Definition post_audio (outputDir jobId file_path : string)
    (format bitrate : option string) : t :=
  extractAudio file_path
    (path_join outputDir (jobId +:+ "." +:+ or_string format "mp3"))
    (or_string format "mp3") (Some (or_string bitrate "192k")).

End Command.

(** ** routes/convert.js: uploads and the advertised formats *)

Module Upload.

(** [path.join(__dirname, '../uploads')]; [root] is the directory above
    the one of the route file. *)
Definition uploadDir (root : string) : string := path_join root "uploads".

(** The [filename] callback of the disk storage; [uuid] is its
    [uuidv4()]. *)
Definition filename (uuid originalname : string) : string :=
  uuid +:+ "-" +:+ originalname.

Definition allowedMimes : list string :=
  ["video/mp4"; "video/avi"; "video/mov"; "video/wmv"; "video/flv";
   "video/webm"; "video/mkv"; "audio/mp3"; "audio/wav"; "audio/aac";
   "audio/flac"; "audio/ogg"].

(** The [fileFilter] callback: [cb(null, true)], or [cb(new Error(...))]. *)
Definition fileFilter (mimetype : string) : res bool :=
  if bool_decide (mimetype ∈ allowedMimes) then Ok true
  else Throw "Invalid file type. Only video and audio files are allowed.".

(** [req.file.path]: the disk storage writes the upload under the
    directory and the name its two callbacks return. *)
Definition file_path (root uuid originalname : string) : string :=
  path_join (uploadDir root) (filename uuid originalname).

(** The lists of [GET /formats]. *)
Definition video : list string :=
  ["mp4"; "avi"; "mov"; "wmv"; "flv"; "webm"; "mkv"].
Definition audio : list string := ["mp3"; "wav"; "aac"; "flac"; "ogg"].
Definition qualities : list string :=
  ["480p"; "720p"; "1080p"; "1440p"; "2160p"].
Definition video_codecs : list string :=
  ["libx264"; "libx265"; "libvpx"; "libvpx-vp9"].
Definition audio_codecs : list string := ["aac"; "mp3"; "libvorbis"; "flac"].

(** [GET /formats]. *)
Definition get_formats : Response :=
  {| code := 200;
     body :=
       [("success", JBool true);
        ("formats",
         JObject
           [("video", JArray (JString <$> video));
            ("audio", JArray (JString <$> audio));
            ("qualities", JArray (JString <$> qualities));
            ("codecs",
             JObject [("video", JArray (JString <$> video_codecs));
                      ("audio", JArray (JString <$> audio_codecs))])])] |}.

End Upload.

(** ** The download routes behind their middleware

    [router.post('/', validateRateLimit, validateDownloadRequest, handler)]
    and [router.post('/batch', validateRateLimit, handler)]: a middleware
    that answers ends the request, one that calls [next()] hands it on. *)

Module Chain.

Import Validation.

(** The two module-level maps the download routes work on. *)
Record World := {
  limits : gmap (option string) ClientData;
  jobs : gmap string Download.Job
}.

(** [POST /]: [now] is the clock reading of the limiter, [now'] the one of
    the handler, [validated] what the download schema makes of the body. *)
Definition post_download (key : option string) (now now' : Z)
    (jobId : string) (validated : JoiResult DownloadBody) (w : World)
    : World * Response :=
  match validateRateLimit key now (limits w) with
  | (limits', Answer r) => ({| limits := limits'; jobs := jobs w |}, r)
  | (limits', Next) =>
      match validateDownloadRequest validated with
      | Refuse r => ({| limits := limits'; jobs := jobs w |}, r)
      | Pass value =>
          let '(jobs', r) :=
            Download.post_download jobId now' (url value) (format value)
              (quality value) (jobs w) in
          ({| limits := limits'; jobs := jobs' |}, r)
      end
  end.

(** [POST /batch]: [now'] gives the clock readings of the handler's
    loop. *)
Definition post_batch (key : option string) (now : Z) (now' : nat → Z)
    (uuid : nat → string) (urls : Json) (format quality : Json)
    (w : World) : World * Response :=
  match validateRateLimit key now (limits w) with
  | (limits', Answer r) => ({| limits := limits'; jobs := jobs w |}, r)
  | (limits', Next) =>
      let '(jobs', r) :=
        Download.post_batch uuid now' urls format quality (jobs w) in
      ({| limits := limits'; jobs := jobs' |}, r)
  end.

End Chain.

(** * Properties *)

(** ** The time-based progress estimator of download jobs *)

Section Estimator.

Import Download.

Example estimate_after_7_seconds : estimatedProgress 8500 (Some 1000) = Num 14.
Proof. reflexivity. Qed.

Example estimate_is_capped : estimatedProgress 3600000 (Some 1000) = Num 90.
Proof. reflexivity. Qed.

Example estimate_without_start : estimatedProgress 8500 None = NaN.
Proof. reflexivity. Qed.

(** [Math.floor(elapsed / 1000)] is the whole number of seconds elapsed. *)
Lemma elapsed_seconds_floor (now t : Z) :
  1000 * ((now - t) / 1000) ≤ now - t < 1000 * ((now - t) / 1000 + 1).
Proof.
  pose proof (Z.mul_div_le (now - t) 1000 ltac:(lia)).
  pose proof (Z.mul_succ_div_gt (now - t) 1000 ltac:(lia)).
  lia.
Qed.

Lemma estimatedProgress_value (now t : Z) :
  estimatedProgress now (Some t) = Num (Z.min 90 (2 * ((now - t) / 1000))).
Proof. unfold estimatedProgress. f_equal. lia. Qed.

(** The timer leaves every job that is not ['downloading'] alone. *)
Lemma progressTimer_idle jobId now (dj : gmap string Job) :
  (∀ job, dj !! jobId = Some job → status job ≠ downloading) →
  progressTimer jobId now dj = dj.
Proof.
  intros Hidle. unfold progressTimer.
  destruct (dj !! jobId) as [job|] eqn:Hjob; [|done].
  destruct (decide (status job = downloading)) as [Hd|]; [|done].
  by destruct (Hidle job).
Qed.

(** C1: while the fetch of a job is in flight (status ['downloading']), a tick
    of the progress timer records [min(90, 2 × elapsedSeconds)], where
    [elapsedSeconds] is the whole number of seconds since the job's start
    time; the recorded value is never above 90, and the timer writes nothing
    once the job has left ['downloading']. *)
Theorem estimator_tick jobId now t (dj : gmap string Job) job :
  dj !! jobId = Some job →
  startTime job = Some t →
  let elapsedSeconds := (now - t) / 1000 in
  1000 * elapsedSeconds ≤ now - t < 1000 * (elapsedSeconds + 1) ∧
  (status job = downloading →
   ∃ job', progressTimer jobId now dj !! jobId = Some job' ∧
           progress job' = Some (Num (Z.min 90 (2 * elapsedSeconds))) ∧
           status job' = downloading ∧
           Z.min 90 (2 * elapsedSeconds) ≤ 90) ∧
  (status job ≠ downloading → progressTimer jobId now dj = dj).
Proof.
  intros Hjob Hstart elapsedSeconds. split; [apply elapsed_seconds_floor|]. split.
  - intros Hd. unfold progressTimer. rewrite Hjob.
    destruct (decide (status job = downloading)); [|done].
    eexists. rewrite lookup_insert_eq. split; [done|].
    simpl. rewrite Hstart, estimatedProgress_value. repeat split; [done|lia].
  - intros Hn. apply progressTimer_idle. intros job' Hjob'.
    rewrite Hjob in Hjob'. by simplify_eq.
Qed.

Lemma estimator_tick_witness :
  Examples.fetching_store !! "job-1" = Some Examples.fetching ∧
  startTime Examples.fetching = Some 1000 ∧
  status Examples.fetching = downloading ∧
  ∃ job', progressTimer "job-1" 8500 Examples.fetching_store !! "job-1" = Some job' ∧
          progress job' = Some (Num 14).
Proof.
  repeat split; try reflexivity.
  destruct (estimator_tick "job-1" 8500 1000 Examples.fetching_store Examples.fetching
              eq_refl eq_refl) as (_ & Htick & _).
  destruct (Htick eq_refl) as (job' & Hlook & Hprog & _).
  exists job'. split; [exact Hlook | exact Hprog].
Defined.

End Estimator.

(** ** Format and quality mapping of download jobs *)

Section FormatQuality.

Import Download.

Example selector_of_unknown_quality : formatSelector (JString "best") = "best".
Proof. reflexivity. Qed.

Example audio_options :
  options "job-1" (JString "mp3") (JString "1080p") "/srv/downloads" 1000
  = {| YtDlp.output := "/srv/downloads/job-1-1000.%(ext)s";
       YtDlp.noPlaylist := true; YtDlp.extractAudio := Some true;
       YtDlp.audioFormat := Some "mp3"; YtDlp.audioQuality := Some "192K";
       YtDlp.format := None; YtDlp.recodeVideo := None |}.
Proof. reflexivity. Qed.

Lemma formatSelector_presets :
  Forall (λ p, formatSelector (JString p.1) = "best[height<=" +:+ p.2 +:+ "]")
         presets.
Proof. repeat constructor. Qed.

(** C8, as the code has it: [downloadVideo] builds an object that holds the
    mapping of the claim, the selector [best[height<=H]] for the five
    presets of a video download and, for the format ['mp3'], audio
    extraction with the container ['mp3'] and the bitrate ['192K'] and no
    selector. The call of the tool does not use it as arguments: the
    object is the second parameter of [execPromise], and the argument list
    the tool is run with is [[url]] for every format and quality. Two
    requests for the same url that differ in format or quality run the tool
    with the same arguments. *)
Theorem tool_arguments_without_mapping jobId url format quality outputDir
    timestamp :
  let call := downloadVideo_call jobId url format quality outputDir timestamp in
  YtDlp.ytDlpArguments call = [url] ∧
  (∀ jobId' format' quality' outputDir' timestamp',
     YtDlp.ytDlpArguments
       (downloadVideo_call jobId' url format' quality' outputDir' timestamp')
     = YtDlp.ytDlpArguments call) ∧
  (format ≠ JString "mp3" →
   YtDlp.extractAudio (YtDlp.options call) = None ∧
   ∀ q H, quality = JString q → (q, H) ∈ presets →
          YtDlp.format (YtDlp.options call)
          = Some ("best[height<=" +:+ H +:+ "]")) ∧
  (format = JString "mp3" →
   YtDlp.extractAudio (YtDlp.options call) = Some true ∧
   YtDlp.audioFormat (YtDlp.options call) = Some "mp3" ∧
   YtDlp.audioQuality (YtDlp.options call) = Some "192K" ∧
   YtDlp.format (YtDlp.options call) = None ∧
   YtDlp.recodeVideo (YtDlp.options call) = None).
Proof.
  intros call. subst call. cbn [downloadVideo_call YtDlp.ytDlpArguments
                                 YtDlp.options].
  split; [done|]. split; [done|]. unfold options. split.
  - intros Hv.
    assert (is_string format "mp3" = false) as ->.
    { destruct format as [| | | | |f| |]; try done. simpl.
      apply bool_decide_eq_false. congruence. }
    simpl. split; [done|]. intros q H -> HH.
    pose proof formatSelector_presets as Hall.
    rewrite Forall_forall in Hall. specialize (Hall _ HH). simpl in Hall.
    by rewrite Hall.
  - by intros ->.
Qed.

Lemma tool_arguments_without_mapping_witness :
  JString "mp4" ≠ JString "mp3" ∧
  ("480p", "480") ∈ presets ∧
  YtDlp.format
    (options "job-1" (JString "mp4") (JString "480p") "/srv/downloads" 1000)
  = Some "best[height<=480]" ∧
  YtDlp.audioQuality
    (options "job-1" (JString "mp3") (JString "480p") "/srv/downloads" 1000)
  = Some "192K".
Proof.
  assert (Hne : JString "mp4" ≠ JString "mp3") by (intros Heq; discriminate Heq).
  assert (Hin : ("480p", "480") ∈ presets) by (unfold presets; set_solver).
  split; [exact Hne|]. split; [exact Hin|]. split.
  - destruct (tool_arguments_without_mapping "job-1"
                (JString "https://youtu.be/abc") (JString "mp4")
                (JString "480p") "/srv/downloads" 1000) as (_ & _ & Hvideo & _).
    destruct (Hvideo Hne) as [_ Hsel]. exact (Hsel "480p" "480" eq_refl Hin).
  - destruct (tool_arguments_without_mapping "job-1"
                (JString "https://youtu.be/abc") (JString "mp3")
                (JString "480p") "/srv/downloads" 1000) as (_ & _ & _ & Haudio).
    destruct (Haudio eq_refl) as (_ & _ & Hq & _). exact Hq.
Defined.

(** C8 as stated fails: for the quality ['480p'] the selector
    [best[height<=480]] is not among the arguments of the tool, and for the
    format ['mp3'] no argument asks for audio extraction; in both cases the
    tool is run with the url alone. *)
Lemma mapping_counterexample :
  ¬ Spec.selector_passed "480"
      (downloadVideo_call "job-1" (JString "https://youtu.be/abc")
         (JString "mp4") (JString "480p") "/srv/downloads" 1000) ∧
  ¬ Spec.audio_mode_passed
      (downloadVideo_call "job-1" (JString "https://youtu.be/abc")
         (JString "mp3") (JString "480p") "/srv/downloads" 1000) ∧
  YtDlp.ytDlpArguments
    (downloadVideo_call "job-1" (JString "https://youtu.be/abc")
       (JString "mp4") (JString "480p") "/srv/downloads" 1000)
  = [JString "https://youtu.be/abc"].
Proof.
  split; [|split; [|reflexivity]].
  - intros (a & s & Ha & -> & Hs).
    cbn [downloadVideo_call YtDlp.ytDlpArguments] in Ha.
    apply list_elem_of_singleton in Ha. injection Ha as ->.
    by vm_compute in Hs.
  - intros (a & s & Ha & -> & Hs).
    cbn [downloadVideo_call YtDlp.ytDlpArguments] in Ha.
    apply list_elem_of_singleton in Ha. injection Ha as ->.
    destruct Hs as [Hs|Hs]; by vm_compute in Hs.
Qed.

End FormatQuality.

(** ** Queries for unknown job ids *)

Section UnknownId.

(** C9: for an id that is in neither job store, the status, progress and
    output queries of both route files answer a 404 response with an error
    message (the service functions return [null]); the handlers are total
    functions, no exception is raised. *)
Theorem unknown_id_not_found jobId (st : FFmpegService.State)
    (dj : gmap string Download.Job) (fs : Fs.t) :
  FFmpegService.jobs st !! jobId = None →
  dj !! jobId = None →
  FFmpegService.getProgress jobId st = None ∧
  FFmpegService.getOutputFile jobId st = None ∧
  Convert.get_progress jobId st =
    {| code := 404;
       body := [("success", JBool false); ("error", JString "Job not found")] |} ∧
  Convert.get_download jobId st fs =
    Send {| code := 404;
            body := [("success", JBool false);
                     ("error", JString "File not found")] |} ∧
  Download.get_progress jobId dj =
    {| code := 404;
       body := [("success", JBool false); ("error", JString "Job not found")] |} ∧
  Download.get_file jobId dj fs =
    Send {| code := 404;
            body := [("success", JBool false);
                     ("error", JString "File not ready or job not found")] |}.
Proof.
  intros Hst Hdj.
  unfold Convert.get_progress, Convert.get_download, Download.get_progress,
    Download.get_file, FFmpegService.getProgress, FFmpegService.getOutputFile.
  rewrite Hst, Hdj. by repeat split.
Qed.

Lemma unknown_id_not_found_witness :
  FFmpegService.jobs FFmpegService.init !! "nobody" = None ∧
  Examples.fetching_store !! "nobody" = None ∧
  code (Download.get_progress "nobody" Examples.fetching_store) = 404 ∧
  code (Convert.get_progress "nobody" FFmpegService.init) = 404.
Proof.
  split; [reflexivity|]. split; [reflexivity|].
  destruct (unknown_id_not_found "nobody" FFmpegService.init Examples.fetching_store []
              eq_refl eq_refl) as (_ & _ & Hc & _ & Hd & _).
  rewrite Hc, Hd. split; reflexivity.
Defined.

End UnknownId.

(** ** The batch route *)

Section Batch.

Import Download.

Lemma batch_ids_length uuid n : length (batch_ids uuid n) = n.
Proof. unfold batch_ids. by rewrite length_fmap, length_seq. Qed.

(** The loop writes only the entries of the ids it is given. *)
Lemma batch_times_length now n : length (batch_times now n) = n.
Proof. unfold batch_times. by rewrite length_fmap, length_seq. Qed.

(** The ids of the entries of the loop are the generated job ids. *)
Lemma batch_entries_ids uuid now (urls : list Json) :
  (zip (batch_ids uuid (length urls))
       (zip urls (batch_times now (length urls)))).*1
  = batch_ids uuid (length urls).
Proof.
  apply fst_zip.
  by rewrite length_zip_with, batch_ids_length, batch_times_length, Nat.min_id.
Qed.

Lemma batch_loop_other batchId format quality entries
    (dj : gmap string Job) id :
  id ∉ entries.*1 →
  batch_loop batchId format quality entries dj !! id = dj !! id.
Proof.
  revert dj. induction entries as [|[jobId [url now]] entries IH]; intros dj Hid.
  - done.
  - rewrite fmap_cons, not_elem_of_cons in Hid. destruct Hid as [Hne Hid].
    unfold batch_loop in *. simpl. rewrite IH by done.
    unfold downloadVideo_begin. by rewrite !lookup_insert_ne.
Qed.

(** Every id the loop is given ends with a job that is ['downloading']. *)
Lemma batch_loop_created batchId format quality entries
    (dj : gmap string Job) id :
  id ∈ entries.*1 →
  ∃ url now,
    (id, (url, now)) ∈ entries ∧
    batch_loop batchId format quality entries dj !! id =
      Some (spread_downloading
              (Some (new_job url format quality (Some batchId) now))).
Proof.
  revert dj. induction entries as [|[jobId [url now]] entries IH]; intros dj Hid.
  - by apply elem_of_nil in Hid.
  - destruct (decide (id ∈ entries.*1)) as [Hin|Hout].
    + destruct (IH (downloadVideo_begin jobId
                      (<[jobId := new_job url format quality (Some batchId) now]> dj))
                   Hin) as (url' & now' & Hel & Hlook).
      exists url', now'. split; [by right|]. exact Hlook.
    + rewrite fmap_cons, elem_of_cons in Hid. destruct Hid as [->|]; [|done].
      exists url, now. split; [by left|].
      unfold batch_loop in *. simpl.
      change (foldl _ ?a entries) with
        (batch_loop batchId format quality entries a).
      rewrite batch_loop_other by done.
      unfold downloadVideo_begin. by rewrite !lookup_insert_eq.
Qed.

Lemma batch_created_bound uuid urls : (length (batch_created uuid urls) ≤ 10)%nat.
Proof.
  unfold batch_created. destruct urls; simpl; try lia.
  destruct (decide (10 < length l)%nat); simpl; [lia|].
  rewrite batch_ids_length. lia.
Qed.

Lemma post_batch_other uuid now urls format quality (dj : gmap string Job) id :
  id ∉ batch_created uuid urls →
  (post_batch uuid now urls format quality dj).1 !! id = dj !! id.
Proof.
  unfold post_batch, batch_created. intros Hid.
  destruct urls as [| | | | | | [|u us] |]; try done.
  destruct (decide (10 < length (u :: us))%nat); [done|]. cbn [fst].
  apply batch_loop_other. by rewrite batch_entries_ids.
Qed.

(** C10: the batch route answers 400 and leaves [downloadJobs] as it is when
    [urls] is not an array, is empty, or holds more than 10 urls; in every
    case the entries it writes are those of at most 10 job ids. *)
Theorem batch_input_bound uuid now urls format quality (dj : gmap string Job) :
  let result := post_batch uuid now urls format quality dj in
  ((∀ l, urls ≠ JArray l) ∨ urls = JArray [] →
   result = (dj, {| code := 400;
                    body := [("success", JBool false);
                             ("error", JString "URLs array is required")] |})) ∧
  (∀ l, urls = JArray l → (10 < length l)%nat →
   result = (dj, {| code := 400;
                    body := [("success", JBool false);
                             ("error",
                              JString "Maximum 10 URLs allowed per batch")] |})) ∧
  (length (batch_created uuid urls) ≤ 10)%nat ∧
  (∀ id, id ∉ batch_created uuid urls → result.1 !! id = dj !! id).
Proof.
  intros result. subst result. repeat split.
  - intros [Hn| ->]; [|done].
    destruct urls as [| | | | | | l |]; try done. by destruct (Hn l).
  - intros l -> Hl. unfold post_batch. destruct l as [|u us]; [simpl in Hl; lia|].
    by destruct (decide (10 < length (u :: us))%nat).
  - apply batch_created_bound.
  - intros id. apply post_batch_other.
Qed.

Lemma batch_input_bound_witness :
  (∀ l, JNull ≠ JArray l) ∧
  (10 < length (replicate 11 (JString "https://youtu.be/abc")))%nat ∧
  code (post_batch Examples.uuid Examples.readings JNull JUndefined JUndefined
          Examples.fetching_store).2 = 400 ∧
  (post_batch Examples.uuid Examples.readings Examples.eleven_urls JUndefined
     JUndefined Examples.fetching_store).1 = Examples.fetching_store.
Proof.
  assert (Hnull : ∀ l, JNull ≠ JArray l) by (intros l Heq; discriminate Heq).
  assert (Hlen : (10 < length (replicate 11 (JString "https://youtu.be/abc")))%nat)
    by (vm_compute; lia).
  split; [exact Hnull|]. split; [exact Hlen|]. split.
  - destruct (batch_input_bound Examples.uuid Examples.readings JNull
                JUndefined JUndefined Examples.fetching_store)
      as (Hreq & _).
    rewrite (Hreq (or_introl Hnull)). reflexivity.
  - destruct (batch_input_bound Examples.uuid Examples.readings
                Examples.eleven_urls JUndefined JUndefined
                Examples.fetching_store)
      as (_ & Hmax & _).
    rewrite (Hmax _ eq_refl Hlen). reflexivity.
Defined.

End Batch.

(** ** Artifact discovery of download jobs *)

Section ArtifactDiscovery.

Import Download.

(** The filter of [downloadVideo] throws the error of the first name that
    cannot be [stat]ed, and keeps the matching names, in order, when there
    is none. *)
Lemma downloadedFiles_cases jobId outputDir (fs : Fs.t) files :
  downloadedFiles jobId outputDir fs files =
    match stat_error outputDir fs files with
    | Some message => Throw message
    | None => Ok (List.filter (Spec.is_match jobId outputDir fs) files)
    end.
Proof.
  induction files as [|file files IH]; [done|].
  cbn [downloadedFiles stat_error List.filter]. unfold Spec.is_match at 1.
  destruct (Fs.statSync (path_join outputDir file) fs) as [stats|m]; [|done].
  cbn [mbind res_bind]. rewrite IH.
  destruct (stat_error outputDir fs files); [done|]. cbn [mbind res_bind].
  by destruct (Fs.isFile stats && includes jobId file).
Qed.

Lemma stat_error_None outputDir (fs : Fs.t) files :
  stat_error outputDir fs files = None
  ↔ ∀ file, file ∈ files →
            ∃ stats, Fs.statSync (path_join outputDir file) fs = Ok stats.
Proof.
  induction files as [|file files IH]; simpl.
  - split; [|done]. by intros _ file ?%elem_of_nil.
  - destruct (Fs.statSync (path_join outputDir file) fs) as [stats|m] eqn:Hs.
    + rewrite IH. split.
      * intros Hall f [->|Hf]%elem_of_cons; [by eexists|by apply Hall].
      * intros Hall f Hf. apply Hall. by right.
    + split; [done|]. intros Hall. destruct (Hall file) as [stats Hok]; [by left|].
      congruence.
Qed.

Lemma stat_error_first outputDir (fs : Fs.t) before file after message :
  (∀ f, f ∈ before →
        ∃ stats, Fs.statSync (path_join outputDir f) fs = Ok stats) →
  Fs.statSync (path_join outputDir file) fs = Throw message →
  stat_error outputDir fs (before ++ file :: after) = Some message.
Proof.
  intros Hbefore Hfile. induction before as [|f before IH]; simpl.
  - by rewrite Hfile.
  - destruct (Hbefore f) as [stats ->]; [by left|].
    apply IH. intros f' Hf'. apply Hbefore. by right.
Qed.

(** Every name the filter keeps can be [stat]ed. *)
Lemma is_match_statSync jobId outputDir (fs : Fs.t) file :
  Spec.is_match jobId outputDir fs file = true →
  ∃ stats, Fs.statSync (path_join outputDir file) fs = Ok stats ∧
           Spec.size_of (path_join outputDir file) fs = Fs.size stats.
Proof.
  unfold Spec.is_match, Spec.size_of.
  destruct (Fs.statSync (path_join outputDir file) fs) as [stats|]; [|done].
  by exists stats.
Qed.

(** How the task of a job ends once the tool has reported success. *)
Lemma settle_resolved jobId outputDir now (fs : Fs.t) (dj : gmap string Job) :
  downloadVideo_settle jobId outputDir YtDlp.Resolved now fs dj !! jobId =
    Some match Fs.readdirSync outputDir fs with
         | Throw message => spread_failed (dj !! jobId) message now
         | Ok allFiles =>
             match stat_error outputDir fs allFiles with
             | Some message => spread_failed (dj !! jobId) message now
             | None =>
                 match List.filter (Spec.is_match jobId outputDir fs) allFiles
                 with
                 | [] =>
                     spread_failed (dj !! jobId) "Downloaded file not found"
                       now
                 | file :: _ =>
                     spread_completed (dj !! jobId) (path_join outputDir file)
                       (Spec.size_of (path_join outputDir file) fs) now
                 end
             end
         end.
Proof.
  unfold downloadVideo_settle, downloadVideo_finish.
  destruct (Fs.readdirSync outputDir fs) as [allFiles|m]; cbn [mbind res_bind].
  2: { unfold on_rejected. by rewrite lookup_insert_eq. }
  rewrite downloadedFiles_cases.
  destruct (stat_error outputDir fs allFiles) as [m|]; cbn [mbind res_bind].
  { unfold on_rejected. by rewrite lookup_insert_eq. }
  destruct (List.filter _ allFiles) as [|file files] eqn:Hfound.
  - unfold on_rejected. by rewrite lookup_insert_eq.
  - assert (Spec.is_match jobId outputDir fs file = true) as Hm.
    { eapply proj2, List.filter_In. rewrite Hfound. by left. }
    destruct (is_match_statSync _ _ _ _ Hm) as (stats & -> & ->).
    cbn [mbind res_bind]. by rewrite lookup_insert_eq.
Qed.

(** A directory that is gone cannot be listed. *)
Lemma readdirSync_missing d (fs : Fs.t) :
  Fs.lookup_path d fs = None →
  Fs.readdirSync d fs
  = Throw ("ENOENT: no such file or directory, scandir '" +:+ d +:+ "'").
Proof. unfold Fs.readdirSync. by intros ->. Qed.

(** C7, as the code has it: after the tool reports success the runner lists
    the output directory and [stat]s every name of the listing. When the
    directory can be listed and every name can be [stat]ed, it takes the
    first name, in the order of the listing, that is a regular file and
    contains the job id; that file, with its size, becomes the job's output
    and the job is ['completed']; with no such name the job ends ['failed']
    with the error ["Downloaded file not found"]. When the directory cannot
    be listed (it is gone: [ENOENT ... scandir]) or a name of the listing
    cannot be [stat]ed, the job ends ['failed'] with that error of the file
    system, a matching file or not. *)
Theorem artifact_is_first_match jobId outputDir now (fs : Fs.t)
    (dj : gmap string Job) :
  let settled :=
    downloadVideo_settle jobId outputDir YtDlp.Resolved now fs dj !! jobId in
  (∀ allFiles,
     Fs.readdirSync outputDir fs = Ok allFiles →
     (∀ file, file ∈ allFiles →
        ∃ stats, Fs.statSync (path_join outputDir file) fs = Ok stats) →
     settled =
       Some match List.filter (Spec.is_match jobId outputDir fs) allFiles with
            | [] => spread_failed (dj !! jobId) "Downloaded file not found" now
            | file :: _ =>
                spread_completed (dj !! jobId) (path_join outputDir file)
                  (Spec.size_of (path_join outputDir file) fs) now
            end) ∧
  (∀ message,
     Fs.readdirSync outputDir fs = Throw message →
     settled = Some (spread_failed (dj !! jobId) message now)) ∧
  (Fs.lookup_path outputDir fs = None →
   settled =
     Some (spread_failed (dj !! jobId)
             ("ENOENT: no such file or directory, scandir '" +:+ outputDir
              +:+ "'") now)) ∧
  (∀ before file after message,
     Fs.readdirSync outputDir fs = Ok (before ++ file :: after) →
     (∀ f, f ∈ before →
        ∃ stats, Fs.statSync (path_join outputDir f) fs = Ok stats) →
     Fs.statSync (path_join outputDir file) fs = Throw message →
     settled = Some (spread_failed (dj !! jobId) message now)).
Proof.
  intros settled. subst settled. rewrite settle_resolved.
  split; [|split; [|split]].
  - intros allFiles -> Hstat. apply stat_error_None in Hstat. by rewrite Hstat.
  - by intros message ->.
  - intros Hgone. by rewrite readdirSync_missing.
  - intros before file after message -> Hbefore Hfile.
    by rewrite (stat_error_first _ _ _ _ after _ Hbefore Hfile).
Qed.

Lemma artifact_is_first_match_witness :
  Fs.readdirSync "/srv/downloads" Examples.two_files
  = Ok ["job-7-1000.mkv"; "job-7-1000.mp4"] ∧
  outputFile <$>
    downloadVideo_settle "job-7" "/srv/downloads" YtDlp.Resolved 4000
      Examples.two_files Examples.job7_store !! "job-7"
  = Some (Some "/srv/downloads/job-7-1000.mkv") ∧
  Fs.lookup_path "/srv/downloads" [] = None ∧
  error <$>
    downloadVideo_settle "job-7" "/srv/downloads" YtDlp.Resolved 4000 []
      Examples.job7_store !! "job-7"
  = Some (Some "ENOENT: no such file or directory, scandir '/srv/downloads'") ∧
  Fs.readdirSync "/srv/downloads" Examples.stale_link
  = Ok ["latest"; "job-7-1000.mp4"] ∧
  error <$>
    downloadVideo_settle "job-7" "/srv/downloads" YtDlp.Resolved 4000
      Examples.stale_link Examples.job7_store !! "job-7"
  = Some (Some "ENOENT: no such file or directory, stat '/srv/downloads/latest'").
Proof.
  destruct (artifact_is_first_match "job-7" "/srv/downloads" 4000
              Examples.two_files Examples.job7_store) as (Hfirst & _).
  destruct (artifact_is_first_match "job-7" "/srv/downloads" 4000 []
              Examples.job7_store) as (_ & _ & Hgone & _).
  destruct (artifact_is_first_match "job-7" "/srv/downloads" 4000
              Examples.stale_link Examples.job7_store) as (_ & _ & _ & Hstat).
  split; [reflexivity|]. split.
  { rewrite (Hfirst ["job-7-1000.mkv"; "job-7-1000.mp4"] eq_refl); [reflexivity|].
    intros file Hfile.
    repeat (apply elem_of_cons in Hfile as [->|Hfile]);
      [by eexists..|by apply elem_of_nil in Hfile]. }
  split; [reflexivity|]. split.
  { by rewrite (Hgone eq_refl). }
  split; [reflexivity|].
  rewrite (Hstat [] "latest" ["job-7-1000.mp4"]
             "ENOENT: no such file or directory, stat '/srv/downloads/latest'"
             eq_refl); [reflexivity| |reflexivity].
  by intros f ?%elem_of_nil.
Defined.

Example two_files_newest :
  Spec.newest_match "job-7" "/srv/downloads" Examples.two_files
  = Some "job-7-1000.mp4".
Proof. reflexivity. Qed.

Example no_file_fails :
  (λ job, (status job, error job)) <$>
    downloadVideo_settle "job-7" "/srv/downloads" YtDlp.Resolved 4000
      Examples.other_files Examples.job7_store !! "job-7"
  = Some (failed, Some "Downloaded file not found").
Proof. reflexivity. Qed.

(** C7 as stated fails: with the fetched file listed before the newer
    re-encoded file, the runner records the older of the two. *)
Lemma newest_file_counterexample :
  ¬ Spec.selects_newest "job-7" "/srv/downloads" Examples.two_files
      (downloadVideo_settle "job-7" "/srv/downloads" YtDlp.Resolved 4000
         Examples.two_files Examples.job7_store).
Proof.
  intros (file & job & Hnew & Hjob & Hout).
  vm_compute in Hnew. vm_compute in Hjob.
  simplify_eq; vm_compute in Hout; discriminate Hout.
Qed.

End ArtifactDiscovery.

(** ** Failures of a job's task *)

Section Failures.

Lemma statSync_message p (fs : Fs.t) message :
  Fs.statSync p fs = Throw message → message ≠ "".
Proof.
  unfold Fs.statSync. destruct (Fs.lookup_path p fs); [done|].
  intros [= <-]. done.
Qed.

Lemma readdirSync_message d (fs : Fs.t) message :
  Fs.readdirSync d fs = Throw message → message ≠ "".
Proof.
  unfold Fs.readdirSync. destruct (Fs.lookup_path d fs) as [e|].
  - destruct (Fs.isFile (Fs.stats e)); [|done]. by intros [= <-].
  - by intros [= <-].
Qed.

Lemma stat_error_message outputDir (fs : Fs.t) files message :
  Download.stat_error outputDir fs files = Some message → message ≠ "".
Proof.
  induction files as [|file files IH]; [done|]. simpl.
  destruct (Fs.statSync _ fs) as [stats|m] eqn:Hs; [done|].
  intros [= <-]. by eapply statSync_message.
Qed.

(** Whatever [downloadVideo] throws carries a message. *)
Lemma downloadVideo_finish_message jobId outputDir r now (fs : Fs.t)
    (dj : gmap string Download.Job) message :
  Download.downloadVideo_finish jobId outputDir r now fs dj = Throw message →
  message ≠ "".
Proof.
  unfold Download.downloadVideo_finish. destruct r as [|m].
  - destruct (Fs.readdirSync outputDir fs) as [allFiles|m] eqn:Hdir;
      cbn [mbind res_bind].
    2: { intros [= <-]. by eapply readdirSync_message. }
    rewrite downloadedFiles_cases.
    destruct (Download.stat_error outputDir fs allFiles) as [m|] eqn:Hstat;
      cbn [mbind res_bind].
    { intros [= <-]. by eapply stat_error_message. }
    destruct (List.filter _ allFiles) as [|file files]; [by intros [= <-]|].
    destruct (Fs.statSync _ fs) as [stats|m] eqn:Hs; simpl; [done|].
    intros [= <-]. by eapply statSync_message.
  - by intros [= <-].
Qed.

(** The two ways the task of a job ends. *)
Lemma downloadVideo_settle_cases jobId outputDir r now fs
    (dj : gmap string Download.Job) :
  (∃ outputFile fileSize,
     Download.downloadVideo_finish jobId outputDir r now fs dj
     = Ok (<[jobId := Download.spread_completed (dj !! jobId) outputFile
                        fileSize now]> dj) ∧
     Download.downloadVideo_settle jobId outputDir r now fs dj
     = <[jobId := Download.spread_completed (dj !! jobId) outputFile fileSize
                    now]> dj) ∨
  (∃ message,
     Download.downloadVideo_finish jobId outputDir r now fs dj = Throw message ∧
     Download.downloadVideo_settle jobId outputDir r now fs dj
     = <[jobId := Download.spread_failed (dj !! jobId) message now]> dj).
Proof.
  unfold Download.downloadVideo_settle.
  destruct (Download.downloadVideo_finish _ _ _ _ _ _) as [dj'|m] eqn:Hfin.
  - left. unfold Download.downloadVideo_finish in Hfin. destruct r; [|done].
    destruct (Fs.readdirSync outputDir fs) as [allFiles|]; [|done].
    cbn [mbind res_bind] in Hfin.
    destruct (Download.downloadedFiles _ _ _ _) as [[|file files]|]; try done.
    cbn [mbind res_bind] in Hfin.
    destruct (Fs.statSync _ fs); [|done]. cbn [mbind res_bind] in Hfin.
    injection Hfin as <-. by eexists _, _.
  - right. by exists m.
Qed.

(** The task of a download job always leaves the job in a terminal state. *)
Lemma downloadVideo_settle_terminal jobId outputDir r now (fs : Fs.t)
    (dj : gmap string Download.Job) :
  ∃ job,
    Download.downloadVideo_settle jobId outputDir r now fs dj !! jobId = Some job ∧
    terminal (Download.status job) = true ∧
    Download.endTime job = Some now.
Proof.
  destruct (downloadVideo_settle_cases jobId outputDir r now fs dj)
    as [(f & sz & _ & ->)|(m & _ & ->)];
    rewrite lookup_insert_eq; eexists; (split; [done|]);
    by destruct (dj !! jobId).
Qed.

Lemma foldl_jobs_convertVideo jobId events (st : FFmpegService.State) :
  FFmpegService.jobs
    (foldl (λ s p, FFmpegService.convertVideo_on_progress jobId p s) st events)
  = FFmpegService.jobs st.
Proof. revert st. induction events as [|p events IH]; intros st; [done|]. simpl. by rewrite IH. Qed.

Lemma foldl_jobs_extractAudio jobId events (st : FFmpegService.State) :
  FFmpegService.jobs
    (foldl (λ s p, FFmpegService.extractAudio_on_progress jobId p s) st events)
  = FFmpegService.jobs st.
Proof. revert st. induction events as [|p events IH]; intros st; [done|]. simpl. by rewrite IH. Qed.

Lemma spread_failed_fields old message now :
  Download.status (Download.spread_failed old message now) = failed ∧
  Download.error (Download.spread_failed old message now) = Some message ∧
  Download.endTime (Download.spread_failed old message now) = Some now.
Proof. by destruct old. Qed.

Lemma settle_failed_with jobId outputDir r now fs
    (dj : gmap string Download.Job) message :
  Download.downloadVideo_settle jobId outputDir r now fs dj !! jobId
  = Some (Download.spread_failed (dj !! jobId) message now) →
  Download.failed_with jobId message now
    (Download.downloadVideo_settle jobId outputDir r now fs dj).
Proof.
  intros Hjob. eexists. split; [exact Hjob|]. apply spread_failed_fields.
Qed.

(** C5: a failure of a job's task ends the job in ['failed'] with the
    failure's message and an end time. The task of a download fails when
    the tool rejects (the error is [yt-dlp failed: ] and the tool's
    message), when the download directory cannot be listed, when a name of
    the listing cannot be [stat]ed (the error is the one of the file
    system), and when no listed name matches (["Downloaded file not
    found"]); whatever [downloadVideo] throws reaches the [.catch] handler
    that both creating routes attach. The task always ends in a terminal
    state, and it ends ['completed'] only when none of these failures
    occurs. For conversions the tool's ['error'] event marks the job
    ['failed'] and rejects the promise, which the route answers with a 500
    response. *)
Theorem failure_ends_failed :
  (∀ jobId outputDir now fs (dj : gmap string Download.Job) m,
     Download.failed_with jobId ("yt-dlp failed: " +:+ m) now
       (Download.downloadVideo_settle jobId outputDir (YtDlp.Rejected m) now
          fs dj)) ∧
  (∀ jobId outputDir now fs (dj : gmap string Download.Job),
     let settled :=
       Download.downloadVideo_settle jobId outputDir YtDlp.Resolved now fs dj
     in
     (∀ message,
        Fs.readdirSync outputDir fs = Throw message →
        Download.failed_with jobId message now settled) ∧
     (∀ allFiles message,
        Fs.readdirSync outputDir fs = Ok allFiles →
        Download.stat_error outputDir fs allFiles = Some message →
        Download.failed_with jobId message now settled) ∧
     (∀ allFiles,
        Fs.readdirSync outputDir fs = Ok allFiles →
        Download.stat_error outputDir fs allFiles = None →
        List.filter (Spec.is_match jobId outputDir fs) allFiles = [] →
        Download.failed_with jobId "Downloaded file not found" now settled) ∧
     ((∃ job, settled !! jobId = Some job ∧
              Download.status job = completed)
      ↔ ∃ allFiles,
          Fs.readdirSync outputDir fs = Ok allFiles ∧
          Download.stat_error outputDir fs allFiles = None ∧
          List.filter (Spec.is_match jobId outputDir fs) allFiles ≠ [])) ∧
  (∀ jobId outputDir r now fs (dj : gmap string Download.Job),
     (∃ job,
        Download.downloadVideo_settle jobId outputDir r now fs dj !! jobId
          = Some job ∧
        terminal (Download.status job) = true ∧
        Download.endTime job = Some now) ∧
     ∀ message,
       Download.downloadVideo_finish jobId outputDir r now fs dj = Throw message →
       message ≠ "" ∧
       Download.failed_with jobId message now
         (Download.downloadVideo_settle jobId outputDir r now fs dj)) ∧
  (∀ outputDir now jobId file_path format quality codec events message t st,
     let run := {| Ffmpeg.events := events;
                   Ffmpeg.outcome := Some (Ffmpeg.Error message, t) |} in
     ∃ st' job,
       Convert.post_video outputDir now jobId file_path format quality codec
         run st
       = (st', Some {| code := 500;
                       body := [("success", JBool false);
                                ("error", JString "Video conversion failed");
                                ("message", JString message)] |}) ∧
       FFmpegService.jobs st' !! jobId = Some job ∧
       FFmpegService.status job = failed ∧
       FFmpegService.error job = Some message ∧
       FFmpegService.endTime job = Some t) ∧
  (∀ outputDir now jobId file_path format bitrate events message t st,
     let run := {| Ffmpeg.events := events;
                   Ffmpeg.outcome := Some (Ffmpeg.Error message, t) |} in
     ∃ st' job,
       Convert.post_audio outputDir now jobId file_path format bitrate run st
       = (st', Some {| code := 500;
                       body := [("success", JBool false);
                                ("error", JString "Audio extraction failed");
                                ("message", JString message)] |}) ∧
       FFmpegService.jobs st' !! jobId = Some job ∧
       FFmpegService.status job = failed ∧
       FFmpegService.error job = Some message ∧
       FFmpegService.endTime job = Some t).
Proof.
  split; [|split; [|split; [|split]]].
  - intros jobId outputDir now fs dj m. apply settle_failed_with.
    unfold Download.downloadVideo_settle, Download.downloadVideo_finish,
      Download.on_rejected.
    by rewrite lookup_insert_eq.
  - intros jobId outputDir now fs dj settled. subst settled.
    pose proof (settle_resolved jobId outputDir now fs dj) as Hjob.
    split; [|split; [|split]].
    + intros message Hdir. apply settle_failed_with. by rewrite Hjob, Hdir.
    + intros allFiles message Hdir Hstat. apply settle_failed_with.
      by rewrite Hjob, Hdir, Hstat.
    + intros allFiles Hdir Hstat Hnone. apply settle_failed_with.
      by rewrite Hjob, Hdir, Hstat, Hnone.
    + rewrite Hjob. split.
      * intros (job & [= <-] & Hdone).
        destruct (Fs.readdirSync outputDir fs) as [allFiles|m];
          [|destruct (spread_failed_fields (dj !! jobId) m now) as [? _];
            congruence].
        destruct (Download.stat_error outputDir fs allFiles) as [m|] eqn:Hstat;
          [destruct (spread_failed_fields (dj !! jobId) m now) as [? _];
           congruence|].
        exists allFiles. split; [done|]. split; [done|].
        intros Hnone. rewrite Hnone in Hdone.
        destruct (spread_failed_fields (dj !! jobId)
                    "Downloaded file not found" now) as [? _].
        congruence.
      * intros (allFiles & -> & -> & Hsome).
        destruct (List.filter _ allFiles) as [|file files]; [done|].
        eexists. split; [done|]. by destruct (dj !! jobId).
  - intros jobId outputDir r now fs dj. split.
    + apply downloadVideo_settle_terminal.
    + intros message Hthrow. split; [by eapply downloadVideo_finish_message|].
      apply settle_failed_with.
      unfold Download.downloadVideo_settle. rewrite Hthrow.
      unfold Download.on_rejected. by rewrite lookup_insert_eq.
  - intros outputDir now jobId file_path format quality codec events message t
      st run. subst run.
    unfold Convert.post_video, FFmpegService.convertVideo. simpl.
    eexists _, _. split; [done|]. simpl.
    rewrite lookup_insert_eq, foldl_jobs_convertVideo. simpl.
    by rewrite lookup_insert_eq.
  - intros outputDir now jobId file_path format bitrate events message t st run.
    subst run.
    unfold Convert.post_audio, FFmpegService.extractAudio. simpl.
    eexists _, _. split; [done|]. simpl.
    rewrite lookup_insert_eq, foldl_jobs_extractAudio. simpl.
    by rewrite lookup_insert_eq.
Qed.

Lemma failure_ends_failed_witness :
  Download.failed_with "job-1" "yt-dlp failed: network unreachable" 9000
    (Download.downloadVideo_settle "job-1" "/srv/downloads"
       (YtDlp.Rejected "network unreachable") 9000 [] Examples.fetching_store) ∧
  Fs.readdirSync "/srv/downloads" []
  = Throw "ENOENT: no such file or directory, scandir '/srv/downloads'" ∧
  Download.failed_with "job-7"
    "ENOENT: no such file or directory, scandir '/srv/downloads'" 4000
    (Download.downloadVideo_settle "job-7" "/srv/downloads" YtDlp.Resolved
       4000 [] Examples.job7_store) ∧
  Download.stat_error "/srv/downloads" Examples.stale_link
    ["latest"; "job-7-1000.mp4"]
  = Some "ENOENT: no such file or directory, stat '/srv/downloads/latest'" ∧
  Download.failed_with "job-7"
    "ENOENT: no such file or directory, stat '/srv/downloads/latest'" 4000
    (Download.downloadVideo_settle "job-7" "/srv/downloads" YtDlp.Resolved
       4000 Examples.stale_link Examples.job7_store) ∧
  List.filter (Spec.is_match "job-7" "/srv/downloads" Examples.other_files)
    ["job-3-900.mp4"] = [] ∧
  Download.failed_with "job-7" "Downloaded file not found" 4000
    (Download.downloadVideo_settle "job-7" "/srv/downloads" YtDlp.Resolved
       4000 Examples.other_files Examples.job7_store).
Proof.
  destruct failure_ends_failed as (Hrejected & Hresolved & _).
  split; [apply Hrejected|]. split; [reflexivity|]. split.
  { by apply (Hresolved "job-7" "/srv/downloads" 4000 [] Examples.job7_store). }
  split; [reflexivity|]. split.
  { destruct (Hresolved "job-7" "/srv/downloads" 4000 Examples.stale_link
                Examples.job7_store) as (_ & Hstat & _).
    by apply (Hstat ["latest"; "job-7-1000.mp4"]). }
  split; [reflexivity|].
  destruct (Hresolved "job-7" "/srv/downloads" 4000 Examples.other_files
              Examples.job7_store) as (_ & _ & Hnone & _).
  by apply (Hnone ["job-3-900.mp4"]).
Defined.

End Failures.

(** ** The retention sweeps *)

Section FileSystem.

Lemma lstat_unlinked p q (fs : Fs.t) :
  Fs.lstat q
    (List.filter (λ e, negb (bool_decide (Fs.path_of e = p))) fs)
  = if decide (q = p) then None else Fs.lstat q fs.
Proof.
  unfold Fs.lstat. induction fs as [|e fs IH]; simpl.
  - by destruct (decide (q = p)).
  - destruct (decide (Fs.path_of e = p)) as [Hp|Hp].
    + rewrite (bool_decide_eq_true_2 _ Hp). simpl. rewrite IH.
      destruct (decide (q = p)) as [->|Hq]; [done|].
      rewrite bool_decide_eq_false_2; [done|congruence].
    + rewrite (bool_decide_eq_false_2 _ Hp). simpl.
      destruct (decide (Fs.path_of e = q)) as [Hq|Hq].
      * rewrite (bool_decide_eq_true_2 _ Hq).
        destruct (decide (q = p)); [congruence|done].
      * rewrite (bool_decide_eq_false_2 _ Hq). exact IH.
Qed.

Lemma lookup_path_unlinked p q (fs : Fs.t) :
  Fs.lookup_path q
    (List.filter (λ e, negb (bool_decide (Fs.path_of e = p))) fs)
  = if decide (q = p) then None else Fs.lookup_path q fs.
Proof.
  unfold Fs.lookup_path. rewrite lstat_unlinked. by destruct (decide (q = p)).
Qed.

(** [if (fs.existsSync(p)) fs.unlinkSync(p)] on a path that is not a
    directory: afterwards nothing is found at [p], and every other path is
    as before. *)
Lemma unlink_if_exists p (fs : Fs.t) :
  (∀ e, Fs.lookup_path p fs = Some e → Fs.isFile (Fs.stats e) = true) →
  ∃ fs',
    (if Fs.existsSync (Some p) fs then Fs.unlinkSync p fs else Ok fs) = Ok fs' ∧
    ∀ q, Fs.lookup_path q fs' = if decide (q = p) then None else Fs.lookup_path q fs.
Proof.
  intros Hfile. unfold Fs.existsSync, Fs.unlinkSync.
  destruct (Fs.lookup_path p fs) as [e|] eqn:He.
  - pose proof (Hfile e eq_refl) as Hreg. unfold Fs.lookup_path in He.
    destruct (Fs.lstat p fs) as [e0|]; [|done].
    destruct (Fs.dangling e0); [done|]. injection He as ->. rewrite Hreg.
    eexists. split; [done|]. intros q. apply lookup_path_unlinked.
  - exists fs. split; [done|]. intros q.
    destruct (decide (q = p)) as [->|]; done.
Qed.

Lemma existsSync_lookup p (fs : Fs.t) :
  Fs.existsSync (Some p) fs = false ↔ Fs.lookup_path p fs = None.
Proof. unfold Fs.existsSync. by destruct (Fs.lookup_path p fs). Qed.

End FileSystem.

Section ConversionSweep.

Import FFmpegService.

Variables now maxAge : Z.

Lemma for_of_cons {A B : Type} (body : A → B → res A) x l a :
  FFmpegService.for_of body (x :: l) a = body a x ≫= FFmpegService.for_of body l.
Proof. done. Qed.

Lemma cleanup_entry_keeps st fs jobId job :
  ¬ due now maxAge job →
  cleanup_entry now maxAge (st, fs) (jobId, job) = Ok (st, fs).
Proof.
  intros Hyoung. unfold cleanup_entry.
  destruct (truthy_time (endTime job)) as [t|] eqn:Ht; [|done].
  destruct (decide (now - t > maxAge)) as [Hold|]; [|done].
  destruct Hyoung. exists t. by rewrite Ht.
Qed.

Lemma cleanup_entry_removes st (fs : Fs.t) jobId job :
  due now maxAge job →
  is_Some (inputFile job) →
  (∀ p e, p ∈ artifacts job → Fs.lookup_path p fs = Some e →
          Fs.isFile (Fs.stats e) = true) →
  ∃ fs',
    cleanup_entry now maxAge (st, fs) (jobId, job)
    = Ok ({| jobs := delete jobId (jobs st);
             progressTracking := delete jobId (progressTracking st) |}, fs') ∧
    ∀ q, Fs.lookup_path q fs' =
         if decide (q ∈ artifacts job) then None else Fs.lookup_path q fs.
Proof.
  intros (t & Ht & Hold) [f Hin] Hfiles. unfold cleanup_entry.
  rewrite Ht. destruct (decide (now - t > maxAge)); [|done].
  unfold artifacts in *. rewrite Hin in *.
  assert (∃ fs1,
    (if Fs.existsSync (outputFile job) fs
     then Fs.unlinkSync (default "" (outputFile job)) fs else Ok fs) = Ok fs1 ∧
    ∀ q, Fs.lookup_path q fs1 =
         if decide (q ∈ option_list (outputFile job)) then None
         else Fs.lookup_path q fs) as (fs1 & -> & Hfs1).
  { destruct (outputFile job) as [p|]; simpl.
    - destruct (unlink_if_exists p fs) as (fs1 & Hok & Hchar).
      { intros e. apply Hfiles. set_solver. }
      exists fs1. split; [done|]. intros q. rewrite Hchar.
      destruct (decide (q = p)), (decide (q ∈ [p])); set_solver.
    - exists fs. split; [done|]. intros q.
      destruct (decide (q ∈ [])); set_solver. }
  simpl. destruct (includes "uploads" f) eqn:Hup; simpl.
  - destruct (unlink_if_exists f fs1) as (fs2 & Hok & Hfs2).
    { intros e. rewrite Hfs1. destruct (decide (f ∈ _)); [done|].
      apply Hfiles. set_solver. }
    unfold Fs.existsSync in Hok. rewrite Hok. simpl. exists fs2. split; [done|]. intros q. rewrite Hfs2, Hfs1.
    destruct (decide (q = f)), (decide (q ∈ option_list (outputFile job))),
      (decide (q ∈ option_list (outputFile job) ++ [f])); set_solver.
  - exists fs1. split; [done|]. intros q. rewrite Hfs1, app_nil_r. done.
Qed.

(** What a sweep over the entries [l] leaves, from the stores [st] and the
    file system [fs]. *)
Lemma cleanup_loop (l : list (string * Job)) st (fs : Fs.t) :
  (∀ jobId job, (jobId, job) ∈ l → due now maxAge job →
     is_Some (inputFile job) ∧
     ∀ p e, p ∈ artifacts job → Fs.lookup_path p fs = Some e →
            Fs.isFile (Fs.stats e) = true) →
  ∃ st' fs',
    for_of (cleanup_entry now maxAge) l (st, fs) = Ok (st', fs') ∧
    (∀ jobId, (jobs st' !! jobId = None ∧ progressTracking st' !! jobId = None) ∨
              (jobs st' !! jobId = jobs st !! jobId ∧
               progressTracking st' !! jobId = progressTracking st !! jobId)) ∧
    (∀ jobId job, (jobId, job) ∈ l → due now maxAge job →
       jobs st' !! jobId = None ∧ progressTracking st' !! jobId = None) ∧
    (∀ jobId, (∀ job, (jobId, job) ∈ l → ¬ due now maxAge job) →
       jobs st' !! jobId = jobs st !! jobId ∧
       progressTracking st' !! jobId = progressTracking st !! jobId) ∧
    (∀ q, Fs.lookup_path q fs' = None ∨
          Fs.lookup_path q fs' = Fs.lookup_path q fs) ∧
    (∀ jobId job q, (jobId, job) ∈ l → due now maxAge job → q ∈ artifacts job →
       Fs.lookup_path q fs' = None) ∧
    (∀ q, (∀ jobId job, (jobId, job) ∈ l → due now maxAge job →
                        q ∉ artifacts job) →
       Fs.lookup_path q fs' = Fs.lookup_path q fs).
Proof.
  revert st fs. induction l as [|[id0 job0] l IH]; intros st fs Hwf.
  - exists st, fs. split; [done|].
    repeat split; try done; try (by right);
      intros; exfalso; eapply not_elem_of_nil; eauto.
  - destruct (decide (due now maxAge job0)) as [Hdue|Hkeep].
    + destruct (Hwf id0 job0 ltac:(by left) Hdue) as [Hin Hfiles].
      destruct (cleanup_entry_removes st fs id0 job0 Hdue Hin Hfiles)
        as (fs1 & Hentry & Hfs1).
      set (st1 := {| jobs := delete id0 (jobs st);
                     progressTracking := delete id0 (progressTracking st) |})
        in *.
      destruct (IH st1 fs1) as (st' & fs' & Hloop & Hmono & Hgone & Hkept &
                                  Hfmono & Hfgone & Hfkept).
      { intros jobId job Hel Hd.
        destruct (Hwf jobId job ltac:(by right) Hd) as [Hi Hf].
        split; [done|]. intros p e Hp. rewrite Hfs1.
        destruct (decide (p ∈ artifacts job0)); [done|]. by apply Hf. }
      exists st', fs'. split; [by rewrite for_of_cons, Hentry|].
      split; [|split; [|split; [|split; [|split]]]].
      * intros jobId. destruct (Hmono jobId) as [?|[Hj Hp]]; [by left|].
        rewrite Hj, Hp. simpl. destruct (decide (jobId = id0)) as [->|].
        -- left. by rewrite !lookup_delete_eq.
        -- right. by rewrite !lookup_delete_ne.
      * intros jobId job Hel Hd. apply elem_of_cons in Hel as [[= -> ->]|Hel].
        -- destruct (Hmono id0) as [?|[Hj Hp]]; [done|].
           rewrite Hj, Hp. simpl. by rewrite !lookup_delete_eq.
        -- by eapply Hgone.
      * intros jobId Hall.
        assert (jobId ≠ id0) as Hne.
        { intros ->. by apply (Hall job0); [left|]. }
        destruct (Hkept jobId) as [Hj Hp].
        { intros job Hel. apply Hall. by right. }
        rewrite Hj, Hp. simpl. by rewrite !lookup_delete_ne.
      * intros q. destruct (Hfmono q) as [?|Hq]; [by left|].
        rewrite Hq, Hfs1. destruct (decide (q ∈ artifacts job0)); [by left|by right].
      * intros jobId job q Hel Hd Hq.
        apply elem_of_cons in Hel as [[= -> ->]|Hel].
        -- destruct (Hfmono q) as [?|Hq']; [done|].
           rewrite Hq', Hfs1. by destruct (decide (q ∈ artifacts job0)).
        -- by eapply Hfgone.
      * intros q Hall. rewrite Hfkept.
        -- rewrite Hfs1. destruct (decide (q ∈ artifacts job0)) as [Hq|]; [|done].
           by destruct (Hall id0 job0 ltac:(by left) Hdue).
        -- intros jobId job Hel. apply (Hall jobId). by right.
    + destruct (IH st fs) as (st' & fs' & Hloop & Hmono & Hgone & Hkept &
                                Hfmono & Hfgone & Hfkept).
      { intros jobId job Hel. apply (Hwf jobId). by right. }
      exists st', fs'.
      split; [by rewrite for_of_cons, (cleanup_entry_keeps st fs id0 job0 Hkeep)|].
      split; [done|]. split; [|split; [|split; [done|split]]].
      * intros jobId job Hel Hd. apply elem_of_cons in Hel as [[= -> ->]|Hel];
          [done|by eapply Hgone].
      * intros jobId Hall. apply Hkept. intros job Hel. apply Hall. by right.
      * intros jobId job q Hel Hd Hq.
        apply elem_of_cons in Hel as [[= -> ->]|Hel]; [done|by eapply Hfgone].
      * intros q Hall. apply Hfkept. intros jobId job Hel. apply (Hall jobId).
        by right.
Qed.

End ConversionSweep.

Section DownloadSweep.

Import Download.

Variable now : Z.

Lemma download_entry_keeps (dj : gmap string Job) fs jobId job :
  ¬ due now job → cleanup_entry now (dj, fs) (jobId, job) = Ok (dj, fs).
Proof.
  intros Hyoung. unfold cleanup_entry.
  destruct (truthy_time (endTime job)) as [t|] eqn:Ht; [|done].
  destruct (decide (now - t > maxAge)) as [Hold|]; [|done].
  destruct Hyoung. exists t. by rewrite Ht.
Qed.

Lemma download_entry_removes (dj : gmap string Job) (fs : Fs.t) jobId job :
  due now job →
  (∀ p e, p ∈ artifacts job → Fs.lookup_path p fs = Some e →
          Fs.isFile (Fs.stats e) = true) →
  ∃ fs',
    cleanup_entry now (dj, fs) (jobId, job) = Ok (delete jobId dj, fs') ∧
    ∀ q, Fs.lookup_path q fs' =
         if decide (q ∈ artifacts job) then None else Fs.lookup_path q fs.
Proof.
  intros (t & Ht & Hold) Hfiles. unfold cleanup_entry.
  rewrite Ht. destruct (decide (now - t > maxAge)); [|done].
  unfold artifacts in *.
  destruct (truthy_string (outputFile job)) as [p|].
  - destruct (unlink_if_exists p fs) as (fs1 & Hok & Hchar).
    { intros e. apply Hfiles. set_solver. }
    rewrite Hok. exists fs1. split; [done|]. intros q. rewrite Hchar. simpl.
    destruct (decide (q = p)), (decide (q ∈ [p])); set_solver.
  - exists fs. split; [done|]. intros q. simpl.
    destruct (decide (q ∈ [])); set_solver.
Qed.

(** What a sweep over the entries [l] leaves, from the map [dj] and the file
    system [fs]. *)
Lemma download_loop (l : list (string * Job)) (dj : gmap string Job)
    (fs : Fs.t) :
  (∀ jobId job, (jobId, job) ∈ l → due now job →
     ∀ p e, p ∈ artifacts job → Fs.lookup_path p fs = Some e →
            Fs.isFile (Fs.stats e) = true) →
  ∃ dj' fs',
    FFmpegService.for_of (cleanup_entry now) l (dj, fs) = Ok (dj', fs') ∧
    (∀ jobId, dj' !! jobId = None ∨ dj' !! jobId = dj !! jobId) ∧
    (∀ jobId job, (jobId, job) ∈ l → due now job → dj' !! jobId = None) ∧
    (∀ jobId, (∀ job, (jobId, job) ∈ l → ¬ due now job) →
       dj' !! jobId = dj !! jobId) ∧
    (∀ q, Fs.lookup_path q fs' = None ∨
          Fs.lookup_path q fs' = Fs.lookup_path q fs) ∧
    (∀ jobId job q, (jobId, job) ∈ l → due now job → q ∈ artifacts job →
       Fs.lookup_path q fs' = None) ∧
    (∀ q, (∀ jobId job, (jobId, job) ∈ l → due now job → q ∉ artifacts job) →
       Fs.lookup_path q fs' = Fs.lookup_path q fs).
Proof.
  revert dj fs. induction l as [|[id0 job0] l IH]; intros dj fs Hwf.
  - exists dj, fs. split; [done|].
    repeat split; try done; try (by right);
      intros; exfalso; eapply not_elem_of_nil; eauto.
  - destruct (decide (due now job0)) as [Hdue|Hkeep].
    + pose proof (Hwf id0 job0 ltac:(by left) Hdue) as Hfiles.
      destruct (download_entry_removes dj fs id0 job0 Hdue Hfiles)
        as (fs1 & Hentry & Hfs1).
      destruct (IH (delete id0 dj) fs1)
        as (dj' & fs' & Hloop & Hmono & Hgone & Hkept & Hfmono & Hfgone & Hfkept).
      { intros jobId job Hel Hd p e Hp. rewrite Hfs1.
        destruct (decide (p ∈ artifacts job0)); [done|].
        by apply (Hwf jobId job ltac:(by right) Hd). }
      exists dj', fs'.
      split; [by rewrite for_of_cons, Hentry|].
      split; [|split; [|split; [|split; [|split]]]].
      * intros jobId. destruct (Hmono jobId) as [?|Hj]; [by left|].
        rewrite Hj. destruct (decide (jobId = id0)) as [->|].
        -- left. by rewrite lookup_delete_eq.
        -- right. by rewrite lookup_delete_ne.
      * intros jobId job Hel Hd. apply elem_of_cons in Hel as [[= -> ->]|Hel].
        -- destruct (Hmono id0) as [?|Hj]; [done|].
           by rewrite Hj, lookup_delete_eq.
        -- by eapply Hgone.
      * intros jobId Hall.
        assert (jobId ≠ id0) as Hne.
        { intros ->. by apply (Hall job0); [left|]. }
        rewrite Hkept by (intros job Hel; apply Hall; by right).
        by rewrite lookup_delete_ne.
      * intros q. destruct (Hfmono q) as [?|Hq]; [by left|].
        rewrite Hq, Hfs1. destruct (decide (q ∈ artifacts job0)); [by left|by right].
      * intros jobId job q Hel Hd Hq.
        apply elem_of_cons in Hel as [[= -> ->]|Hel].
        -- destruct (Hfmono q) as [?|Hq']; [done|].
           rewrite Hq', Hfs1. by destruct (decide (q ∈ artifacts job0)).
        -- by eapply Hfgone.
      * intros q Hall. rewrite Hfkept.
        -- rewrite Hfs1. destruct (decide (q ∈ artifacts job0)) as [Hq|]; [|done].
           by destruct (Hall id0 job0 ltac:(by left) Hdue).
        -- intros jobId job Hel. apply (Hall jobId). by right.
    + destruct (IH dj fs)
        as (dj' & fs' & Hloop & Hmono & Hgone & Hkept & Hfmono & Hfgone & Hfkept).
      { intros jobId job Hel. apply (Hwf jobId). by right. }
      exists dj', fs'.
      split; [by rewrite for_of_cons,
                (download_entry_keeps dj fs id0 job0 Hkeep)|].
      split; [done|]. split; [|split; [|split; [done|split]]].
      * intros jobId job Hel Hd. apply elem_of_cons in Hel as [[= -> ->]|Hel];
          [done|by eapply Hgone].
      * intros jobId Hall. apply Hkept. intros job Hel. apply Hall. by right.
      * intros jobId job q Hel Hd Hq.
        apply elem_of_cons in Hel as [[= -> ->]|Hel]; [done|by eapply Hfgone].
      * intros q Hall. apply Hfkept. intros jobId job Hel. apply (Hall jobId).
        by right.
Qed.

End DownloadSweep.

Section Retention.

Lemma lookup_path_empty (fs : Fs.t) : Fs.lookup_path "" fs = None.
Proof.
  unfold Fs.lookup_path, Fs.lstat.
  destruct (List.find _ fs) as [e|] eqn:Hfind; [|done].
  apply List.find_some in Hfind as [_ He]. apply bool_decide_eq_true in He.
  unfold Fs.path_of, path_join in He. by destruct (Fs.dir e).
Qed.

Lemma unlinkable_spec (fs : Fs.t) paths :
  forallb (Fs.unlinkable fs) paths = true →
  ∀ p e, p ∈ paths → Fs.lookup_path p fs = Some e →
         Fs.isFile (Fs.stats e) = true.
Proof.
  rewrite List.forallb_forall. intros Hall p e Hp He.
  apply list_elem_of_In, Hall in Hp. unfold Fs.unlinkable in Hp.
  by rewrite He in Hp.
Qed.

Lemma conversion_sweepable now maxAge st fs :
  FFmpegService.sweepable now maxAge st fs = true →
  ∀ jobId job,
    (jobId, job) ∈ map_to_list (FFmpegService.jobs st) →
    FFmpegService.due now maxAge job →
    is_Some (FFmpegService.inputFile job) ∧
    ∀ p e, p ∈ FFmpegService.artifacts job → Fs.lookup_path p fs = Some e →
           Fs.isFile (Fs.stats e) = true.
Proof.
  unfold FFmpegService.sweepable. rewrite List.forallb_forall.
  intros Hall jobId job Hel Hdue. apply list_elem_of_In, Hall in Hel.
  simpl in Hel. rewrite (bool_decide_eq_true_2 _ Hdue) in Hel. simpl in Hel.
  apply andb_true_iff in Hel as [Hin Hfiles].
  apply bool_decide_eq_true in Hin. split; [done|]. by apply unlinkable_spec.
Qed.

Lemma download_sweepable now dj fs :
  Download.sweepable now dj fs = true →
  ∀ jobId job,
    (jobId, job) ∈ map_to_list dj → Download.due now job →
    ∀ p e, p ∈ Download.artifacts job → Fs.lookup_path p fs = Some e →
           Fs.isFile (Fs.stats e) = true.
Proof.
  unfold Download.sweepable. rewrite List.forallb_forall.
  intros Hall jobId job Hel Hdue. apply list_elem_of_In, Hall in Hel.
  simpl in Hel. rewrite (bool_decide_eq_true_2 _ Hdue) in Hel. simpl in Hel.
  by apply unlinkable_spec.
Qed.

(** One sweep of the conversion jobs that runs to its end. *)
Lemma conversion_sweep now maxAge st fs :
  FFmpegService.sweepable now maxAge st fs = true →
  ∃ st' fs',
    FFmpegService.cleanup now maxAge st fs = Ok (st', fs') ∧
    (∀ jobId job t,
       FFmpegService.jobs st !! jobId = Some job →
       FFmpegService.endTime job = Some t → t ≠ 0 → now - t > maxAge →
       FFmpegService.jobs st' !! jobId = None ∧
       FFmpegService.progressTracking st' !! jobId = None ∧
       Fs.existsSync (FFmpegService.outputFile job) fs' = false ∧
       ∀ f, FFmpegService.inputFile job = Some f → includes "uploads" f = true →
            Fs.existsSync (Some f) fs' = false) ∧
    (∀ jobId job,
       FFmpegService.jobs st !! jobId = Some job →
       (FFmpegService.endTime job = None ∨
        ∃ t, FFmpegService.endTime job = Some t ∧ now - t ≤ maxAge) →
       FFmpegService.jobs st' !! jobId = Some job ∧
       FFmpegService.progressTracking st' !! jobId
       = FFmpegService.progressTracking st !! jobId) ∧
    (∀ q, (∀ jobId job, FFmpegService.jobs st !! jobId = Some job →
                        FFmpegService.due now maxAge job →
                        q ∉ FFmpegService.artifacts job) →
          Fs.lookup_path q fs' = Fs.lookup_path q fs).
Proof.
  intros Hsw. pose proof (conversion_sweepable _ _ _ _ Hsw) as Hwf.
  destruct (cleanup_loop now maxAge (map_to_list (FFmpegService.jobs st)) st fs
              Hwf)
    as (st' & fs' & Hloop & _ & Hgone & Hkept & _ & Hfgone & Hfkept).
  exists st', fs'. split; [exact Hloop|]. split; [|split].
  - intros jobId job t Hjob Hend Ht Hold.
    assert (Hdue : FFmpegService.due now maxAge job).
    { exists t. split; [|done]. rewrite Hend. simpl.
      by destruct (decide (t = 0)). }
    apply elem_of_map_to_list in Hjob.
    destruct (Hgone jobId job Hjob Hdue) as [Hj Hp].
    split; [done|]. split; [done|]. split.
    + destruct (FFmpegService.outputFile job) as [p|] eqn:Hout; [|done].
      apply existsSync_lookup, (Hfgone jobId job p Hjob Hdue).
      unfold FFmpegService.artifacts. rewrite Hout. set_solver.
    + intros f Hin Hup.
      apply existsSync_lookup, (Hfgone jobId job f Hjob Hdue).
      unfold FFmpegService.artifacts. rewrite Hin, Hup. set_solver.
  - intros jobId job Hjob Hyoung.
    destruct (Hkept jobId) as [Hj Hp]; [|by rewrite Hj, Hp].
    intros job' Hel (t & Ht & Hold). apply elem_of_map_to_list in Hel.
    rewrite Hjob in Hel. injection Hel as <-.
    destruct Hyoung as [Hnone|(t' & Hsome & Hle)].
    + by rewrite Hnone in Ht.
    + rewrite Hsome in Ht. simpl in Ht.
      destruct (decide (t' = 0)); [done|]. injection Ht as <-. lia.
  - intros q Hq. apply Hfkept. intros jobId job Hel.
    apply elem_of_map_to_list in Hel. by apply (Hq jobId).
Qed.

(** One sweep of the download jobs that runs to its end. *)
Lemma download_sweep now (dj : gmap string Download.Job) fs :
  Download.sweepable now dj fs = true →
  ∃ dj' fs',
    Download.cleanup now dj fs = Ok (dj', fs') ∧
    (∀ jobId job t,
       dj !! jobId = Some job →
       Download.endTime job = Some t → t ≠ 0 → now - t > Download.maxAge →
       dj' !! jobId = None ∧
       Fs.existsSync (Download.outputFile job) fs' = false) ∧
    (∀ jobId job,
       dj !! jobId = Some job →
       (Download.endTime job = None ∨
        ∃ t, Download.endTime job = Some t ∧ now - t ≤ Download.maxAge) →
       dj' !! jobId = Some job) ∧
    (∀ q, (∀ jobId job, dj !! jobId = Some job → Download.due now job →
                        q ∉ Download.artifacts job) →
          Fs.lookup_path q fs' = Fs.lookup_path q fs).
Proof.
  intros Hsw. pose proof (download_sweepable _ _ _ Hsw) as Hwf.
  destruct (download_loop now (map_to_list dj) dj fs Hwf)
    as (dj' & fs' & Hloop & _ & Hgone & Hkept & _ & Hfgone & Hfkept).
  exists dj', fs'. split; [exact Hloop|]. split; [|split].
  - intros jobId job t Hjob Hend Ht Hold.
    assert (Hdue : Download.due now job).
    { exists t. split; [|done]. rewrite Hend. simpl.
      by destruct (decide (t = 0)). }
    apply elem_of_map_to_list in Hjob.
    split; [by eapply Hgone|].
    destruct (Download.outputFile job) as [[|c p]|] eqn:Hout; [| |done].
    + apply existsSync_lookup, lookup_path_empty.
    + apply existsSync_lookup, (Hfgone jobId job _ Hjob Hdue).
      unfold Download.artifacts. rewrite Hout. set_solver.
  - intros jobId job Hjob Hyoung. rewrite Hkept; [done|].
    intros job' Hel (t & Ht & Hold). apply elem_of_map_to_list in Hel.
    rewrite Hjob in Hel. injection Hel as <-.
    destruct Hyoung as [Hnone|(t' & Hsome & Hle)].
    + by rewrite Hnone in Ht.
    + rewrite Hsome in Ht. simpl in Ht.
      destruct (decide (t' = 0)); [done|]. injection Ht as <-. lia.
  - intros q Hq. apply Hfkept. intros jobId job Hel.
    apply elem_of_map_to_list in Hel. by apply (Hq jobId).
Qed.

End Retention.

Section RetentionClaim.

(** C6: a sweep that runs to its end (no artifact path is a directory, every
    job to remove has its input path) removes every job whose end time,
    a nonzero clock reading, lies more than the max-age (default 24 hours)
    before the sweep: the job leaves [jobs] and [progressTracking] (or
    [downloadJobs]), its output file is no longer on disk, nor is its input
    file when the path is under ["uploads"]. Every job that has no end time
    or whose end time is at most max-age old keeps its entries unchanged,
    and the only paths the sweep touches are artifacts of removed jobs. *)
Theorem sweep_retention :
  FFmpegService.default_maxAge = 24 * 60 * 60 * 1000 ∧
  Download.maxAge = 24 * 60 * 60 * 1000 ∧
  (∀ now maxAge st fs,
     FFmpegService.sweepable now maxAge st fs = true →
     ∃ st' fs',
       FFmpegService.cleanup now maxAge st fs = Ok (st', fs') ∧
       (∀ jobId job t,
          FFmpegService.jobs st !! jobId = Some job →
          FFmpegService.endTime job = Some t → t ≠ 0 → now - t > maxAge →
          FFmpegService.jobs st' !! jobId = None ∧
          FFmpegService.progressTracking st' !! jobId = None ∧
          Fs.existsSync (FFmpegService.outputFile job) fs' = false ∧
          ∀ f, FFmpegService.inputFile job = Some f →
               includes "uploads" f = true →
               Fs.existsSync (Some f) fs' = false) ∧
       (∀ jobId job,
          FFmpegService.jobs st !! jobId = Some job →
          (FFmpegService.endTime job = None ∨
           ∃ t, FFmpegService.endTime job = Some t ∧ now - t ≤ maxAge) →
          FFmpegService.jobs st' !! jobId = Some job ∧
          FFmpegService.progressTracking st' !! jobId
          = FFmpegService.progressTracking st !! jobId) ∧
       (∀ q, (∀ jobId job, FFmpegService.jobs st !! jobId = Some job →
                           FFmpegService.due now maxAge job →
                           q ∉ FFmpegService.artifacts job) →
             Fs.lookup_path q fs' = Fs.lookup_path q fs)) ∧
  (∀ now (dj : gmap string Download.Job) fs,
     Download.sweepable now dj fs = true →
     ∃ dj' fs',
       Download.cleanup now dj fs = Ok (dj', fs') ∧
       (∀ jobId job t,
          dj !! jobId = Some job →
          Download.endTime job = Some t → t ≠ 0 → now - t > Download.maxAge →
          dj' !! jobId = None ∧
          Fs.existsSync (Download.outputFile job) fs' = false) ∧
       (∀ jobId job,
          dj !! jobId = Some job →
          (Download.endTime job = None ∨
           ∃ t, Download.endTime job = Some t ∧ now - t ≤ Download.maxAge) →
          dj' !! jobId = Some job) ∧
       (∀ q, (∀ jobId job, dj !! jobId = Some job → Download.due now job →
                           q ∉ Download.artifacts job) →
             Fs.lookup_path q fs' = Fs.lookup_path q fs)).
Proof.
  split; [done|]. split; [done|]. split.
  - apply conversion_sweep.
  - apply download_sweep.
Qed.

Lemma sweep_retention_witness :
  FFmpegService.sweepable Examples.sweep_time FFmpegService.default_maxAge
    Examples.two_conversions Examples.conversion_files = true ∧
  Download.sweepable Examples.sweep_time Examples.two_downloads
    Examples.download_files = true ∧
  (∃ st' fs',
     FFmpegService.cleanup Examples.sweep_time FFmpegService.default_maxAge
       Examples.two_conversions Examples.conversion_files = Ok (st', fs') ∧
     FFmpegService.jobs st' !! "old-job" = None ∧
     Fs.existsSync (Some "/srv/output/old-job.mp4") fs' = false ∧
     Fs.existsSync (Some "/srv/uploads/a.avi") fs' = false ∧
     FFmpegService.jobs st' !! "new-job"
     = FFmpegService.jobs Examples.two_conversions !! "new-job") ∧
  (∃ dj' fs',
     Download.cleanup Examples.sweep_time Examples.two_downloads
       Examples.download_files = Ok (dj', fs') ∧
     dj' !! "old-dl" = None ∧
     Fs.existsSync (Some "/srv/downloads/old-dl-1000.mp4") fs' = false ∧
     dj' !! "new-dl" = Examples.two_downloads !! "new-dl").
Proof.
  assert (Hconv : FFmpegService.sweepable Examples.sweep_time
                    FFmpegService.default_maxAge Examples.two_conversions
                    Examples.conversion_files = true) by (vm_compute; reflexivity).
  assert (Hdl : Download.sweepable Examples.sweep_time Examples.two_downloads
                  Examples.download_files = true) by (vm_compute; reflexivity).
  destruct sweep_retention as (_ & _ & Hsweep & Hdsweep).
  split; [exact Hconv|]. split; [exact Hdl|]. split.
  - destruct (Hsweep _ _ _ _ Hconv) as (st' & fs' & Hok & Hgone & Hkept & _).
    exists st', fs'. split; [exact Hok|].
    destruct (FFmpegService.jobs Examples.two_conversions !! "old-job")
      as [old|] eqn:Hold; [|vm_compute in Hold; discriminate Hold].
    destruct (FFmpegService.jobs Examples.two_conversions !! "new-job")
      as [new|] eqn:Hnew; [|vm_compute in Hnew; discriminate Hnew].
    vm_compute in Hold. injection Hold as <-.
    vm_compute in Hnew. injection Hnew as <-.
    edestruct (Hgone "old-job" _ 2000 ltac:(vm_compute; reflexivity) eq_refl)
      as (Hj & _ & Hout & Hin); [lia | vm_compute; reflexivity |].
    split; [exact Hj|]. split; [exact Hout|].
    split; [exact (Hin _ eq_refl eq_refl)|].
    edestruct (Hkept "new-job" _ ltac:(vm_compute; reflexivity)) as [Hj' _].
    { right. eexists. split; [reflexivity|]. vm_compute. discriminate. }
    exact Hj'.
  - destruct (Hdsweep _ _ _ Hdl) as (dj' & fs' & Hok & Hgone & Hkept & _).
    exists dj', fs'. split; [exact Hok|].
    destruct (Examples.two_downloads !! "old-dl")
      as [old|] eqn:Hold; [|vm_compute in Hold; discriminate Hold].
    destruct (Examples.two_downloads !! "new-dl")
      as [new|] eqn:Hnew; [|vm_compute in Hnew; discriminate Hnew].
    vm_compute in Hold. injection Hold as <-.
    vm_compute in Hnew. injection Hnew as <-.
    edestruct (Hgone "old-dl" _ 2000 ltac:(vm_compute; reflexivity) eq_refl)
      as (Hj & Hout); [lia | vm_compute; reflexivity |].
    split; [exact Hj|]. split; [exact Hout|].
    eapply Hkept; [vm_compute; reflexivity|].
    right. eexists. split; [reflexivity|]. vm_compute. discriminate.
Defined.

End RetentionClaim.

(** ** The invariant of the download jobs *)

Section DownloadInvariant.

Import Download.

Lemma estimate_mono clock now t :
  clock ≤ now →
  Z.min 90 ((clock - t) / 1000 * 2) ≤ Z.min 90 ((now - t) / 1000 * 2).
Proof.
  intros Hle.
  assert ((clock - t) / 1000 ≤ (now - t) / 1000) by (apply Z.div_le_mono; lia).
  lia.
Qed.

Lemma estimate_nonneg now t : t ≤ now → 0 ≤ Z.min 90 ((now - t) / 1000 * 2).
Proof.
  intros Hle. assert (0 ≤ (now - t) / 1000) by (apply Z.div_pos; lia). lia.
Qed.

(** The invariant of a job survives the passing of time. *)
Lemma job_ok_later clock now (P Q : Prop) j :
  job_ok clock P j → clock ≤ now → (P ↔ Q) → job_ok now Q j.
Proof.
  intros (Hs & Hp & (t & p & Ht & Hle & Hpr & Hr & H100 & Hb) & Hrest) Hc HPQ.
  split; [done|]. split; [by rewrite <- HPQ|]. split; [|done].
  exists t, p. split; [done|]. split; [lia|]. do 3 (split; [done|]).
  intros Hn. pose proof (estimate_mono clock now t Hc). specialize (Hb Hn). lia.
Qed.

Lemma job_ok_created now (P : Prop) url format quality batchId :
  P →
  job_ok now P (spread_downloading (Some (new_job url format quality batchId now))).
Proof.
  intros HP. unfold job_ok. simpl.
  split; [by left|]. split; [done|]. split.
  { exists now, 0. rewrite Z.sub_diag. simpl.
    split; [done|]. split; [lia|]. split; [done|]. split; [lia|].
    split; [split; [lia|done]|]. intros _. by vm_compute. }
  repeat split; try done; by intros [? [=]].
Qed.

Lemma post_download_store jobId now url format quality (dj : gmap string Job) :
  (post_download jobId now url format quality dj).1
  = <[jobId := spread_downloading
                 (Some (new_job (JString url) (JString format)
                          (JString quality) None now))]> dj.
Proof.
  unfold post_download, downloadVideo_begin. simpl.
  by rewrite lookup_insert_eq, insert_insert_eq.
Qed.

Lemma post_batch_created uuid now urls format quality (dj : gmap string Job) id :
  id ∈ batch_created uuid urls →
  ∃ url i,
    (post_batch uuid now urls format quality dj).1 !! id
    = Some (spread_downloading
              (Some (new_job url (or_default format "mp4")
                       (or_default quality "720p") (Some (uuid 0%nat))
                       (now i)))).
Proof.
  unfold post_batch, batch_created. intros Hid.
  destruct urls as [| | | | | | [|u us] |]; try by apply elem_of_nil in Hid.
  destruct (decide (10 < length (u :: us))%nat);
    [by apply elem_of_nil in Hid|]. cbn [fst].
  destruct (batch_loop_created (uuid 0%nat) (or_default format "mp4")
                (or_default quality "720p")
                (zip (batch_ids uuid (length (u :: us)))
                     (zip (u :: us) (batch_times now (length (u :: us)))))
                dj id)
    as (url & t & Hel & Hlook).
  { by rewrite batch_entries_ids. }
  assert (t ∈ batch_times now (length (u :: us))) as Ht.
  { apply elem_of_zip_r in Hel. by apply elem_of_zip_r in Hel. }
  unfold batch_times in Ht. apply list_elem_of_fmap in Ht as (i & -> & _).
  by exists url, i.
Qed.

(** What a sweep does to the map, whenever it runs to its end. *)
Lemma cleanup_loop_jobs now l (dj : gmap string Job) fs dj' fs' :
  FFmpegService.for_of (cleanup_entry now) l (dj, fs) = Ok (dj', fs') →
  (∀ jobId, dj' !! jobId = None ∨ dj' !! jobId = dj !! jobId) ∧
  (∀ jobId, (∀ job, (jobId, job) ∈ l → ¬ due now job) →
            dj' !! jobId = dj !! jobId).
Proof.
  revert dj fs. induction l as [|[id0 job0] l IH]; intros dj fs Hloop.
  - injection Hloop as <- <-. split; [by right|done].
  - rewrite for_of_cons in Hloop.
    destruct (cleanup_entry now (dj, fs) (id0, job0)) as [[dj1 fs1]|] eqn:Hentry;
      [|done].
    destruct (IH _ _ Hloop) as [Hmono Hkept].
    assert (dj1 = dj ∨ dj1 = delete id0 dj ∧ due now job0) as Hcases.
    { unfold cleanup_entry in Hentry.
      destruct (truthy_time (endTime job0)) as [t|] eqn:Ht;
        [|left; by injection Hentry as <- _].
      destruct (decide (now - t > maxAge)); [|left; by injection Hentry as <- _].
      right. destruct (match truthy_string (outputFile job0) with
                       | Some _ => _ | None => _ end); [|done].
      simpl in Hentry. injection Hentry as <- _. split; [done|].
      exists t. by rewrite Ht. }
    destruct Hcases as [->|[-> Hdue]].
    + split; [done|]. intros jobId Hall. apply Hkept.
      intros job Hel. apply Hall. by right.
    + split.
      * intros jobId. destruct (Hmono jobId) as [?|Hj]; [by left|].
        rewrite Hj. destruct (decide (jobId = id0)) as [->|].
        -- left. by rewrite lookup_delete_eq.
        -- right. by rewrite lookup_delete_ne.
      * intros jobId Hall.
        assert (jobId ≠ id0) as Hne.
        { intros ->. by apply (Hall job0); [left|]. }
        rewrite Hkept by (intros job Hel; apply Hall; by right).
        by rewrite lookup_delete_ne.
Qed.

End DownloadInvariant.

Section DownloadReachable.

Import Download.

Lemma invariant_init t0 : invariant (sys_init t0).
Proof.
  split; simpl.
  - intros jobId j Hj. by rewrite lookup_empty in Hj.
  - intros jobId Hin. by apply not_elem_of_empty in Hin.
Qed.

Lemma job_ok_completed clock now (P Q : Prop) j outputFile' fileSize' :
  job_ok clock P j → status j = downloading → clock ≤ now → ¬ Q →
  job_ok now Q (spread_completed (Some j) outputFile' fileSize' now).
Proof.
  intros (_ & _ & (t & p & Ht & Hle & _) & _ & _ & Herr & _) Hd Hc HQ.
  unfold job_ok. simpl.
  split; [by right; left|]. split; [by split|]. split.
  { exists t, 100. split; [done|]. split; [lia|]. split; [done|].
    split; [lia|]. by split. }
  split; [by split|]. split; [by split|]. split; [|by split].
  split; [|done]. intros He. apply Herr in He. congruence.
Qed.

Lemma job_ok_failed clock now (P Q : Prop) j message :
  job_ok clock P j → status j = downloading → clock ≤ now → ¬ Q →
  job_ok now Q (spread_failed (Some j) message now).
Proof.
  intros (_ & _ & (t & p & Ht & Hle & Hp & Hr & _ & Hb) & Hout & Hsz & _ & _)
    Hd Hc HQ.
  unfold job_ok. simpl.
  split; [by right; right|]. split; [by split|]. split.
  { assert (p ≤ Z.min 90 ((clock - t) / 1000 * 2)) by (apply Hb; congruence).
    pose proof (estimate_mono clock now t Hc).
    exists t, p. split; [done|]. split; [lia|]. split; [done|].
    split; [lia|]. split; [|lia]. split; [lia|done]. }
  split; [|split; [|split; [by split|by split]]].
  - split; [|done]. intros Ho. apply Hout in Ho. congruence.
  - split; [|done]. intros Ho. apply Hsz in Ho. congruence.
Qed.

Lemma job_ok_tick clock now (P : Prop) j :
  job_ok clock P j → status j = downloading → clock ≤ now →
  job_ok now P (spread_progress j (estimatedProgress now (startTime j))).
Proof.
  intros (Hs & HP & (t & p & Ht & Hle & _) & Hrest) Hd Hc.
  unfold job_ok. simpl. rewrite Ht, Hd in *. simpl.
  split; [done|]. split; [done|]. split; [|done].
  pose proof (estimate_nonneg now t ltac:(lia)).
  eexists t, _. split; [done|]. split; [lia|]. split; [done|].
  split; [lia|]. split; [|lia]. split; [lia|done].
Qed.

(** Every step of the download routes keeps the invariant. *)
Lemma step_invariant s s' : invariant s → step s s' → invariant s'.
Proof.
  intros [Hjobs Hpend] Hstep.
  destruct Hstep as [jobId now url format quality s Hfresh Hc
                    |uuid now now' urls format quality s Hfresh Hc
                    |jobId now s Htimer Hc
                    |jobId outputDir r now fs s Hp Hc
                    |now fs dj' fs' s Hc Hsweep].
  - rewrite post_download_store. split; cbn [downloadJobs pending timers clock].
    + intros id j Hj. destruct (decide (id = jobId)) as [->|Hne].
      * rewrite lookup_insert_eq in Hj. injection Hj as <-.
        apply job_ok_created. set_solver.
      * rewrite lookup_insert_ne in Hj by done.
        eapply job_ok_later; [by apply Hjobs|done|set_solver].
    + intros id Hin. destruct (decide (id = jobId)) as [->|Hne].
      * by rewrite lookup_insert_eq.
      * rewrite lookup_insert_ne by done. apply Hpend. set_solver.
  - split; cbn [downloadJobs pending timers clock].
    + intros id j Hj.
      destruct (decide (id ∈ batch_created uuid urls)) as [Hin|Hout].
      * destruct (post_batch_created uuid now urls format quality
                    (downloadJobs s) id Hin) as (url & i & Hlook).
        rewrite Hlook in Hj. injection Hj as <-.
        eapply (job_ok_later (now i) now' True);
          [by apply job_ok_created|apply Hc|set_solver].
      * rewrite post_batch_other in Hj by done.
        eapply job_ok_later;
          [by apply Hjobs|destruct (Hc 0%nat); lia|set_solver].
    + intros id Hin.
      destruct (decide (id ∈ batch_created uuid urls)) as [Hin'|Hout].
      * destruct (post_batch_created uuid now urls format quality
                    (downloadJobs s) id Hin') as (url & i & Hlook).
        by rewrite Hlook.
      * rewrite post_batch_other by done. apply Hpend. set_solver.
  - unfold progressTimer.
    destruct (downloadJobs s !! jobId) as [cur|] eqn:Hcur;
      [destruct (decide (status cur = downloading)) as [Hd|]|].
    + split; cbn [downloadJobs pending timers clock].
      * intros id j Hj. destruct (decide (id = jobId)) as [->|Hne].
        -- rewrite lookup_insert_eq in Hj. injection Hj as <-.
           eapply job_ok_tick; [by apply Hjobs|done|done].
        -- rewrite lookup_insert_ne in Hj by done.
           eapply job_ok_later; [by apply Hjobs|done|done].
      * intros id Hin. destruct (decide (id = jobId)) as [->|Hne].
        -- by rewrite lookup_insert_eq.
        -- rewrite lookup_insert_ne by done. by apply Hpend.
    + split; cbn [downloadJobs pending timers clock]; [|done]. intros id j Hj.
      eapply job_ok_later; [by apply Hjobs|done|done].
    + split; cbn [downloadJobs pending timers clock]; [|done]. intros id j Hj.
      eapply job_ok_later; [by apply Hjobs|done|done].
  - destruct (Hpend jobId Hp) as [cur Hcur].
    pose proof (Hjobs jobId cur Hcur) as Hok.
    assert (status cur = downloading) as Hd.
    { destruct Hok as (_ & Hiff & _). by apply Hiff. }
    assert (∃ j', downloadVideo_settle jobId outputDir r now fs (downloadJobs s)
                  = <[jobId := j']> (downloadJobs s) ∧
                  job_ok now (jobId ∈ pending s ∖ {[jobId]}) j')
      as (j' & -> & Hok').
    { destruct (downloadVideo_settle_cases jobId outputDir r now fs
                  (downloadJobs s)) as [(f & sz & _ & ->)|(m & _ & ->)];
        rewrite Hcur; eexists; (split; [done|]).
      - eapply job_ok_completed; [done|done|done|set_solver].
      - eapply job_ok_failed; [done|done|done|set_solver]. }
    split; cbn [downloadJobs pending timers clock].
    + intros id j Hj. destruct (decide (id = jobId)) as [->|Hne].
      * rewrite lookup_insert_eq in Hj. by injection Hj as <-.
      * rewrite lookup_insert_ne in Hj by done.
        eapply job_ok_later; [by apply Hjobs|done|set_solver].
    + intros id Hin. rewrite lookup_insert_ne by set_solver.
      apply Hpend. set_solver.
  - unfold cleanup in Hsweep.
    destruct (cleanup_loop_jobs _ _ _ _ _ _ Hsweep) as [Hmono Hkept].
    split; cbn [downloadJobs pending timers clock].
    + intros id j Hj. destruct (Hmono id) as [Hnone|Hsame]; [congruence|].
      rewrite Hsame in Hj. eapply job_ok_later; [by apply Hjobs|done|done].
    + intros id Hin. destruct (Hpend id Hin) as [cur Hcur].
      rewrite Hkept; [by rewrite Hcur|].
      intros job Hel (t & Ht & _). apply elem_of_map_to_list in Hel.
      rewrite Hcur in Hel. injection Hel as <-.
      destruct (Hjobs id cur Hcur) as (_ & Hiff & _ & _ & _ & _ & Hend).
      assert (is_Some (endTime cur)) as Hsome.
      { destruct (endTime cur); [by eexists|done]. }
      apply Hend in Hsome. apply Hsome. by apply Hiff.
Qed.

Lemma reachable_invariant s : reachable s → invariant s.
Proof.
  intros [t0 Hrtc]. revert s Hrtc. apply rtc_ind_r.
  - apply invariant_init.
  - intros s s' _ Hstep IH. by eapply step_invariant.
Qed.

End DownloadReachable.

Section DownloadProgress.

Import Download.


Lemma batch_created_uuid uuid urls id :
  id ∈ batch_created uuid urls → ∃ i, id = uuid i.
Proof.
  unfold batch_created. destruct urls; try by intros ?%elem_of_nil.
  case_decide; [by intros ?%elem_of_nil|].
  unfold batch_ids. rewrite list_elem_of_fmap. intros (i & -> & _). by exists i.
Qed.


End DownloadProgress.

(** ** The invariant of the conversion jobs *)

Section ConversionInvariant.

Import FFmpegService.

Lemma conversion_invariant_init : invariant sys_init.
Proof.
  split; simpl.
  - intros jobId j Hj. by rewrite lookup_empty in Hj.
  - intros jobId [k Hk]. by rewrite lookup_empty in Hk.
Qed.

Lemma job_ok_ext st st' run run' jobId j :
  job_ok st run jobId j →
  progressTracking st' !! jobId = progressTracking st !! jobId →
  run' = run →
  job_ok st' run' jobId j.
Proof. intros Hok Hpt ->. unfold job_ok. by rewrite Hpt. Qed.

Lemma start_jobs k outputDir now inputFile' format jobId st id :
  jobs (start k outputDir now inputFile' format jobId st) !! id
  = if decide (jobId = id)
    then Some {| status := processing; inputFile := Some inputFile';
                 outputFile := Some (path_join outputDir
                                       (jobId +:+ "." +:+ format));
                 startTime := Some now;
                 type := Some match k with
                              | video_conversion => "video_conversion"
                              | audio_extraction => "audio_extraction"
                              end;
                 error := None; endTime := None |}
    else jobs st !! id.
Proof. destruct k; simpl; by rewrite lookup_insert. Qed.

Lemma start_progress k outputDir now inputFile' format jobId st id :
  progressTracking (start k outputDir now inputFile' format jobId st) !! id
  = if decide (jobId = id)
    then Some {| percent := 0;
                 currentFps := match k with
                               | video_conversion => Some 0%Q
                               | audio_extraction => None
                               end;
                 currentKbps := Some 0%Q;
                 targetSize := match k with
                               | video_conversion => Some 0%Q
                               | audio_extraction => None
                               end;
                 timemark := Some "00:00:00.00" |}
    else progressTracking st !! id.
Proof. destruct k; simpl; by rewrite lookup_insert. Qed.

Lemma on_progress_jobs k jobId progress st :
  jobs (on_progress k jobId progress st) = jobs st.
Proof. by destruct k. Qed.

Lemma on_progress_percent k jobId progress st id :
  percent <$> progressTracking (on_progress k jobId progress st) !! id
  = if decide (jobId = id)
    then Some (Math_round (or_zero (Ffmpeg.percent progress)))
    else percent <$> progressTracking st !! id.
Proof.
  destruct k; simpl; rewrite lookup_insert; by destruct (decide (jobId = id)).
Qed.

(** What a sweep does to the two maps, whenever it runs to its end. *)
Lemma conversion_loop_jobs now maxAge l st fs st' fs' :
  for_of (cleanup_entry now maxAge) l (st, fs) = Ok (st', fs') →
  (∀ jobId, (jobs st' !! jobId = None ∧ progressTracking st' !! jobId = None) ∨
            (jobs st' !! jobId = jobs st !! jobId ∧
             progressTracking st' !! jobId = progressTracking st !! jobId)) ∧
  (∀ jobId, (∀ job, (jobId, job) ∈ l → ¬ due now maxAge job) →
            jobs st' !! jobId = jobs st !! jobId ∧
            progressTracking st' !! jobId = progressTracking st !! jobId).
Proof.
  revert st fs. induction l as [|[id0 job0] l IH]; intros st fs Hloop.
  - injection Hloop as <- <-. split; [by right|done].
  - rewrite for_of_cons in Hloop.
    destruct (cleanup_entry now maxAge (st, fs) (id0, job0))
      as [[st1 fs1]|] eqn:Hentry; [|done].
    destruct (IH _ _ Hloop) as [Hmono Hkept].
    assert (st1 = st ∨
            st1 = {| jobs := delete id0 (jobs st);
                     progressTracking := delete id0 (progressTracking st) |} ∧
            due now maxAge job0) as Hcases.
    { unfold cleanup_entry in Hentry.
      destruct (truthy_time (endTime job0)) as [t|] eqn:Ht;
        [|left; by injection Hentry as <- _].
      destruct (decide (now - t > maxAge)); [|left; by injection Hentry as <- _].
      right.
      destruct (if Fs.existsSync (outputFile job0) fs then _ else _)
        as [fs2|]; [|done].
      simpl in Hentry.
      destruct (match inputFile job0 with Some _ => _ | None => _ end);
        [|done].
      simpl in Hentry. injection Hentry as <- _. split; [done|].
      exists t. by rewrite Ht. }
    destruct Hcases as [->|[-> Hdue]].
    + split; [done|]. intros jobId Hall. apply Hkept.
      intros job Hel. apply Hall. by right.
    + split.
      * intros jobId. destruct (Hmono jobId) as [?|[Hj Hp]]; [by left|].
        rewrite Hj, Hp. simpl. destruct (decide (jobId = id0)) as [->|].
        -- left. by rewrite !lookup_delete_eq.
        -- right. by rewrite !lookup_delete_ne.
      * intros jobId Hall.
        assert (jobId ≠ id0) as Hne.
        { intros ->. by apply (Hall job0); [left|]. }
        destruct (Hkept jobId) as [Hj Hp].
        { intros job Hel. apply Hall. by right. }
        rewrite Hj, Hp. simpl. by rewrite !lookup_delete_ne.
Qed.

(** Every step of the conversion service keeps the invariant. *)
Lemma conversion_step_invariant s s' : invariant s → step s s' → invariant s'.
Proof.
  intros [Hjobs Hrun] Hstep.
  destruct Hstep as [k outputDir now inputFile' format jobId s Hfresh Hidle
                    |k jobId progress s Hk
                    |jobId now s Hk
                    |jobId message now s Hk
                    |now maxAge fs st' fs' s Hsweep].
  - split; cbn [store running].
    + intros id j. rewrite start_jobs.
      destruct (decide (jobId = id)) as [<-|Hne].
      * intros [= <-]. unfold job_ok. rewrite start_progress, lookup_insert_eq.
        simpl. destruct (decide (jobId = jobId)); [|done].
        split; [by left|]. split; [by split|]. split; [by eexists|].
        split; [by eexists|]. split; [by split; [intros [? [=]]|]|].
        split; [by split; [intros [? [=]]|]|]. by eexists.
      * intros Hj. eapply job_ok_ext; [by apply Hjobs| |].
        -- rewrite start_progress. by destruct (decide (jobId = id)).
        -- by rewrite lookup_insert_ne.
    + intros id. rewrite start_jobs. destruct (decide (jobId = id)) as [<-|Hne].
      * by eexists.
      * rewrite lookup_insert_ne by done. apply Hrun.
  - split; cbn [store running].
    + intros id j. rewrite on_progress_jobs. intros Hj.
      destruct (Hjobs id j Hj) as (Hs & Hiff & Hin & Hout & He & Hend & Hpr).
      split; [done|]. split; [done|]. split; [done|]. split; [done|].
      split; [done|]. split; [done|].
      destruct Hpr as (pr & Hlook & H100).
      pose proof (on_progress_percent k jobId progress (store s) id) as Hpct.
      destruct (decide (jobId = id)) as [<-|Hne].
      * destruct (progressTracking (on_progress k jobId progress (store s))
                    !! jobId) as [pr'|]; [|done].
        exists pr'. split; [done|]. intros Hc.
        assert (status j = processing) by (apply Hiff; by eexists).
        congruence.
      * rewrite Hlook in Hpct.
        destruct (progressTracking (on_progress k jobId progress (store s))
                    !! id) as [pr'|]; [|done].
        exists pr'. split; [done|]. intros Hc. injection Hpct as ->. auto.
    + intros id. rewrite on_progress_jobs. apply Hrun.
  - destruct (Hrun jobId Hk) as [cur Hcur].
    destruct (Hjobs jobId cur Hcur) as (_ & Hiff & Hin & Hout & He & _ & _).
    assert (status cur = processing) as Hp by by apply Hiff.
    split; cbn [store running on_end jobs progressTracking].
    + intros id j. destruct (decide (id = jobId)) as [->|Hne].
      * rewrite lookup_insert_eq, Hcur. intros [= <-].
        unfold job_ok. cbn [on_end progressTracking].
        rewrite lookup_insert_eq, lookup_delete_eq. simpl.
        split; [by right; left|]. split; [by split; [intros [? [=]]|]|].
        split; [done|]. split; [done|]. split.
        { split; [|done]. intros Herr. apply He in Herr. congruence. }
        split; [by split|]. eexists. split; [done|].
        by destruct (progressTracking (store s) !! jobId).
      * rewrite lookup_insert_ne by done. intros Hj.
        eapply job_ok_ext; [by apply Hjobs| |].
        -- simpl. by rewrite lookup_insert_ne.
        -- by rewrite lookup_delete_ne.
    + intros id Hid. destruct (decide (id = jobId)) as [->|Hne].
      * by rewrite lookup_delete_eq in Hid; destruct Hid.
      * rewrite lookup_delete_ne in Hid by done.
        rewrite lookup_insert_ne by done. by apply Hrun.
  - destruct (Hrun jobId Hk) as [cur Hcur].
    destruct (Hjobs jobId cur Hcur) as (_ & Hiff & Hin & Hout & He & _ & Hpr).
    assert (status cur = processing) as Hp by by apply Hiff.
    split; cbn [store running on_error jobs progressTracking].
    + intros id j. destruct (decide (id = jobId)) as [->|Hne].
      * rewrite lookup_insert_eq, Hcur. intros [= <-].
        unfold job_ok. cbn [on_error progressTracking].
        rewrite lookup_delete_eq. simpl.
        split; [by right; right|]. split; [by split; [intros [? [=]]|]|].
        split; [done|]. split; [done|]. split; [by split|].
        split; [by split|].
        destruct Hpr as (pr & Hlook & _). by exists pr.
      * rewrite lookup_insert_ne by done. intros Hj.
        eapply job_ok_ext; [by apply Hjobs|done|].
        by rewrite lookup_delete_ne.
    + intros id Hid. destruct (decide (id = jobId)) as [->|Hne].
      * by rewrite lookup_delete_eq in Hid; destruct Hid.
      * rewrite lookup_delete_ne in Hid by done.
        rewrite lookup_insert_ne by done. by apply Hrun.
  - unfold cleanup in Hsweep.
    destruct (conversion_loop_jobs _ _ _ _ _ _ _ Hsweep) as [Hmono Hkept].
    split; cbn [store running].
    + intros id j Hj. destruct (Hmono id) as [[Hnone _]|[Hsame Hpt]];
        [congruence|].
      rewrite Hsame in Hj. eapply job_ok_ext; [by apply Hjobs|done|done].
    + intros id Hid. destruct (Hrun id Hid) as [cur Hcur].
      destruct (Hkept id) as [Hsame _]; [|by rewrite Hsame, Hcur].
      intros job Hel (t & Ht & _). apply elem_of_map_to_list in Hel.
      rewrite Hcur in Hel. injection Hel as <-.
      destruct (Hjobs id cur Hcur) as (_ & Hiff & _ & _ & _ & Hend & _).
      assert (is_Some (endTime cur)) as Hsome.
      { destruct (endTime cur); [by eexists|done]. }
      apply Hend in Hsome. apply Hsome. by apply Hiff.
Qed.

Lemma conversion_reachable_invariant s : reachable s → invariant s.
Proof.
  unfold reachable. revert s. apply rtc_ind_r.
  - apply conversion_invariant_init.
  - intros s s' _ Hstep IH. by eapply conversion_step_invariant.
Qed.

End ConversionInvariant.

(** ** Recorded progress *)

Section ProgressClaim.


Lemma posted_reachable : Download.reachable Examples.posted.
Proof.
  exists 0. eapply rtc_l; [|apply rtc_refl].
  apply (Download.step_post "job-1" 1000 "https://youtu.be/abc" "mp4" "720p"
           (Download.sys_init 0)).
  - reflexivity.
  - simpl. lia.
Defined.



Example round_99_6 : Math_round (996 # 10) = 100.
Proof. reflexivity. Qed.

Example regressing_writes :
  Spec.percent_writes "job-9" [Examples.reported 50; Examples.reported 30]
    Examples.started = [50; 30].
Proof. reflexivity. Qed.


End ProgressClaim.

(** ** Presence of the output and of the error *)

Section OutputClaim.

(** No step changes the input or the output path of a job that is there
    before and after it. *)
Lemma conversion_step_paths s s' jobId j j' :
  FFmpegService.step s s' →
  FFmpegService.jobs (FFmpegService.store s) !! jobId = Some j →
  FFmpegService.jobs (FFmpegService.store s') !! jobId = Some j' →
  FFmpegService.outputFile j' = FFmpegService.outputFile j ∧
  FFmpegService.inputFile j' = FFmpegService.inputFile j.
Proof.
  intros Hstep Hj Hj'.
  destruct Hstep as [k outputDir now inputFile' format id s Hfresh Hidle
                    |k id progress s Hk
                    |id now s Hk
                    |id message now s Hk
                    |now maxAge fs st' fs' s Hsweep];
    cbn [FFmpegService.store] in Hj'.
  - rewrite start_jobs in Hj'. destruct (decide (id = jobId)) as [->|];
      [congruence|]. rewrite Hj in Hj'. by injection Hj' as <-.
  - rewrite on_progress_jobs, Hj in Hj'. by injection Hj' as <-.
  - cbn [FFmpegService.on_end FFmpegService.jobs] in Hj'.
    destruct (decide (id = jobId)) as [->|Hne].
    + rewrite lookup_insert_eq, Hj in Hj'. by injection Hj' as <-.
    + rewrite lookup_insert_ne, Hj in Hj' by done. by injection Hj' as <-.
  - cbn [FFmpegService.on_error FFmpegService.jobs] in Hj'.
    destruct (decide (id = jobId)) as [->|Hne].
    + rewrite lookup_insert_eq, Hj in Hj'. by injection Hj' as <-.
    + rewrite lookup_insert_ne, Hj in Hj' by done. by injection Hj' as <-.
  - unfold FFmpegService.cleanup in Hsweep.
    destruct (conversion_loop_jobs _ _ _ _ _ _ _ Hsweep) as [Hmono _].
    destruct (Hmono jobId) as [[Hnone _]|[Hsame _]]; [congruence|].
    rewrite Hsame, Hj in Hj'. by injection Hj' as <-.
Qed.

(** Only a call of [convertVideo] or [extractAudio] adds a job. *)
Lemma conversion_step_new s s' jobId j' :
  FFmpegService.invariant s → FFmpegService.step s s' →
  FFmpegService.jobs (FFmpegService.store s) !! jobId = None →
  FFmpegService.jobs (FFmpegService.store s') !! jobId = Some j' →
  ∃ outputDir format,
    FFmpegService.status j' = processing ∧
    FFmpegService.outputFile j'
    = Some (path_join outputDir (jobId +:+ "." +:+ format)).
Proof.
  intros [_ Hrun] Hstep Hj Hj'.
  destruct Hstep as [k outputDir now inputFile' format id s Hfresh Hidle
                    |k id progress s Hk
                    |id now s Hk
                    |id message now s Hk
                    |now maxAge fs st' fs' s Hsweep];
    cbn [FFmpegService.store] in Hj'.
  - rewrite start_jobs in Hj'. destruct (decide (id = jobId)) as [->|];
      [|congruence]. injection Hj' as <-. by exists outputDir, format.
  - rewrite on_progress_jobs in Hj'. congruence.
  - cbn [FFmpegService.on_end FFmpegService.jobs] in Hj'.
    destruct (decide (id = jobId)) as [->|Hne].
    + destruct (Hrun jobId Hk) as [j Hsome]. congruence.
    + rewrite lookup_insert_ne in Hj' by done. congruence.
  - cbn [FFmpegService.on_error FFmpegService.jobs] in Hj'.
    destruct (decide (id = jobId)) as [->|Hne].
    + destruct (Hrun jobId Hk) as [j Hsome]. congruence.
    + rewrite lookup_insert_ne in Hj' by done. congruence.
  - unfold FFmpegService.cleanup in Hsweep.
    destruct (conversion_loop_jobs _ _ _ _ _ _ _ Hsweep) as [Hmono _].
    destruct (Hmono jobId) as [[Hnone _]|[Hsame _]]; congruence.
Qed.

(** The output path of every job is a target path of its own id. *)
Lemma conversion_output_target s :
  FFmpegService.reachable s →
  ∀ jobId j,
    FFmpegService.jobs (FFmpegService.store s) !! jobId = Some j →
    ∃ outputDir format,
      FFmpegService.outputFile j
      = Some (path_join outputDir (jobId +:+ "." +:+ format)).
Proof.
  unfold FFmpegService.reachable. revert s.
  apply (rtc_ind_r
           (λ s, ∀ jobId j,
              FFmpegService.jobs (FFmpegService.store s) !! jobId = Some j →
              ∃ outputDir format,
                FFmpegService.outputFile j
                = Some (path_join outputDir (jobId +:+ "." +:+ format)))).
  - intros jobId j Hj. simpl in Hj. by rewrite lookup_empty in Hj.
  - intros s s' Hreach Hstep IH jobId j' Hj'.
    destruct (FFmpegService.jobs (FFmpegService.store s) !! jobId) as [j|]
      eqn:Hj.
    + destruct (conversion_step_paths s s' jobId j j' Hstep Hj Hj') as [-> _].
      by apply (IH jobId).
    + destruct (conversion_step_new s s' jobId j'
                  (conversion_reachable_invariant s Hreach) Hstep Hj Hj')
        as (outputDir & format & _ & Hout).
      by exists outputDir, format.
Qed.

Lemma fetched_reachable : Download.reachable Samples.fetched.
Proof.
  destruct posted_reachable as [t0 Hposted]. exists t0.
  eapply rtc_r; [exact Hposted|].
  apply (Download.step_settle "job-1" "/srv/downloads" YtDlp.Resolved 6000
           Samples.fetched_files Examples.posted).
  - simpl. set_solver.
  - simpl. lia.
Defined.

(** C3, as the code has it: a download job has an output file and a file
    size exactly when it is ['completed'] and an error exactly when it is
    ['failed']; its progress response carries a download url, and its file
    route sends a file, only when it is ['completed']. A conversion job has
    an error exactly when it is ['failed']. Its output path is there in
    every status: the call that creates the job records the target path
    [outputDir/jobId.format] with the status ['processing'], no later step
    changes the path of a job, whatever its status becomes, and
    [getOutputFile] returns it. *)
Theorem output_and_error_presence :
  (∀ s jobId j,
     Download.reachable s →
     Download.downloadJobs s !! jobId = Some j →
     (is_Some (Download.outputFile j) ↔ Download.status j = completed) ∧
     (is_Some (Download.fileSize j) ↔ Download.status j = completed) ∧
     (is_Some (Download.error j) ↔ Download.status j = failed) ∧
     (field "downloadUrl"
        (body (Download.get_progress jobId (Download.downloadJobs s)))
      ≠ JUndefined → Download.status j = completed) ∧
     (∀ fs path filename,
        Download.get_file jobId (Download.downloadJobs s) fs
        = SendFile path filename →
        Download.status j = completed)) ∧
  (∀ s jobId j,
     FFmpegService.reachable s →
     FFmpegService.jobs (FFmpegService.store s) !! jobId = Some j →
     (is_Some (FFmpegService.error j) ↔ FFmpegService.status j = failed) ∧
     (∃ outputDir format,
        FFmpegService.outputFile j
        = Some (path_join outputDir (jobId +:+ "." +:+ format))) ∧
     FFmpegService.getOutputFile jobId (FFmpegService.store s)
     = FFmpegService.outputFile j) ∧
  (∀ k outputDir now inputFile format jobId st,
     ∃ j,
       FFmpegService.jobs
         (FFmpegService.start k outputDir now inputFile format jobId st)
         !! jobId = Some j ∧
       FFmpegService.status j = processing ∧
       FFmpegService.outputFile j
       = Some (path_join outputDir (jobId +:+ "." +:+ format))) ∧
  (∀ s s' jobId j j',
     FFmpegService.step s s' →
     FFmpegService.jobs (FFmpegService.store s) !! jobId = Some j →
     FFmpegService.jobs (FFmpegService.store s') !! jobId = Some j' →
     FFmpegService.outputFile j' = FFmpegService.outputFile j) ∧
  (∀ s s' jobId j',
     FFmpegService.reachable s → FFmpegService.step s s' →
     FFmpegService.jobs (FFmpegService.store s) !! jobId = None →
     FFmpegService.jobs (FFmpegService.store s') !! jobId = Some j' →
     ∃ outputDir format,
       FFmpegService.status j' = processing ∧
       FFmpegService.outputFile j'
       = Some (path_join outputDir (jobId +:+ "." +:+ format))).
Proof.
  split; [|split; [|split; [|split]]].
  - intros s jobId j Hreach Hj.
    destruct (reachable_invariant s Hreach) as [Hjobs _].
    destruct (Hjobs jobId j Hj) as (_ & _ & _ & Hout & Hsz & Herr & _).
    split; [done|]. split; [done|]. split; [done|]. split.
    + unfold Download.get_progress. rewrite Hj. simpl.
      destruct (decide (Download.status j = completed)); [done|].
      intros Hfield. by destruct Hfield.
    + intros fs path filename. unfold Download.get_file. rewrite Hj.
      by destruct (decide (Download.status j = completed)).
  - intros s jobId j Hreach Hj.
    destruct (conversion_reachable_invariant s Hreach) as [Hjobs _].
    destruct (Hjobs jobId j Hj) as (_ & _ & _ & _ & Herr & _).
    split; [done|]. split; [by apply (conversion_output_target s Hreach)|].
    unfold FFmpegService.getOutputFile. by rewrite Hj.
  - intros k outputDir now inputFile format jobId st. rewrite start_jobs.
    destruct (decide (jobId = jobId)); [|done]. by eexists.
  - intros s s' jobId j j' Hstep Hj Hj'.
    by destruct (conversion_step_paths s s' jobId j j' Hstep Hj Hj').
  - intros s s' jobId j' Hreach Hstep Hj Hj'.
    by apply (conversion_step_new s s' jobId j'
                (conversion_reachable_invariant s Hreach) Hstep Hj Hj').
Qed.

Lemma output_and_error_presence_witness :
  Download.reachable Samples.fetched ∧
  (∃ j, Download.downloadJobs Samples.fetched !! "job-1" = Some j ∧
        Download.status j = completed ∧
        Download.outputFile j = Some "/srv/downloads/job-1-1000.mp4" ∧
        Download.error j = None) ∧
  FFmpegService.step Samples.converting Samples.converted ∧
  (∃ j j',
     FFmpegService.jobs (FFmpegService.store Samples.converting) !! "job-9"
     = Some j ∧
     FFmpegService.jobs (FFmpegService.store Samples.converted) !! "job-9"
     = Some j' ∧
     FFmpegService.status j = processing ∧
     FFmpegService.status j' = completed ∧
     FFmpegService.outputFile j = Some "/srv/output/job-9.mp4" ∧
     FFmpegService.outputFile j' = FFmpegService.outputFile j).
Proof.
  destruct output_and_error_presence as (Hdl & _ & _ & Hstable & _).
  assert (Hstep : FFmpegService.step Samples.converting Samples.converted).
  { apply (FFmpegService.step_end "job-9" 9000 Samples.converting).
    by eexists. }
  split; [exact fetched_reachable|]. split.
  - destruct (Download.downloadJobs Samples.fetched !! "job-1") as [j|] eqn:Hj;
      [|by vm_compute in Hj].
    destruct (Hdl Samples.fetched "job-1" j fetched_reachable Hj)
      as (Hout & _ & Herr & _).
    exists j. split; [done|].
    vm_compute in Hj. injection Hj as <-. by repeat split.
  - split; [exact Hstep|].
    destruct (FFmpegService.jobs (FFmpegService.store Samples.converting)
                !! "job-9") as [j|] eqn:Hj; [|by vm_compute in Hj].
    destruct (FFmpegService.jobs (FFmpegService.store Samples.converted)
                !! "job-9") as [j'|] eqn:Hj'; [|by vm_compute in Hj'].
    exists j, j'. split; [done|]. split; [done|].
    pose proof (Hstable Samples.converting Samples.converted "job-9" j j'
                  Hstep Hj Hj') as Hsame.
    vm_compute in Hj. injection Hj as <-.
    vm_compute in Hj'. injection Hj' as <-.
    by repeat split.
Defined.

(** C3 as stated fails for conversion jobs: a job that has just been started
    is ['processing'] and already has its output path, which
    [getOutputFile] returns. *)
Lemma output_presence_counterexample :
  ¬ Spec.output_iff_completed "job-9" Examples.started ∧
  FFmpegService.status <$> FFmpegService.jobs Examples.started !! "job-9"
  = Some processing ∧
  FFmpegService.getOutputFile "job-9" Examples.started
  = Some "/srv/output/job-9.mp4".
Proof.
  split; [|split; reflexivity].
  intros Hiff. unfold Spec.output_iff_completed in Hiff.
  assert (∃ job, FFmpegService.jobs Examples.started !! "job-9" = Some job ∧
                 FFmpegService.status job = processing ∧
                 is_Some (FFmpegService.outputFile job))
    as (job & Hjob & Hp & Hout)
    by (eexists; split; [vm_compute; reflexivity|]; split; [done|by eexists]).
  apply (Hiff job Hjob) in Hout. congruence.
Qed.

End OutputClaim.

(** ** The answer to a creating request *)

Section CreationClaim.




End CreationClaim.

(** * Further properties of the code around the jobs *)

(** ** The rate limiter of the download routes *)

Section RateLimit.

Import Validation.

Lemma in_window_length now l : (length (in_window now l) ≤ length l)%nat.
Proof. apply List.filter_length_le. Qed.

Lemma in_window_app now l k :
  in_window now (l ++ k) = in_window now l ++ in_window now k.
Proof. apply List.filter_app. Qed.

(** Filtering at a later reading absorbs filtering at an earlier one. *)
Lemma in_window_later t now l :
  t ≤ now → in_window now (in_window t l) = in_window now l.
Proof.
  intros Hle. unfold in_window. induction l as [|ts l IH]; [done|]. simpl.
  destruct (decide (t - ts < windowMs)) as [Hin|Hout].
  - rewrite (bool_decide_eq_true_2 _ Hin). simpl. by rewrite IH.
  - rewrite (bool_decide_eq_false_2 _ Hout), IH.
    rewrite bool_decide_eq_false_2; [done|lia].
Qed.

(** The entry of the served client after a call, and the verdict. *)
Lemma validateRateLimit_served key now store :
  let kept := in_window now (stored key store) in
  let result := validateRateLimit key now store in
  (length kept < maxRequests)%nat ∧
    result.2 = Next ∧ stored key result.1 = kept ++ [now] ∨
  (maxRequests ≤ length kept)%nat ∧
    result.2 = Answer (too_many now kept) ∧ stored key result.1 = kept.
Proof.
  intros kept result. subst kept result.
  unfold validateRateLimit, stored.
  destruct (store !! key) as [d|] eqn:Hd; simpl.
  - destruct (decide (maxRequests ≤ length (in_window now (requests d)))%nat).
    + right. split; [done|]. split; [done|]. simpl. by rewrite lookup_insert_eq.
    + left. split; [lia|]. split; [done|]. simpl. by rewrite lookup_insert_eq.
  - destruct (decide (maxRequests ≤ length (in_window now []))%nat) as [Hm|].
    + simpl in Hm. unfold maxRequests in Hm. lia.
    + left. split; [lia|]. split; [done|]. simpl. by rewrite lookup_insert_eq.
Qed.

(** A call changes the entry of no other client. *)
Lemma validateRateLimit_other key key' now store :
  key' ≠ key → stored key' (validateRateLimit key now store).1 = stored key' store.
Proof.
  intros Hne. unfold validateRateLimit, stored.
  destruct (decide _); simpl.
  - destruct (store !! key); [|done]. by rewrite lookup_insert_ne.
  - by rewrite lookup_insert_ne.
Qed.

Lemma serve_cons key now rest store :
  serve ((key, now) :: rest) store
  = let result := validateRateLimit key now store in
    let served := serve rest result.1 in
    (served.1, match result.2 with
               | Next => (key, now) :: served.2
               | Answer _ => served.2
               end).
Proof.
  simpl. destruct (validateRateLimit key now store) as [store1 verdict].
  simpl. by destruct (serve rest store1).
Qed.

(** From a map that respects the bound of 10 timestamps for each client,
    every map the limiter reaches respects it. *)
Lemma serve_bounded calls store key :
  (∀ k, (length (stored k store) ≤ maxRequests)%nat) →
  (length (stored key (serve calls store).1) ≤ maxRequests)%nat.
Proof.
  revert store. induction calls as [|[k now] calls IH]; intros store Hb.
  - apply Hb.
  - rewrite serve_cons. cbn [fst]. apply IH. intros k'.
    destruct (decide (k' = k)) as [->|Hne].
    + destruct (validateRateLimit_served k now store)
        as [(Hlt & _ & ->)|(_ & _ & ->)].
      * rewrite length_app. simpl. lia.
      * etrans; [apply in_window_length|apply Hb].
    + rewrite validateRateLimit_other by done. apply Hb.
Qed.

(** X1: whatever the clock does, and whatever the order of the calls, the
    limiter of a fresh process never stores more than 10 timestamps for a
    client. *)
Theorem rate_limit_bounded calls key :
  (length (stored key (serve calls ∅).1) ≤ 10)%nat.
Proof.
  apply serve_bounded. intros k. unfold stored.
  rewrite lookup_empty. simpl. unfold maxRequests. lia.
Qed.

Lemma times_of_app key l k :
  times_of key (l ++ k) = times_of key l ++ times_of key k.
Proof. unfold times_of. by rewrite List.filter_app, fmap_app. Qed.

Lemma times_of_one key key' t :
  times_of key [(key', t)] = if decide (key' = key) then [t] else [].
Proof.
  unfold times_of. simpl. destruct (decide (key' = key)) as [Heq|Hne].
  - by rewrite (bool_decide_eq_true_2 _ Heq).
  - by rewrite (bool_decide_eq_false_2 _ Hne).
Qed.

Lemma remembers_later T T' hist store :
  remembers T hist store → T ≤ T' → remembers T' hist store.
Proof. intros Hr Hle key now Hnow. apply Hr. lia. Qed.

(** One call keeps the memory exact. *)
Lemma remembers_step T hist store key now :
  remembers T hist store → T ≤ now →
  let result := validateRateLimit key now store in
  remembers now
    (hist ++ match result.2 with Next => [(key, now)] | Answer _ => [] end)
    result.1.
Proof.
  intros Hr Hle result key' now' Hnow'. subst result.
  destruct (decide (key' = key)) as [->|Hne].
  - destruct (validateRateLimit_served key now store)
      as [(_ & -> & ->)|(_ & -> & ->)].
    + rewrite times_of_app, times_of_one, !in_window_app.
      destruct (decide (key = key)); [|done].
      by rewrite in_window_later, Hr by lia.
    + rewrite app_nil_r, in_window_later by done. apply Hr. lia.
  - rewrite validateRateLimit_other by done.
    rewrite times_of_app, in_window_app.
    assert (times_of key'
              match (validateRateLimit key now store).2 with
              | Next => [(key, now)]
              | Answer _ => []
              end = []) as ->.
    { destruct (validateRateLimit key now store).2; [|done].
      rewrite times_of_one. by destruct (decide (key = key')). }
    rewrite app_nil_r. apply Hr. lia.
Qed.

Lemma remembers_serve calls T hist store :
  remembers T hist store → ascending T calls →
  remembers (last_reading T calls) (hist ++ (serve calls store).2)
    (serve calls store).1.
Proof.
  revert T hist store. induction calls as [|[key now] calls IH];
    intros T hist store Hr Hasc.
  - simpl. by rewrite app_nil_r.
  - destruct Hasc as [Hle Hasc]. rewrite serve_cons. cbn [fst snd].
    pose proof (remembers_step T hist store key now Hr Hle) as Hstep.
    simpl in Hstep. specialize (IH now _ _ Hstep Hasc).
    cbn [last_reading].
    destruct (validateRateLimit key now store).2;
      [by rewrite <- app_assoc in IH|by rewrite app_nil_r in IH].
Qed.

(** X2: with clock readings that never go back, a request is let through
    exactly when fewer than 10 requests of the same client were let through
    in the 15 minutes before it; rejected requests are not counted. *)
Theorem rate_limit_window T calls key now :
  ascending T calls →
  last_reading T calls ≤ now →
  let served := serve calls ∅ in
  (validateRateLimit key now served.1).2 = Next
  ↔ (length (in_window now (times_of key served.2)) < 10)%nat.
Proof.
  intros Hasc Hnow served. subst served.
  assert (remembers T [] ∅) as Hr0.
  { intros k t _. unfold stored. by rewrite lookup_empty. }
  pose proof (remembers_serve calls T [] ∅ Hr0 Hasc) as Hr. simpl in Hr.
  rewrite <- (Hr key now Hnow).
  destruct (validateRateLimit_served key now (serve calls ∅).1)
    as [(Hlt & -> & _)|(Hge & -> & _)]; unfold maxRequests in *.
  - by split.
  - split; [done|lia].
Qed.

Lemma rate_limit_window_witness :
  ascending 0 burst ∧
  last_reading 0 burst ≤ 901005 ∧
  (validateRateLimit (Some "10.0.0.7") 901005 (serve burst ∅).1).2 = Next ∧
  (validateRateLimit (Some "10.0.0.7") 2000 (serve burst ∅).1).2 ≠ Next.
Proof.
  assert (Hasc : ascending 0 burst) by (vm_compute; repeat split; discriminate).
  assert (Hlast : last_reading 0 burst ≤ 901005) by (vm_compute; discriminate).
  assert (Hlast' : last_reading 0 burst ≤ 2000) by (vm_compute; discriminate).
  split; [exact Hasc|]. split; [exact Hlast|]. split.
  - apply (rate_limit_window 0 burst (Some "10.0.0.7") 901005 Hasc Hlast).
    vm_compute. lia.
  - intros Hnext.
    apply (rate_limit_window 0 burst (Some "10.0.0.7") 2000 Hasc Hlast') in Hnext.
    vm_compute in Hnext. lia.
Defined.

Lemma ceil_seconds_bound x : x ≤ 1000 * ceil_seconds x < x + 1000.
Proof.
  unfold ceil_seconds.
  pose proof (Z.mul_div_le (- x) 1000 ltac:(lia)).
  pose proof (Z.mul_succ_div_gt (- x) 1000 ltac:(lia)). lia.
Qed.

Lemma in_window_head now l oldest kept :
  in_window now l = oldest :: kept → now - oldest < windowMs.
Proof.
  intros Heq. assert (In oldest (in_window now l)) as Hin by (rewrite Heq; by left).
  apply List.filter_In in Hin as [_ Hin]. by apply bool_decide_eq_true in Hin.
Qed.

Lemma in_window_drop_head now' oldest kept :
  windowMs ≤ now' - oldest →
  (length (in_window now' (oldest :: kept)) ≤ length kept)%nat.
Proof.
  intros Hold. unfold in_window. simpl.
  rewrite bool_decide_eq_false_2 by lia. apply List.filter_length_le.
Qed.

Lemma in_window_comm t now l :
  in_window now (in_window t l) = in_window t (in_window now l).
Proof.
  unfold in_window. induction l as [|ts l IH]; [done|]. simpl.
  destruct (bool_decide (t - ts < windowMs)) eqn:Ht,
           (bool_decide (now - ts < windowMs)) eqn:Hn;
    simpl; rewrite ?Ht, ?Hn; by rewrite IH.
Qed.

(** Calls among which none of the client [key] is let through leave the
    client no more timestamps in any window than it had. *)
Lemma serve_quiet later store key now' :
  (∀ call, call ∈ (serve later store).2 → call.1 ≠ key) →
  (length (in_window now' (stored key (serve later store).1))
   ≤ length (in_window now' (stored key store)))%nat.
Proof.
  revert store. induction later as [|[k t] later IH]; intros store Hquiet.
  - done.
  - rewrite serve_cons in Hquiet |- *. cbn [fst snd] in Hquiet |- *.
    destruct (decide (k = key)) as [->|Hne].
    + destruct (validateRateLimit_served key t store)
        as [(_ & Hnext & _)|(_ & Hans & Hkept)].
      * rewrite Hnext in Hquiet. exfalso.
        by apply (Hquiet (key, t)); [left|].
      * rewrite Hans in Hquiet. etrans; [by apply IH|].
        rewrite Hkept, in_window_comm. apply in_window_length.
    + etrans.
      * apply IH. intros call Hcall. apply Hquiet.
        destruct (validateRateLimit k t store).2; [by right|done].
      * by rewrite validateRateLimit_other.
Qed.

(** X3: a rejection announces a wait of at least one second, and it is
    honoured as long as no request of the client itself is let through in
    between: whatever the requests of other clients, and however many
    further requests of the client are rejected, the client is let through
    at any clock reading that lies at least the announced number of
    seconds after the rejection. *)
Theorem rate_limit_retry calls key now :
  let store := (serve calls ∅).1 in
  (validateRateLimit key now store).2 ≠ Next →
  ∃ n,
    (validateRateLimit key now store).2
    = Answer
        {| code := 429;
           body := [("success", JBool false);
                    ("error", JString "Rate limit exceeded");
                    ("message",
                     JString ("Too many conversion requests. Try again in "
                              +:+ pretty n +:+ " seconds."))] |} ∧
    1 ≤ n ∧
    ∀ later now',
      (∀ call,
         call ∈ (serve later (validateRateLimit key now store).1).2 →
         call.1 ≠ key) →
      now + 1000 * n ≤ now' →
      (validateRateLimit key now'
         (serve later (validateRateLimit key now store).1).1).2 = Next.
Proof.
  intros store Hrej.
  assert (length (stored key store) ≤ maxRequests)%nat as Hbound.
  { apply serve_bounded. intros k. unfold stored.
    rewrite lookup_empty. simpl. lia. }
  destruct (validateRateLimit_served key now store)
    as [(_ & Hnext & _)|(Hge & Hans & Hkept)]; [done|].
  destruct (in_window now (stored key store)) as [|oldest kept] eqn:Hwin;
    [unfold maxRequests in Hge; simpl in Hge; lia|].
  pose proof (in_window_head _ _ _ _ Hwin) as Hold.
  pose proof (ceil_seconds_bound (windowMs - (now - oldest))) as Hceil.
  exists (ceil_seconds (windowMs - (now - oldest))).
  split; [exact Hans|]. split; [lia|]. intros later now' Hquiet Hlater.
  destruct (validateRateLimit_served key now'
              (serve later (validateRateLimit key now store).1).1)
    as [(_ & Hnext & _)|(Hge' & _ & _)]; [done|].
  pose proof (serve_quiet later (validateRateLimit key now store).1 key now'
                Hquiet) as Hle.
  rewrite Hkept in Hle.
  pose proof (in_window_drop_head now' oldest kept ltac:(lia)) as Hdrop.
  pose proof (in_window_length now (stored key store)) as Hlen.
  rewrite Hwin in Hlen. simpl in Hlen. unfold maxRequests in *. lia.
Qed.

Lemma rate_limit_retry_witness :
  (validateRateLimit (Some "10.0.0.7") 2000 (serve burst ∅).1).2 ≠ Next ∧
  (serve retries (validateRateLimit (Some "10.0.0.7") 2000 (serve burst ∅).1).1).2
  = [(Some "10.0.0.8", 2500)] ∧
  ∃ n, 1 ≤ n ∧
       ∀ now', 2000 + 1000 * n ≤ now' →
         (validateRateLimit (Some "10.0.0.7") now'
            (serve retries
               (validateRateLimit (Some "10.0.0.7") 2000
                  (serve burst ∅).1).1).1).2
         = Next.
Proof.
  assert (Hrej : (validateRateLimit (Some "10.0.0.7") 2000 (serve burst ∅).1).2
                 ≠ Next) by (vm_compute; discriminate).
  assert (Hadmitted :
    (serve retries
       (validateRateLimit (Some "10.0.0.7") 2000 (serve burst ∅).1).1).2
    = [(Some "10.0.0.8", 2500)]) by (vm_compute; reflexivity).
  split; [exact Hrej|]. split; [exact Hadmitted|].
  destruct (rate_limit_retry burst (Some "10.0.0.7") 2000 Hrej)
    as (n & _ & Hn & Hretry).
  exists n. split; [exact Hn|]. intros now' Hlater.
  apply Hretry; [|exact Hlater].
  intros call Hcall. rewrite Hadmitted in Hcall.
  apply list_elem_of_singleton in Hcall. by subst call.
Defined.

End RateLimit.

(** ** Terminal jobs *)

Section TerminalJobs.

(** A sweep that runs to its end removes from the map only jobs that are
    due. *)
Lemma download_sweep_removes_due now (dj dj' : gmap string Download.Job) fs fs'
    jobId j :
  Download.cleanup now dj fs = Ok (dj', fs') →
  dj !! jobId = Some j →
  dj' !! jobId = Some j ∨ dj' !! jobId = None ∧ Download.due now j.
Proof.
  intros Hsweep Hj. unfold Download.cleanup in Hsweep.
  destruct (cleanup_loop_jobs _ _ _ _ _ _ Hsweep) as [Hmono Hkept].
  destruct (Download.download_due_dec now j) as [Hdue|Hnot].
  - destruct (Hmono jobId) as [Hnone|Hsame]; [by right|left; congruence].
  - left. rewrite Hkept; [done|]. intros job Hel.
    apply elem_of_map_to_list in Hel. congruence.
Qed.

Lemma conversion_sweep_removes_due now maxAge st st' fs fs' jobId j :
  FFmpegService.cleanup now maxAge st fs = Ok (st', fs') →
  FFmpegService.jobs st !! jobId = Some j →
  FFmpegService.jobs st' !! jobId = Some j ∧
    FFmpegService.progressTracking st' !! jobId
    = FFmpegService.progressTracking st !! jobId ∨
  FFmpegService.jobs st' !! jobId = None ∧
    FFmpegService.progressTracking st' !! jobId = None ∧
    FFmpegService.due now maxAge j.
Proof.
  intros Hsweep Hj. unfold FFmpegService.cleanup in Hsweep.
  destruct (conversion_loop_jobs _ _ _ _ _ _ _ Hsweep) as [Hmono Hkept].
  destruct (FFmpegService.due_dec now maxAge j) as [Hdue|Hnot].
  - destruct (Hmono jobId) as [[Hnone Hp]|[Hsame Hp]];
      [by right|left; split; congruence].
  - left. destruct (Hkept jobId) as [Hsame Hp]; [|split; congruence].
    intros job Hel. apply elem_of_map_to_list in Hel. congruence.
Qed.

(** X4: a download job that is ['completed'] or ['failed'] is final: no
    request, timer tick or end of a task changes its entry any more; the
    only step that touches it is the sweep that removes it once it is due. *)
Theorem download_terminal_final s s' jobId j :
  Download.reachable s → Download.step s s' →
  Download.downloadJobs s !! jobId = Some j →
  terminal (Download.status j) = true →
  Download.downloadJobs s' !! jobId = Some j ∨
  Download.downloadJobs s' !! jobId = None ∧ Download.due (Download.clock s') j.
Proof.
  intros Hreach Hstep Hj Hterm.
  destruct (reachable_invariant s Hreach) as [Hjobs Hpend].
  assert (Download.status j ≠ downloading) as Hnd
    by (intros Hd; by rewrite Hd in Hterm).
  destruct Hstep as [id now url format quality s Hfresh Hc
                    |uuid now now' urls format quality s Hfresh Hc
                    |id now s Htimer Hc
                    |id outputDir r now fs s Hin Hc
                    |now fs dj' fs' s Hc Hsweep];
    cbn [Download.downloadJobs Download.clock].
  - left. rewrite post_download_store, lookup_insert_ne; [done|congruence].
  - left. rewrite post_batch_other; [done|].
    intros (i & ->)%batch_created_uuid. by rewrite Hfresh in Hj.
  - left. unfold Download.progressTimer.
    destruct (decide (id = jobId)) as [->|Hne].
    + rewrite Hj. by destruct (decide (Download.status j = downloading)).
    + destruct (Download.downloadJobs s !! id) as [cur|]; [|done].
      destruct (decide (Download.status cur = downloading)); [|done].
      by rewrite lookup_insert_ne.
  - left. assert (id ≠ jobId) as Hne.
    { intros ->. destruct (Hjobs jobId j Hj) as (_ & Hiff & _).
      by apply Hnd, Hiff. }
    destruct (downloadVideo_settle_cases id outputDir r now fs
                (Download.downloadJobs s)) as [(f & sz & _ & ->)|(m & _ & ->)];
      by rewrite lookup_insert_ne.
  - by eapply download_sweep_removes_due.
Qed.

(** X5: a conversion job that is ['completed'] or ['failed'] is final: no
    call, and no event of any command, changes its entry or its progress
    entry any more; the only step that touches them is the sweep that
    removes both once the job is due. *)
Theorem conversion_terminal_final s s' jobId j :
  FFmpegService.reachable s → FFmpegService.step s s' →
  FFmpegService.jobs (FFmpegService.store s) !! jobId = Some j →
  terminal (FFmpegService.status j) = true →
  (FFmpegService.jobs (FFmpegService.store s') !! jobId = Some j ∧
   FFmpegService.progressTracking (FFmpegService.store s') !! jobId
   = FFmpegService.progressTracking (FFmpegService.store s) !! jobId) ∨
  (FFmpegService.jobs (FFmpegService.store s') !! jobId = None ∧
   FFmpegService.progressTracking (FFmpegService.store s') !! jobId = None).
Proof.
  intros Hreach Hstep Hj Hterm.
  destruct (conversion_reachable_invariant s Hreach) as [Hjobs Hrun].
  assert (FFmpegService.running s !! jobId = None) as Hidle.
  { destruct (Hjobs jobId j Hj) as (_ & Hiff & _).
    destruct (FFmpegService.running s !! jobId) as [k|] eqn:Hk; [|done].
    assert (FFmpegService.status j = processing) as Hp
      by (apply Hiff; by eexists).
    by rewrite Hp in Hterm. }
  destruct Hstep as [k outputDir now inputFile' format id s Hfresh Hidle'
                    |k id progress s Hk
                    |id now s Hk
                    |id message now s Hk
                    |now maxAge fs st' fs' s Hsweep];
    cbn [FFmpegService.store].
  - left. rewrite start_jobs, start_progress.
    destruct (decide (id = jobId)) as [->|]; [congruence|done].
  - left. rewrite on_progress_jobs. split; [done|].
    assert (id ≠ jobId) as Hne by (intros ->; congruence).
    destruct k; simpl; by rewrite lookup_insert_ne.
  - left. assert (id ≠ jobId) as Hne
      by (intros ->; rewrite Hidle in Hk; by destruct Hk).
    simpl. by rewrite !lookup_insert_ne.
  - left. assert (id ≠ jobId) as Hne
      by (intros ->; rewrite Hidle in Hk; by destruct Hk).
    simpl. by rewrite lookup_insert_ne.
  - destruct (conversion_sweep_removes_due _ _ _ _ _ _ _ _ Hsweep Hj)
      as [?|(? & ? & _)]; [by left|by right].
Qed.

Lemma settled_reachable : Download.reachable Samples.settled.
Proof.
  destruct posted_reachable as [t0 Hposted]. exists t0.
  eapply rtc_r; [exact Hposted|].
  apply (Download.step_settle "job-1" "/srv/downloads"
           (YtDlp.Rejected "network unreachable") 5000 [] Examples.posted).
  - simpl. set_solver.
  - simpl. lia.
Defined.

Lemma settled_ticks : Download.step Samples.settled Samples.ticked_late.
Proof.
  apply (Download.step_tick "job-1" 9000 Samples.settled).
  - simpl. set_solver.
  - simpl. lia.
Defined.

Lemma download_terminal_final_witness :
  Download.reachable Samples.settled ∧
  Download.step Samples.settled Samples.ticked_late ∧
  ∃ j, Download.downloadJobs Samples.settled !! "job-1" = Some j ∧
       terminal (Download.status j) = true ∧
       Download.downloadJobs Samples.ticked_late !! "job-1" = Some j.
Proof.
  split; [exact settled_reachable|]. split; [exact settled_ticks|].
  destruct (Download.downloadJobs Samples.settled !! "job-1") as [j|] eqn:Hj;
    [|vm_compute in Hj; discriminate Hj].
  assert (terminal (Download.status j) = true) as Hterm
    by (vm_compute in Hj; injection Hj as <-; reflexivity).
  exists j. split; [reflexivity|]. split; [exact Hterm|].
  destruct (download_terminal_final _ _ "job-1" j settled_reachable
              settled_ticks Hj Hterm) as [Hsame|[Hgone _]]; [exact Hsame|].
  vm_compute in Hgone. discriminate Hgone.
Defined.

Lemma converted_reachable : FFmpegService.reachable Samples.converted.
Proof.
  unfold FFmpegService.reachable.
  eapply rtc_l; [|eapply rtc_l; [|apply rtc_refl]].
  - apply (FFmpegService.step_start FFmpegService.video_conversion
             "/srv/output" 1000 "/srv/uploads/a.avi" "mp4" "job-9"
             FFmpegService.sys_init); reflexivity.
  - apply (FFmpegService.step_end "job-9" 9000 Samples.converting).
    by eexists.
Defined.

Lemma converted_continues :
  FFmpegService.step Samples.converted Samples.converting_next.
Proof.
  apply (FFmpegService.step_start FFmpegService.audio_extraction
           "/srv/output" 9500 "/srv/uploads/b.avi" "mp3" "job-10"
           Samples.converted); reflexivity.
Defined.

Lemma conversion_terminal_final_witness :
  FFmpegService.reachable Samples.converted ∧
  FFmpegService.step Samples.converted Samples.converting_next ∧
  ∃ j, FFmpegService.jobs (FFmpegService.store Samples.converted) !! "job-9"
       = Some j ∧
       terminal (FFmpegService.status j) = true ∧
       FFmpegService.jobs (FFmpegService.store Samples.converting_next)
         !! "job-9" = Some j.
Proof.
  split; [exact converted_reachable|]. split; [exact converted_continues|].
  destruct (FFmpegService.jobs (FFmpegService.store Samples.converted)
              !! "job-9") as [j|] eqn:Hj;
    [|vm_compute in Hj; discriminate Hj].
  assert (terminal (FFmpegService.status j) = true) as Hterm
    by (vm_compute in Hj; injection Hj as <-; reflexivity).
  exists j. split; [reflexivity|]. split; [exact Hterm|].
  destruct (conversion_terminal_final _ _ "job-9" j converted_reachable
              converted_continues Hj Hterm) as [[Hsame _]|[Hgone _]];
    [exact Hsame|].
  vm_compute in Hgone. discriminate Hgone.
Defined.

End TerminalJobs.

(** ** The two maps of the conversion service *)

Section TrackerEntries.

Import FFmpegService.

Lemma tracked_step s s' :
  invariant s →
  (∀ jobId, is_Some (progressTracking (store s) !! jobId) →
            is_Some (jobs (store s) !! jobId)) →
  step s s' →
  ∀ jobId, is_Some (progressTracking (store s') !! jobId) →
           is_Some (jobs (store s') !! jobId).
Proof.
  intros [Hjobs Hrun] Htracked Hstep jobId.
  destruct Hstep as [k outputDir now inputFile' format id s Hfresh Hidle
                    |k id progress s Hk
                    |id now s Hk
                    |id message now s Hk
                    |now maxAge fs st' fs' s Hsweep]; cbn [store].
  - rewrite start_jobs, start_progress.
    destruct (decide (id = jobId)); [by eexists|apply Htracked].
  - rewrite on_progress_jobs. destruct (decide (id = jobId)) as [->|Hne].
    + intros _. apply Hrun. by eexists.
    + destruct k; simpl; rewrite lookup_insert_ne by done; apply Htracked.
  - simpl. destruct (decide (id = jobId)) as [->|Hne].
    + by rewrite !lookup_insert_eq.
    + rewrite !lookup_insert_ne by done. apply Htracked.
  - simpl. destruct (decide (id = jobId)) as [->|Hne].
    + by rewrite lookup_insert_eq.
    + rewrite lookup_insert_ne by done. apply Htracked.
  - unfold cleanup in Hsweep.
    destruct (conversion_loop_jobs _ _ _ _ _ _ _ Hsweep) as [Hmono _].
    destruct (Hmono jobId) as [[_ ->]|[-> ->]]; [by intros [? [=]]|].
    apply Htracked.
Qed.

(** X6: the two maps of the service always have the same keys: every job
    has a progress entry and no progress entry outlives or precedes its
    job. *)
Theorem jobs_and_progress_agree s jobId :
  reachable s →
  is_Some (jobs (store s) !! jobId)
  ↔ is_Some (progressTracking (store s) !! jobId).
Proof.
  intros Hreach. split.
  - intros [j Hj].
    destruct (conversion_reachable_invariant s Hreach) as [Hjobs _].
    destruct (Hjobs jobId j Hj) as (_ & _ & _ & _ & _ & _ & pr & Hpr & _).
    by eexists.
  - revert jobId. revert s Hreach. unfold reachable.
    apply (rtc_ind_r
             (λ s, ∀ jobId, is_Some (progressTracking (store s) !! jobId) →
                            is_Some (jobs (store s) !! jobId))).
    + intros jobId [pr Hpr]. simpl in Hpr. by rewrite lookup_empty in Hpr.
    + intros s s' Hrtc Hstep IH. eapply tracked_step; [|exact IH|exact Hstep].
      by apply conversion_reachable_invariant.
Qed.

Lemma jobs_and_progress_agree_witness :
  reachable Samples.converting_next ∧
  (is_Some (jobs (store Samples.converting_next) !! "job-10")
   ↔ is_Some (progressTracking (store Samples.converting_next) !! "job-10")).
Proof.
  assert (Hreach : reachable Samples.converting_next).
  { eapply rtc_r; [exact converted_reachable | exact converted_continues]. }
  split; [exact Hreach|].
  exact (jobs_and_progress_agree Samples.converting_next "job-10" Hreach).
Defined.

End TrackerEntries.

(** ** Sweeps, once more *)

Section SweepTwice.

(** What the body of the conversion sweep returns for one entry. *)
Lemma conversion_entry_Ok now maxAge st fs jobId job st1 fs1 :
  FFmpegService.cleanup_entry now maxAge (st, fs) (jobId, job) = Ok (st1, fs1) →
  ¬ FFmpegService.due now maxAge job ∧ st1 = st ∧ fs1 = fs ∨
  FFmpegService.due now maxAge job ∧
  st1 = {| FFmpegService.jobs := delete jobId (FFmpegService.jobs st);
           FFmpegService.progressTracking :=
             delete jobId (FFmpegService.progressTracking st) |}.
Proof.
  destruct (FFmpegService.due_dec now maxAge job) as [Hdue|Hkeep].
  - intros Hentry. right. split; [done|].
    destruct Hdue as (t & Ht & Hold). unfold FFmpegService.cleanup_entry in Hentry.
    rewrite Ht in Hentry. destruct (decide (now - t > maxAge)); [|done].
    destruct (if Fs.existsSync (FFmpegService.outputFile job) fs
              then _ else _) as [fs2|]; [|done].
    simpl in Hentry.
    destruct (match FFmpegService.inputFile job with
              | Some _ => _ | None => _ end); [|done].
    simpl in Hentry. by injection Hentry as <- _.
  - rewrite cleanup_entry_keeps by done. intros [= <- <-]. by left.
Qed.

Lemma download_entry_Ok now (dj : gmap string Download.Job) fs jobId job dj1 fs1 :
  Download.cleanup_entry now (dj, fs) (jobId, job) = Ok (dj1, fs1) →
  ¬ Download.due now job ∧ dj1 = dj ∧ fs1 = fs ∨
  Download.due now job ∧ dj1 = delete jobId dj.
Proof.
  destruct (Download.download_due_dec now job) as [Hdue|Hkeep].
  - intros Hentry. right. split; [done|].
    destruct Hdue as (t & Ht & Hold). unfold Download.cleanup_entry in Hentry.
    rewrite Ht in Hentry. destruct (decide (now - t > Download.maxAge)); [|done].
    destruct (match truthy_string (Download.outputFile job) with
              | Some _ => _ | None => _ end); [|done].
    simpl in Hentry. by injection Hentry as <- _.
  - rewrite download_entry_keeps by done. intros [= <- <-]. by left.
Qed.

(** A sweep that runs to its end leaves no entry it visited that is due. *)
Lemma conversion_loop_due now maxAge l st fs st' fs' jobId job :
  FFmpegService.for_of (FFmpegService.cleanup_entry now maxAge) l (st, fs)
  = Ok (st', fs') →
  (jobId, job) ∈ l → FFmpegService.due now maxAge job →
  FFmpegService.jobs st' !! jobId = None.
Proof.
  revert st fs. induction l as [|[id0 job0] l IH]; intros st fs Hloop Hel Hdue.
  - by apply elem_of_nil in Hel.
  - rewrite for_of_cons in Hloop.
    destruct (FFmpegService.cleanup_entry now maxAge (st, fs) (id0, job0))
      as [[st1 fs1]|] eqn:Hentry; [|done].
    apply elem_of_cons in Hel as [[= -> ->]|Hel]; [|by eapply IH].
    destruct (conversion_entry_Ok _ _ _ _ _ _ _ _ Hentry)
      as [(Hkeep & _)|(_ & ->)]; [done|].
    destruct (conversion_loop_jobs _ _ _ _ _ _ _ Hloop) as [Hmono _].
    destruct (Hmono id0) as [[Hnone _]|[Hsame _]]; [done|].
    rewrite Hsame. simpl. apply lookup_delete_eq.
Qed.

Lemma download_loop_due now l (dj : gmap string Download.Job) fs dj' fs'
    jobId job :
  FFmpegService.for_of (Download.cleanup_entry now) l (dj, fs) = Ok (dj', fs') →
  (jobId, job) ∈ l → Download.due now job →
  dj' !! jobId = None.
Proof.
  revert dj fs. induction l as [|[id0 job0] l IH]; intros dj fs Hloop Hel Hdue.
  - by apply elem_of_nil in Hel.
  - rewrite for_of_cons in Hloop.
    destruct (Download.cleanup_entry now (dj, fs) (id0, job0))
      as [[dj1 fs1]|] eqn:Hentry; [|done].
    apply elem_of_cons in Hel as [[= -> ->]|Hel]; [|by eapply IH].
    destruct (download_entry_Ok _ _ _ _ _ _ _ Hentry)
      as [(Hkeep & _)|(_ & ->)]; [done|].
    destruct (cleanup_loop_jobs _ _ _ _ _ _ Hloop) as [Hmono _].
    destruct (Hmono id0) as [Hnone|Hsame]; [done|].
    rewrite Hsame. apply lookup_delete_eq.
Qed.

(** A sweep over entries none of which is due changes nothing. *)
Lemma conversion_loop_idle now maxAge l st fs :
  (∀ jobId job, (jobId, job) ∈ l → ¬ FFmpegService.due now maxAge job) →
  FFmpegService.for_of (FFmpegService.cleanup_entry now maxAge) l (st, fs)
  = Ok (st, fs).
Proof.
  induction l as [|[id0 job0] l IH]; intros Hall; [done|].
  rewrite for_of_cons, cleanup_entry_keeps by (apply (Hall id0); by left).
  apply IH. intros jobId job Hel. apply (Hall jobId). by right.
Qed.

Lemma download_loop_idle now l (dj : gmap string Download.Job) fs :
  (∀ jobId job, (jobId, job) ∈ l → ¬ Download.due now job) →
  FFmpegService.for_of (Download.cleanup_entry now) l (dj, fs) = Ok (dj, fs).
Proof.
  induction l as [|[id0 job0] l IH]; intros Hall; [done|].
  rewrite for_of_cons, download_entry_keeps by (apply (Hall id0); by left).
  apply IH. intros jobId job Hel. apply (Hall jobId). by right.
Qed.

(** X7: a sweep leaves nothing for a second sweep at the same clock
    reading: run on the result of a sweep that ran to its end, both sweeps
    return that result unchanged. *)
Theorem sweep_idempotent :
  (∀ now maxAge st fs st' fs',
     FFmpegService.cleanup now maxAge st fs = Ok (st', fs') →
     FFmpegService.cleanup now maxAge st' fs' = Ok (st', fs')) ∧
  (∀ now (dj : gmap string Download.Job) fs dj' fs',
     Download.cleanup now dj fs = Ok (dj', fs') →
     Download.cleanup now dj' fs' = Ok (dj', fs')).
Proof.
  split.
  - intros now maxAge st fs st' fs' Hsweep. unfold FFmpegService.cleanup in *.
    apply conversion_loop_idle. intros jobId job Hel Hdue.
    apply elem_of_map_to_list in Hel.
    destruct (conversion_loop_jobs _ _ _ _ _ _ _ Hsweep) as [Hmono _].
    destruct (Hmono jobId) as [[Hnone _]|[Hsame _]]; [congruence|].
    rewrite Hsame in Hel. apply elem_of_map_to_list in Hel.
    pose proof (conversion_loop_due _ _ _ _ _ _ _ _ _ Hsweep Hel Hdue).
    apply elem_of_map_to_list in Hel. congruence.
  - intros now dj fs dj' fs' Hsweep. unfold Download.cleanup in *.
    apply download_loop_idle. intros jobId job Hel Hdue.
    apply elem_of_map_to_list in Hel.
    destruct (cleanup_loop_jobs _ _ _ _ _ _ Hsweep) as [Hmono _].
    destruct (Hmono jobId) as [Hnone|Hsame]; [congruence|].
    rewrite Hsame in Hel. apply elem_of_map_to_list in Hel.
    pose proof (download_loop_due _ _ _ _ _ _ _ _ Hsweep Hel Hdue).
    apply elem_of_map_to_list in Hel. congruence.
Qed.

Lemma sweep_idempotent_witness :
  ∃ st' fs',
    FFmpegService.cleanup Examples.sweep_time FFmpegService.default_maxAge
      Examples.two_conversions Examples.conversion_files = Ok (st', fs') ∧
    FFmpegService.cleanup Examples.sweep_time FFmpegService.default_maxAge
      st' fs' = Ok (st', fs').
Proof.
  destruct (FFmpegService.cleanup Examples.sweep_time
              FFmpegService.default_maxAge Examples.two_conversions
              Examples.conversion_files) as [[st' fs']|] eqn:Hsweep;
    [|vm_compute in Hsweep; discriminate Hsweep].
  exists st', fs'. split; [reflexivity|].
  destruct sweep_idempotent as [Hconv _]. exact (Hconv _ _ _ _ _ _ Hsweep).
Defined.

(** X8: a sweep never removes a job that has not finished, whatever the
    clock reading and the max-age: in every reachable state a job that is
    not ['completed'] or ['failed'] keeps its entries through every sweep
    that runs to its end. *)
Theorem unfinished_jobs_survive :
  (∀ s jobId j now maxAge fs st' fs',
     FFmpegService.reachable s →
     FFmpegService.jobs (FFmpegService.store s) !! jobId = Some j →
     terminal (FFmpegService.status j) = false →
     FFmpegService.cleanup now maxAge (FFmpegService.store s) fs
     = Ok (st', fs') →
     FFmpegService.jobs st' !! jobId = Some j ∧
     FFmpegService.progressTracking st' !! jobId
     = FFmpegService.progressTracking (FFmpegService.store s) !! jobId) ∧
  (∀ s jobId j now fs dj' fs',
     Download.reachable s →
     Download.downloadJobs s !! jobId = Some j →
     terminal (Download.status j) = false →
     Download.cleanup now (Download.downloadJobs s) fs = Ok (dj', fs') →
     dj' !! jobId = Some j).
Proof.
  split.
  - intros s jobId j now maxAge fs st' fs' Hreach Hj Hterm Hsweep.
    destruct (conversion_reachable_invariant s Hreach) as [Hjobs _].
    destruct (Hjobs jobId j Hj) as (Hs & _ & _ & _ & _ & Hend & _).
    destruct (conversion_sweep_removes_due _ _ _ _ _ _ _ _ Hsweep Hj)
      as [?|(_ & _ & t & Ht & _)]; [done|].
    assert (is_Some (FFmpegService.endTime j)) as Hsome.
    { destruct (FFmpegService.endTime j); [by eexists|done]. }
    apply Hend in Hsome.
    destruct Hs as [Hp|[Hc|Hf]]; [done| |]; by rewrite ?Hc, ?Hf in Hterm.
  - intros s jobId j now fs dj' fs' Hreach Hj Hterm Hsweep.
    destruct (reachable_invariant s Hreach) as [Hjobs _].
    destruct (Hjobs jobId j Hj) as (Hs & _ & _ & _ & _ & _ & Hend).
    destruct (download_sweep_removes_due _ _ _ _ _ _ _ Hsweep Hj)
      as [?|(_ & t & Ht & _)]; [done|].
    assert (is_Some (Download.endTime j)) as Hsome.
    { destruct (Download.endTime j); [by eexists|done]. }
    apply Hend in Hsome.
    destruct Hs as [Hd|[Hc|Hf]]; [done| |]; by rewrite ?Hc, ?Hf in Hterm.
Qed.

Lemma unfinished_jobs_survive_witness :
  Download.reachable Examples.posted ∧
  Download.downloadJobs Examples.posted !! "job-1" = Some Examples.fetching ∧
  terminal (Download.status Examples.fetching) = false ∧
  ∃ dj' fs',
    Download.cleanup (1000 + 1000 * Examples.hour)
      (Download.downloadJobs Examples.posted) Examples.download_files
    = Ok (dj', fs') ∧
    dj' !! "job-1" = Some Examples.fetching.
Proof.
  assert (Hjob : Download.downloadJobs Examples.posted !! "job-1"
                 = Some Examples.fetching) by (vm_compute; reflexivity).
  split; [exact posted_reachable|]. split; [exact Hjob|].
  split; [reflexivity|].
  destruct (Download.cleanup (1000 + 1000 * Examples.hour)
              (Download.downloadJobs Examples.posted) Examples.download_files)
    as [[dj' fs']|] eqn:Hsweep; [|vm_compute in Hsweep; discriminate Hsweep].
  exists dj', fs'. split; [reflexivity|].
  destruct unfinished_jobs_survive as [_ Hdl].
  exact (Hdl Examples.posted "job-1" Examples.fetching _ _ _ _
           posted_reachable Hjob eq_refl Hsweep).
Defined.

End SweepTwice.

(** ** From a finished job to the file that is served *)

Section RoundTrip.

Lemma prefix_app n b : String.prefix n (n +:+ b) = true.
Proof.
  induction n as [|c n IH]; [by destruct b|]. simpl.
  by destruct (Ascii.ascii_dec c c).
Qed.

Lemma includes_prefix n h : String.prefix n h = true → includes n h = true.
Proof. intros Hp. destruct h; cbn [includes]; by rewrite Hp. Qed.

(** [hay.includes(needle)] holds of every string around [needle]. *)
Lemma includes_app a n b : includes n (a +:+ n +:+ b) = true.
Proof.
  induction a as [|c a IH].
  - change ("" +:+ n +:+ b) with (n +:+ b). apply includes_prefix, prefix_app.
  - change (String c a +:+ n +:+ b) with (String c (a +:+ n +:+ b)).
    cbn [includes]. rewrite IH. apply orb_true_r.
Qed.

(** [path.basename] undoes [path.join] on a name without separator. *)
Lemma basename_join dir name :
  includes "/" name = false → path_basename (path_join dir name) = name.
Proof.
  intros Hname. unfold path_join. induction dir as [|c dir IH].
  - change ("" +:+ "/" +:+ name) with (String "/" name).
    cbn [path_basename]. rewrite Hname. by destruct (decide _).
  - change (String c dir +:+ "/" +:+ name)
      with (String c (dir +:+ "/" +:+ name)).
    cbn [path_basename]. by rewrite (includes_app dir "/" name).
Qed.

Lemma path_join_truthy dir name :
  truthy_string (Some (path_join dir name)) = Some (path_join dir name).
Proof. unfold path_join. by destruct dir. Qed.

(** The job a successful fetch leaves when the directory can be listed,
    every name of the listing can be [stat]ed and a name matches. *)
Lemma settle_first_match jobId outputDir now (fs : Fs.t)
    (dj : gmap string Download.Job) allFiles file files :
  Fs.readdirSync outputDir fs = Ok allFiles →
  (∀ f, f ∈ allFiles →
        ∃ stats, Fs.statSync (path_join outputDir f) fs = Ok stats) →
  List.filter (Spec.is_match jobId outputDir fs) allFiles = file :: files →
  Download.downloadVideo_settle jobId outputDir YtDlp.Resolved now fs dj
    !! jobId
  = Some (Download.spread_completed (dj !! jobId) (path_join outputDir file)
            (Spec.size_of (path_join outputDir file) fs) now) ∧
  Fs.existsSync (Some (path_join outputDir file)) fs = true.
Proof.
  intros Hdir Hstat Hfound. rewrite settle_resolved, Hdir.
  apply stat_error_None in Hstat. rewrite Hstat, Hfound. split; [done|].
  assert (Spec.is_match jobId outputDir fs file = true) as Hm.
  { eapply proj2, List.filter_In. rewrite Hfound. by left. }
  destruct (is_match_statSync _ _ _ _ Hm) as (stats & Hs & _).
  unfold Fs.statSync in Hs. unfold Fs.existsSync.
  by destruct (Fs.lookup_path _ fs).
Qed.

(** X9: once a fetch has succeeded, the download directory could be listed
    and every name of the listing could be [stat]ed, and a name matched,
    the progress route announces the completed job with the url of the
    file route, the name and the size of the first match, and the file
    route sends that very file under that name, as long as it is on
    disk. *)
Theorem download_served jobId outputDir now (fs : Fs.t)
    (dj : gmap string Download.Job) allFiles file files :
  Fs.readdirSync outputDir fs = Ok allFiles →
  (∀ f, f ∈ allFiles →
        ∃ stats, Fs.statSync (path_join outputDir f) fs = Ok stats) →
  List.filter (Spec.is_match jobId outputDir fs) allFiles = file :: files →
  includes "/" file = false →
  let dj' := Download.downloadVideo_settle jobId outputDir YtDlp.Resolved now
               fs dj in
  let answer := body (Download.get_progress jobId dj') in
  field "status" answer = JString "completed" ∧
  field "progress" answer = JNumber (Num 100) ∧
  field "downloadUrl" answer = JString ("/api/download/file/" +:+ jobId) ∧
  field "filename" answer = JString file ∧
  field "fileSize" answer
  = JNumber (Num (Spec.size_of (path_join outputDir file) fs)) ∧
  Download.get_file jobId dj' fs = SendFile (path_join outputDir file) file ∧
  ∀ fs', Fs.existsSync (Some (path_join outputDir file)) fs' = false →
         Download.get_file jobId dj' fs'
         = Send (Download.not_found "File not found on disk").
Proof.
  intros Hdir Hstat Hfound Hname dj' answer. subst answer dj'.
  destruct (settle_first_match jobId outputDir now fs dj allFiles file files
              Hdir Hstat Hfound) as [Hjob Hexists].
  unfold Download.get_progress, Download.get_file. rewrite Hjob.
  assert (Download.status (Download.spread_completed (dj !! jobId)
            (path_join outputDir file)
            (Spec.size_of (path_join outputDir file) fs) now) = completed
          ∧ Download.outputFile (Download.spread_completed (dj !! jobId)
              (path_join outputDir file)
              (Spec.size_of (path_join outputDir file) fs) now)
            = Some (path_join outputDir file)
          ∧ Download.fileSize (Download.spread_completed (dj !! jobId)
              (path_join outputDir file)
              (Spec.size_of (path_join outputDir file) fs) now)
            = Some (Spec.size_of (path_join outputDir file) fs)
          ∧ Download.progress (Download.spread_completed (dj !! jobId)
              (path_join outputDir file)
              (Spec.size_of (path_join outputDir file) fs) now)
            = Some (Num 100)) as (Hst & Hout & Hsz & Hpr)
    by (by destruct (dj !! jobId)).
  rewrite Hst, Hout, Hsz, Hpr, path_join_truthy, basename_join by done.
  destruct (decide (completed = completed)); [|done].
  rewrite Hexists. do 6 (split; [done|]).
  intros fs' Hgone. by rewrite Hgone.
Qed.

Lemma download_served_witness :
  Fs.readdirSync "/srv/downloads" Examples.two_files
  = Ok ["job-7-1000.mkv"; "job-7-1000.mp4"] ∧
  List.filter (Spec.is_match "job-7" "/srv/downloads" Examples.two_files)
    ["job-7-1000.mkv"; "job-7-1000.mp4"]
  = ["job-7-1000.mkv"; "job-7-1000.mp4"] ∧
  includes "/" "job-7-1000.mkv" = false ∧
  Download.get_file "job-7"
    (Download.downloadVideo_settle "job-7" "/srv/downloads" YtDlp.Resolved 4000
       Examples.two_files Examples.job7_store) Examples.two_files
  = SendFile "/srv/downloads/job-7-1000.mkv" "job-7-1000.mkv".
Proof.
  assert (Hdir : Fs.readdirSync "/srv/downloads" Examples.two_files
                 = Ok ["job-7-1000.mkv"; "job-7-1000.mp4"])
    by (vm_compute; reflexivity).
  assert (Hstat : ∀ f, f ∈ ["job-7-1000.mkv"; "job-7-1000.mp4"] →
            ∃ stats, Fs.statSync (path_join "/srv/downloads" f)
                       Examples.two_files = Ok stats).
  { intros f Hf.
    repeat (apply elem_of_cons in Hf as [->|Hf]);
      [by eexists..|by apply elem_of_nil in Hf]. }
  assert (Hfound :
    List.filter (Spec.is_match "job-7" "/srv/downloads" Examples.two_files)
      ["job-7-1000.mkv"; "job-7-1000.mp4"]
    = ["job-7-1000.mkv"; "job-7-1000.mp4"]) by (vm_compute; reflexivity).
  split; [exact Hdir|]. split; [exact Hfound|]. split; [reflexivity|].
  destruct (download_served "job-7" "/srv/downloads" 4000 Examples.two_files
              Examples.job7_store _ _ _ Hdir Hstat Hfound eq_refl)
    as (_ & _ & _ & _ & _ & Hfile & _).
  exact Hfile.
Defined.

(** X10: the answer of [POST /video] names the file that [getOutputFile]
    returns for the job, and [GET /download/:jobId] sends that file under
    the name [jobId.format] when it is on disk and answers 404 when it is
    not. *)
Theorem conversion_served outputDir now jobId file_path format quality codec
    events t st (fs : Fs.t) :
  let name := jobId +:+ "." +:+ or_string format "mp4" in
  includes "/" name = false →
  let run := {| Ffmpeg.events := events;
                Ffmpeg.outcome := Some (Ffmpeg.End, t) |} in
  let result := Convert.post_video outputDir now jobId file_path format quality
                  codec run st in
  result.2
  = Some {| code := 200;
            body := [("success", JBool true); ("jobId", JString jobId);
                     ("message", JString "Video conversion started");
                     ("outputFile", JString (path_join outputDir name))] |} ∧
  FFmpegService.getOutputFile jobId result.1 = Some (path_join outputDir name) ∧
  Convert.get_download jobId result.1 fs
  = if Fs.existsSync (Some (path_join outputDir name)) fs
    then SendFile (path_join outputDir name) name
    else Send (Convert.not_found "File not found").
Proof.
  intros name Hname run result. subst run result.
  unfold Convert.post_video, FFmpegService.convertVideo. cbn [Ffmpeg.outcome].
  cbn [fst snd fmap option_fmap option_map Convert.respond]. split; [done|].
  assert (FFmpegService.getOutputFile jobId
            (FFmpegService.on_end jobId t
               (foldl (λ s p, FFmpegService.convertVideo_on_progress jobId p s)
                  (FFmpegService.convertVideo_start outputDir now file_path
                     (or_string format "mp4") jobId st)
                  (Ffmpeg.events {| Ffmpeg.events := events;
                                    Ffmpeg.outcome := Some (Ffmpeg.End, t) |})))
          = Some (path_join outputDir name)) as Hout.
  { unfold FFmpegService.getOutputFile. cbn [FFmpegService.on_end FFmpegService.jobs].
    rewrite lookup_insert_eq, foldl_jobs_convertVideo. simpl.
    by rewrite lookup_insert_eq. }
  split; [exact Hout|]. unfold Convert.get_download. rewrite Hout.
  rewrite path_join_truthy, basename_join by done. done.
Qed.

Lemma conversion_served_witness :
  includes "/" ("job-9" +:+ "." +:+ or_string None "mp4") = false ∧
  Convert.get_download "job-9"
    (Convert.post_video "/srv/output" 1000 "job-9" "/srv/uploads/a.avi" None
       None None (Examples.ended 9000) FFmpegService.init).1
    [Examples.regular "/srv/output" "job-9.mp4" 10]
  = SendFile "/srv/output/job-9.mp4" "job-9.mp4".
Proof.
  split; [reflexivity|].
  destruct (conversion_served "/srv/output" 1000 "job-9" "/srv/uploads/a.avi"
              None None None [] 9000 FFmpegService.init
              [Examples.regular "/srv/output" "job-9.mp4" 10] eq_refl)
    as (_ & _ & Hsend).
  exact Hsend.
Defined.

End RoundTrip.

(** ** The jobs of a batch *)

Section BatchJobs.

Import Download.

Lemma batch_ids_lookup uuid n i :
  (i < n)%nat → batch_ids uuid n !! i = Some (uuid (S i)).
Proof.
  intros Hi. unfold batch_ids. rewrite list_lookup_fmap.
  by rewrite (proj2 (lookup_seq 1 n i (S i)) (conj eq_refl Hi)).
Qed.

Lemma batch_times_lookup now n i :
  (i < n)%nat → batch_times now n !! i = Some (now (S i)).
Proof.
  intros Hi. unfold batch_times. rewrite list_lookup_fmap.
  by rewrite (proj2 (lookup_seq 1 n i (S i)) (conj eq_refl Hi)).
Qed.

(** With distinct ids each entry of the loop ends as the job of its own
    url and clock reading. *)
Lemma batch_loop_entry batchId format quality entries
    (dj : gmap string Job) id url now :
  NoDup entries.*1 → (id, (url, now)) ∈ entries →
  batch_loop batchId format quality entries dj !! id
  = Some (spread_downloading
            (Some (new_job url format quality (Some batchId) now))).
Proof.
  intros Hnodup Hel.
  destruct (batch_loop_created batchId format quality entries dj id)
    as (url' & now' & Hel' & ->).
  { apply list_elem_of_fmap. by exists (id, (url, now)). }
  pose proof (elem_of_list_to_map_1 (M := gmap string) _ _ _ Hnodup Hel) as H1.
  pose proof (elem_of_list_to_map_1 (M := gmap string) _ _ _ Hnodup Hel') as H2.
  rewrite H1 in H2. by injection H2 as <- <-.
Qed.

(** X11: a batch of 1 to 10 urls whose generated ids are distinct creates
    one job per url: the answer carries the batch id and the job ids in the
    order of the urls, and the job of the i-th id holds the i-th url, the
    batch id, the format and quality of the body as received, of whatever
    kind (['mp4'] and ['720p'] when they are [undefined]), and the clock
    reading of its own round of the loop as start time; it is
    ['downloading'] with progress 0 when the route answers. *)
Theorem batch_jobs uuid now l format quality (dj : gmap string Job) :
  (0 < length l ≤ 10)%nat →
  NoDup (batch_ids uuid (length l)) →
  let result := post_batch uuid now (JArray l) format quality dj in
  code result.2 = 200 ∧
  field "batchId" (body result.2) = JString (uuid 0%nat) ∧
  field "jobIds" (body result.2)
  = JArray (JString <$> batch_ids uuid (length l)) ∧
  length (batch_ids uuid (length l)) = length l ∧
  ∀ i url, l !! i = Some url →
    result.1 !! uuid (S i)
    = Some {| status := downloading; url := Some url;
              format := Some (or_default format "mp4");
              quality := Some (or_default quality "720p");
              batchId := Some (uuid 0%nat); startTime := Some (now (S i));
              progress := Some (Num 0); error := None; outputFile := None;
              fileSize := None; endTime := None |}.
Proof.
  intros [Hpos Hmax] Hnodup result. subst result. unfold post_batch.
  destruct l as [|u us]; [simpl in Hpos; lia|].
  destruct (decide (10 < length (u :: us))%nat); [lia|]. cbn [fst snd].
  split; [done|]. split; [done|]. split; [done|].
  split; [apply batch_ids_length|].
  intros i url' Hi.
  assert (i < length (u :: us))%nat as Hlt by (by eapply lookup_lt_Some).
  apply (batch_loop_entry (uuid 0%nat) (or_default format "mp4")
           (or_default quality "720p") _ dj (uuid (S i)) url' (now (S i))).
  - by rewrite batch_entries_ids.
  - apply (list_elem_of_lookup_2 _ i). apply lookup_zip_with_Some.
    exists (uuid (S i)), (url', now (S i)). split; [done|].
    split; [by apply batch_ids_lookup|].
    apply lookup_zip_with_Some. exists url', (now (S i)).
    split; [done|]. split; [done|]. by apply batch_times_lookup.
Qed.

Lemma batch_jobs_witness :
  (0 < length [JString "https://youtu.be/a"; JString "https://youtu.be/b";
               JString "https://youtu.be/c"] ≤ 10)%nat ∧
  NoDup (batch_ids Examples.uuid 3) ∧
  startTime <$>
    (post_batch Examples.uuid Examples.readings Examples.three_urls
       JUndefined (JNumber (Num 720)) ∅).1 !! "id-1"
  = Some (Some 1001) ∧
  startTime <$>
    (post_batch Examples.uuid Examples.readings Examples.three_urls
       JUndefined (JNumber (Num 720)) ∅).1 !! "id-2"
  = Some (Some 1003) ∧
  quality <$>
    (post_batch Examples.uuid Examples.readings Examples.three_urls
       JUndefined (JNumber (Num 720)) ∅).1 !! "id-2"
  = Some (Some (JNumber (Num 720))) ∧
  url <$>
    (post_batch Examples.uuid Examples.readings Examples.three_urls
       JUndefined (JNumber (Num 720)) ∅).1 !! "id-2"
  = Some (Some (JString "https://youtu.be/b")).
Proof.
  assert (Hlen : (0 < length [JString "https://youtu.be/a";
                              JString "https://youtu.be/b";
                              JString "https://youtu.be/c"] ≤ 10)%nat)
    by (simpl; lia).
  assert (Hnodup : NoDup (batch_ids Examples.uuid 3)).
  { vm_compute. repeat constructor; set_solver. }
  split; [exact Hlen|]. split; [exact Hnodup|].
  destruct (batch_jobs Examples.uuid Examples.readings _ JUndefined
              (JNumber (Num 720)) ∅ Hlen Hnodup)
    as (_ & _ & _ & _ & Hjob).
  pose proof (Hjob 0%nat (JString "https://youtu.be/a") eq_refl) as H1.
  pose proof (Hjob 1%nat (JString "https://youtu.be/b") eq_refl) as H2.
  change (Examples.uuid 1) with "id-1" in H1.
  change (Examples.uuid 2) with "id-2" in H2.
  change (JArray _) with Examples.three_urls in H1, H2.
  rewrite H1, H2. repeat split.
Defined.

End BatchJobs.

(** ** The urls the download route lets through *)

Section Platforms.

Import Validation.

Lemma strip_Some lit s rest : strip lit s = Some rest ↔ s = lit +:+ rest.
Proof.
  revert s. induction lit as [|c lit IH]; intros s; simpl.
  - split; [by intros [= ->]|by intros ->].
  - destruct s as [|d s]; [by split|].
    destruct (decide (c = d)) as [->|Hne].
    + rewrite IH. split; [by intros ->|by intros [= ->]].
    + split; [done|]. intros [= -> _]. done.
Qed.

Lemma literal_true lit k s :
  literal lit k s = true ↔ ∃ rest, s = lit +:+ rest ∧ k rest = true.
Proof.
  unfold literal. destruct (strip lit s) as [rest|] eqn:Hs.
  - apply strip_Some in Hs. subst s. split; [by exists rest|].
    intros (rest' & Heq & Hk).
    assert (strip lit (lit +:+ rest) = Some rest') as Hs'
      by (by apply strip_Some).
    assert (strip lit (lit +:+ rest) = Some rest) as Hs''
      by (by apply strip_Some).
    congruence.
  - split; [done|]. intros (rest & Heq & _).
    apply strip_Some in Heq. congruence.
Qed.

Lemma optional_true lit k s :
  optional lit k s = true
  ↔ ∃ taken, taken ∈ [lit; ""] ∧ ∃ rest, s = taken +:+ rest ∧ k rest = true.
Proof.
  unfold optional. rewrite orb_true_iff, literal_true. split.
  - intros [(rest & -> & Hk)|Hk].
    + exists lit. split; [by left|]. by exists rest.
    + exists "". split; [set_solver|]. by exists s.
  - intros (taken & Hin & rest & -> & Hk).
    apply elem_of_cons in Hin as [->|Hin]; [left; by exists rest|].
    apply list_elem_of_singleton in Hin as ->. by right.
Qed.

Lemma alternatives_true lits k s :
  alternatives lits k s = true
  ↔ ∃ lit, lit ∈ lits ∧ ∃ rest, s = lit +:+ rest ∧ k rest = true.
Proof.
  unfold alternatives. rewrite existsb_exists. split.
  - intros (lit & Hin & Hl). exists lit. split; [by apply list_elem_of_In|].
    by apply literal_true.
  - intros (lit & Hin & Hl). exists lit. split; [by apply list_elem_of_In|].
    by apply literal_true.
Qed.

Lemma some_char_true s :
  some_char s = true ↔ ∃ c rest, s = String c rest ∧ line_terminator c = false.
Proof.
  destruct s as [|c s]; simpl.
  - split; [done|]. by intros (c & rest & [=] & _).
  - rewrite negb_true_iff. split; [by exists c, s|].
    by intros (c' & rest & [= -> ->] & Hc).
Qed.

(** What one pattern accepts. *)
Lemma platform_true names suffix url :
  platform names suffix url = true
  ↔ ∃ s www name c rest,
      s ∈ ["s"; ""] ∧ www ∈ ["www."; ""] ∧ name ∈ names ∧
      line_terminator c = false ∧
      url = "http" +:+ s +:+ "://" +:+ www +:+ name +:+ suffix +:+ "/"
            +:+ String c rest.
Proof.
  unfold platform. rewrite literal_true. split.
  - intros (r1 & -> & H1). apply optional_true in H1 as (s & Hs & r2 & -> & H2).
    apply literal_true in H2 as (r3 & -> & H3).
    apply optional_true in H3 as (www & Hw & r4 & -> & H4).
    apply alternatives_true in H4 as (name & Hn & r5 & -> & H5).
    apply literal_true in H5 as (r6 & -> & H6).
    apply literal_true in H6 as (r7 & -> & H7).
    apply some_char_true in H7 as (c & rest & -> & Hc).
    by exists s, www, name, c, rest.
  - intros (s & www & name & c & rest & Hs & Hw & Hn & Hc & ->).
    eexists. split; [done|].
    apply optional_true. exists s. split; [done|]. eexists. split; [done|].
    apply literal_true. eexists. split; [done|].
    apply optional_true. exists www. split; [done|]. eexists. split; [done|].
    apply alternatives_true. exists name. split; [done|].
    eexists. split; [done|].
    apply literal_true. eexists. split; [done|].
    apply literal_true. eexists. split; [done|].
    apply some_char_true. by exists c, rest.
Qed.

Lemma app_assoc_string (a b c : string) : (a +:+ b) +:+ c = a +:+ b +:+ c.
Proof.
  induction a as [|x a IH]; [done|].
  change (String x ((a +:+ b) +:+ c) = String x (a +:+ b +:+ c)). by f_equal.
Qed.

Ltac host_of names suffix name :=
  exists names, suffix, name;
  split; [unfold supportedPlatforms; set_solver|split; [set_solver|reflexivity]].

(** X12: [validateDownloadRequest] hands a request on exactly when the
    schema accepted the body and its url is [http://] or [https://], an
    optional [www.], one of the eight hosts facebook.com, fb.com,
    instagram.com, tiktok.com, youtube.com, youtu.be, twitter.com and x.com,
    a slash and at least one more character that is not a line terminator;
    the body handed on is the schema's value. Other subdomains, other
    schemes, upper-case hosts and urls that end at the host's slash are
    refused with a 400 answer. *)
Theorem supported_urls validated value :
  validateDownloadRequest validated = Pass value
  ↔ validated = Valid value ∧
    ∃ scheme www host c rest,
      scheme ∈ ["http"; "https"] ∧ www ∈ [""; "www."] ∧
      host ∈ supported_hosts ∧ line_terminator c = false ∧
      url value
      = scheme +:+ "://" +:+ www +:+ host +:+ "/" +:+ String c rest.
Proof.
  unfold validateDownloadRequest. destruct validated as [v|details].
  2: { split; [done|]. by intros [[=] _]. }
  destruct (isSupported (url v)) eqn:Hsup.
  - split.
    + intros [= ->]. split; [done|].
      unfold isSupported in Hsup. apply existsb_exists in Hsup
        as ([names suffix] & Hin & Hp).
      apply platform_true in Hp
        as (s & www & name & c & rest & Hs & Hw & Hn & Hc & Hurl).
      simpl in Hn, Hurl.
      exists ("http" +:+ s), www, (name +:+ suffix), c, rest.
      assert (name +:+ suffix ∈ supported_hosts) as Hhost.
      { apply list_elem_of_In in Hin. unfold supportedPlatforms in Hin.
        repeat (apply elem_of_cons in Hin as [[= -> ->]|Hin]);
          try (by apply elem_of_nil in Hin);
          repeat (apply elem_of_cons in Hn as [->|Hn]);
          try (by apply elem_of_nil in Hn);
          apply list_elem_of_In; vm_compute;
          repeat (first [left; reflexivity | right]). }
      split; [set_solver|]. split; [set_solver|]. split; [done|].
      split; [done|]. rewrite Hurl.
      by rewrite !app_assoc_string.
    + by intros [[= ->] _].
  - split; [done|]. intros [[= ->] (scheme & www & host & c & rest & Hs & Hw &
                                     Hh & Hc & Hurl)].
    exfalso. assert (isSupported (url value) = true) as Habs; [|congruence].
    rewrite Hurl. unfold isSupported. apply existsb_exists.
    assert (∃ names suffix name,
              (names, suffix) ∈ supportedPlatforms ∧ name ∈ names ∧
              host = name +:+ suffix) as (names & suffix & name & Hp & Hn & ->).
    { unfold supported_hosts in Hh.
      repeat (apply elem_of_cons in Hh as [->|Hh]);
        [..|by apply elem_of_nil in Hh].
      - host_of ["facebook"; "fb"] ".com" "facebook".
      - host_of ["facebook"; "fb"] ".com" "fb".
      - host_of ["instagram"] ".com" "instagram".
      - host_of ["tiktok"] ".com" "tiktok".
      - host_of ["youtube"] ".com" "youtube".
      - host_of ["youtu"] ".be" "youtu".
      - host_of ["twitter"] ".com" "twitter".
      - host_of ["x"] ".com" "x". }
    assert (∃ s, s ∈ ["s"; ""] ∧ scheme = "http" +:+ s) as (s & Hs' & ->).
    { repeat (apply elem_of_cons in Hs as [->|Hs]);
        [| |by apply elem_of_nil in Hs].
      - exists "". split; [set_solver|reflexivity].
      - exists "s". split; [set_solver|reflexivity]. }
    exists (names, suffix). split; [by apply list_elem_of_In|].
    apply platform_true. exists s, www, name, c, rest.
    split; [done|]. split; [set_solver|]. split; [done|]. split; [done|].
    by rewrite !app_assoc_string.
Qed.

End Platforms.

(** ** The commands of the conversion routes *)

Section Transcoding.

Import Validation.

Lemma quality_settings_Some quality s b :
  Command.quality_settings quality = Some (s, b) →
  (∃ q, quality = Some q ∧ q ∈ conversion_qualities) ∧
  ∃ w h k, s = w +:+ "x" +:+ h ∧ quality = Some (h +:+ "p") ∧
           b = k +:+ "k".
Proof.
  unfold Command.quality_settings. destruct quality as [q|]; [|done].
  repeat case_decide; intros [= <- <-]; subst q;
    (split; [eexists; split; [done|]; unfold conversion_qualities; set_solver|]).
  - by exists "854", "480", "1000".
  - by exists "1280", "720", "2500".
  - by exists "1920", "1080", "5000".
  - by exists "2560", "1440", "8000".
  - by exists "3840", "2160", "15000".
Qed.

Lemma quality_settings_listed q :
  q ∈ conversion_qualities → is_Some (Command.quality_settings (Some q)).
Proof.
  unfold conversion_qualities. intros Hq.
  repeat (apply elem_of_cons in Hq as [->|Hq]); [..|by apply elem_of_nil in Hq];
    by eexists.
Qed.

(** X13: [convertVideo] sets a frame size exactly for the five qualities
    the conversion schema lists, always together with a video bitrate; the
    height of the size is the number in the quality's name. For any other
    quality, or none, it sets neither and the original resolution is
    kept. *)
Theorem video_command_quality inputFile outputFile format quality codec :
  let cmd := Command.convertVideo inputFile outputFile format quality codec in
  ((∃ q, quality = Some q ∧ q ∈ conversion_qualities)
   ↔ is_Some (Command.size cmd)) ∧
  (is_Some (Command.size cmd) ↔ is_Some (Command.videoBitrate cmd)) ∧
  (∀ s, Command.size cmd = Some s →
        ∃ w h, s = w +:+ "x" +:+ h ∧ quality = Some (h +:+ "p")).
Proof.
  cbn [Command.convertVideo Command.size Command.videoBitrate].
  split; [split|split].
  - intros (q & -> & Hq). apply fmap_is_Some. by apply quality_settings_listed.
  - intros [[s b] Hs]%fmap_is_Some.
    by apply quality_settings_Some in Hs as [Hq _].
  - by rewrite !fmap_is_Some.
  - intros s Hs. apply fmap_Some in Hs as ([s' b] & Hs & ->).
    apply quality_settings_Some in Hs as [_ (w & h & k & -> & -> & _)].
    by exists w, h.
Qed.

(** X14: behind [POST /video], which fills in ['720p'], the branch that
    keeps the original resolution is never taken for a body the schema
    lets through: every such request is scaled, a request without quality
    to 1280x720 at 2500k. *)
Theorem video_route_resizes outputDir jobId file_path format quality codec :
  quality = None ∨ (∃ q, quality = Some q ∧ q ∈ conversion_qualities) →
  let cmd := Command.post_video outputDir jobId file_path format quality codec in
  is_Some (Command.size cmd) ∧ is_Some (Command.videoBitrate cmd) ∧
  (quality = None →
   Command.size cmd = Some "1280x720" ∧
   Command.videoBitrate cmd = Some "2500k").
Proof.
  intros Hq. cbn [Command.post_video Command.convertVideo Command.size
                  Command.videoBitrate].
  rewrite !fmap_is_Some.
  assert (or_string quality "720p" ∈ conversion_qualities) as Hin.
  { destruct Hq as [->|(q & -> & Hq)].
    - unfold conversion_qualities. set_solver.
    - unfold conversion_qualities in *.
      repeat (apply elem_of_cons in Hq as [->|Hq]);
        [..|by apply elem_of_nil in Hq]; set_solver. }
  split; [by apply quality_settings_listed|].
  split; [by apply quality_settings_listed|]. by intros ->.
Qed.

Lemma video_route_resizes_witness :
  Command.size
    (Command.post_video "/srv/output" "job-9" "/srv/uploads/a.avi" None
       (Some "1080p") None)
  = Some "1920x1080" ∧
  Command.size
    (Command.post_video "/srv/output" "job-9" "/srv/uploads/a.avi" None None
       None)
  = Some "1280x720".
Proof.
  split; [reflexivity|].
  refine (proj1 (proj2 (proj2 (video_route_resizes "/srv/output" "job-9"
                                 "/srv/uploads/a.avi" None None None _))
                   eq_refl)).
  by left.
Defined.

(** X15: [extractAudio] chooses an audio codec exactly for the five audio
    formats [GET /formats] advertises. [POST /audio] shares the schema of
    [POST /video]: for a body the schema lets through, the command is left
    without audio codec exactly when the requested format is one of the
    seven video containers. *)
Theorem audio_command_codec outputDir jobId file_path format bitrate :
  format = None ∨ (∃ f, format = Some f ∧ f ∈ conversion_formats) →
  let cmd := Command.post_audio outputDir jobId file_path format bitrate in
  (∀ inputFile outputFile f b,
     is_Some (Command.audioCodec (Command.extractAudio inputFile outputFile f b))
     ↔ f ∈ Upload.audio) ∧
  (Command.audioCodec cmd = None
   ↔ ∃ f, format = Some f ∧ f ∈ Upload.video) ∧
  Command.noVideo cmd = true ∧
  is_Some (Command.audioBitrate cmd).
Proof.
  intros Hf. cbn [Command.post_audio Command.extractAudio Command.audioCodec
                  Command.noVideo Command.audioBitrate].
  split; [|split; [|split; [done|by eexists]]].
  - intros _ _ f _. unfold Command.audio_codec, Upload.audio. split.
    + repeat case_decide; intros [c Hc]; [set_solver..|done].
    + intros Hin.
      repeat (apply elem_of_cons in Hin as [->|Hin]);
        [..|by apply elem_of_nil in Hin]; by eexists.
  - destruct Hf as [->|(f & -> & Hin)].
    + split; [done|]. by intros (f & [=] & _).
    + unfold conversion_formats in Hin.
      repeat (apply elem_of_cons in Hin as [->|Hin]);
        [..|by apply elem_of_nil in Hin];
        (split;
         [first [discriminate
                |intros _; eexists; split; [done|];
                 unfold Upload.video; set_solver]
         |first [done
                |intros (f & [= <-] & Hv); unfold Upload.video in Hv;
                 set_solver]]).
Qed.

Lemma audio_command_codec_witness :
  Command.audioCodec
    (Command.post_audio "/srv/output" "job-10" "/srv/uploads/b.avi"
       (Some "mp4") None)
  = None ∧
  Command.audioCodec
    (Command.post_audio "/srv/output" "job-10" "/srv/uploads/b.avi" None None)
  = Some "libmp3lame".
Proof.
  assert (Some "mp4" = None ∨
          ∃ f, Some "mp4" = Some f ∧ f ∈ conversion_formats) as Hf.
  { right. exists "mp4". split; [done|]. unfold conversion_formats.
    set_solver. }
  split; [|reflexivity].
  apply (proj1 (proj2 (audio_command_codec "/srv/output" "job-10"
                         "/srv/uploads/b.avi" (Some "mp4") None Hf))).
  exists "mp4". split; [done|]. unfold Upload.video. set_solver.
Defined.

(** X16: the tables of the conversion routes agree: the formats the schema
    lets through are the video and audio formats [GET /formats] lists, its
    qualities and codecs are the listed ones, and the upload filter admits
    exactly the MIME types [video/f] for a listed video format [f] and
    [audio/f] for a listed audio format [f]. *)
Theorem advertised_formats :
  (∀ f, f ∈ conversion_formats ↔ f ∈ Upload.video ∨ f ∈ Upload.audio) ∧
  (∀ q, q ∈ conversion_qualities ↔ q ∈ Upload.qualities) ∧
  (∀ c, c ∈ conversion_codecs
        ↔ c ∈ Upload.video_codecs ∨ c ∈ Upload.audio_codecs) ∧
  (∀ m, Upload.fileFilter m = Ok true
        ↔ ∃ f, f ∈ Upload.video ∧ m = "video/" +:+ f ∨
               f ∈ Upload.audio ∧ m = "audio/" +:+ f).
Proof.
  split; [|split; [|split]].
  - intros f. change conversion_formats with (Upload.video ++ Upload.audio).
    apply elem_of_app.
  - done.
  - intros c.
    change conversion_codecs with (Upload.video_codecs ++ Upload.audio_codecs).
    apply elem_of_app.
  - intros m. unfold Upload.fileFilter.
    assert (m ∈ Upload.allowedMimes
            ↔ ∃ f, f ∈ Upload.video ∧ m = "video/" +:+ f ∨
                   f ∈ Upload.audio ∧ m = "audio/" +:+ f) as Hiff.
    { change Upload.allowedMimes
        with ((String.append "video/" <$> Upload.video) ++
              (String.append "audio/" <$> Upload.audio)).
      rewrite elem_of_app, !list_elem_of_fmap. split.
      - intros [(f & -> & Hf)|(f & -> & Hf)]; exists f; [by left|by right].
      - intros (f & [[Hf ->]|[Hf ->]]); [left|right]; by exists f. }
    rewrite <- Hiff. by case_bool_decide.
Qed.

End Transcoding.

(** ** Uploads and the sweep *)

Section UploadRetention.

(** Every path the disk storage gives an upload contains ["uploads"]. *)
Lemma upload_in_uploads root uuid originalname :
  includes "uploads" (Upload.file_path root uuid originalname) = true.
Proof.
  unfold Upload.file_path, Upload.uploadDir, path_join.
  assert ((root +:+ "/" +:+ "uploads") +:+ "/" +:+
            Upload.filename uuid originalname
          = (root +:+ "/") +:+ "uploads" +:+ "/" +:+
              Upload.filename uuid originalname) as ->.
  { by rewrite !app_assoc_string. }
  apply includes_app.
Qed.

(** A sweep that runs to its end and finds a finished job old enough
    leaves nothing of it. *)
Lemma finished_job_swept st jobId job file out t sweep maxAge (fs : Fs.t) :
  FFmpegService.jobs st !! jobId = Some job →
  FFmpegService.inputFile job = Some file →
  FFmpegService.outputFile job = Some out →
  FFmpegService.endTime job = Some t →
  includes "uploads" file = true →
  t ≠ 0 → sweep - t > maxAge →
  FFmpegService.sweepable sweep maxAge st fs = true →
  ∃ st' fs',
    FFmpegService.cleanup sweep maxAge st fs = Ok (st', fs') ∧
    Fs.existsSync (Some file) fs' = false ∧
    Fs.existsSync (Some out) fs' = false ∧
    Convert.get_progress jobId st' = Convert.not_found "Job not found" ∧
    Convert.get_download jobId st' fs'
    = Send (Convert.not_found "File not found").
Proof.
  intros Hjob Hin Hout Hend Hup Ht Hold Hsw.
  destruct (conversion_sweep sweep maxAge st fs Hsw)
    as (st' & fs' & Hrun & Hgone & _ & _).
  destruct (Hgone jobId job t Hjob Hend Ht Hold) as (Hj & _ & Ho & Hi).
  exists st', fs'. split; [exact Hrun|]. split; [by apply Hi|].
  split; [by rewrite <- Hout|].
  unfold Convert.get_progress, Convert.get_download,
    FFmpegService.getProgress, FFmpegService.getOutputFile.
  by rewrite Hj.
Qed.

Lemma finished_video_job outputDir now jobId file format run o t st :
  Ffmpeg.outcome run = Some (o, t) →
  ∃ job,
    FFmpegService.jobs
      (FFmpegService.convertVideo outputDir now file format jobId run st).1
      !! jobId = Some job ∧
    FFmpegService.inputFile job = Some file ∧
    FFmpegService.outputFile job
    = Some (path_join outputDir (jobId +:+ "." +:+ format)) ∧
    FFmpegService.endTime job = Some t.
Proof.
  intros Hrun. unfold FFmpegService.convertVideo. rewrite Hrun.
  destruct o as [|m]; cbn [fst FFmpegService.on_end FFmpegService.on_error
                           FFmpegService.jobs];
    rewrite lookup_insert_eq, foldl_jobs_convertVideo; simpl;
    rewrite lookup_insert_eq; by eexists.
Qed.

Lemma finished_audio_job outputDir now jobId file format run o t st :
  Ffmpeg.outcome run = Some (o, t) →
  ∃ job,
    FFmpegService.jobs
      (FFmpegService.extractAudio outputDir now file format jobId run st).1
      !! jobId = Some job ∧
    FFmpegService.inputFile job = Some file ∧
    FFmpegService.outputFile job
    = Some (path_join outputDir (jobId +:+ "." +:+ format)) ∧
    FFmpegService.endTime job = Some t.
Proof.
  intros Hrun. unfold FFmpegService.extractAudio. rewrite Hrun.
  destruct o as [|m]; cbn [fst FFmpegService.on_end FFmpegService.on_error
                           FFmpegService.jobs];
    rewrite lookup_insert_eq, foldl_jobs_extractAudio; simpl;
    rewrite lookup_insert_eq; by eexists.
Qed.

(** X17: an upload never outlives its job. When a conversion started by
    [POST /video] or [POST /audio] on an uploaded file has ended, with
    success or with an error, a sweep that runs to its end more than the
    max-age after the end removes the uploaded file together with the
    output file, and the two query routes answer 404 for the job. *)
Theorem upload_swept root uuid originalname outputDir now jobId format
    events o t st sweep maxAge (fs : Fs.t) :
  t ≠ 0 → sweep - t > maxAge →
  let file := Upload.file_path root uuid originalname in
  let run := {| Ffmpeg.events := events; Ffmpeg.outcome := Some (o, t) |} in
  ∀ created,
    (∃ quality codec,
       created = (Convert.post_video outputDir now jobId file format quality
                    codec run st).1 ∧
       FFmpegService.sweepable sweep maxAge created fs = true) ∨
    (∃ bitrate,
       created = (Convert.post_audio outputDir now jobId file format bitrate
                    run st).1 ∧
       FFmpegService.sweepable sweep maxAge created fs = true) →
    ∃ st' fs',
      FFmpegService.cleanup sweep maxAge created fs = Ok (st', fs') ∧
      Fs.existsSync (Some file) fs' = false ∧
      Convert.get_progress jobId st' = Convert.not_found "Job not found" ∧
      Convert.get_download jobId st' fs'
      = Send (Convert.not_found "File not found").
Proof.
  intros Ht Hold file run created Hcreated. subst run.
  assert (∃ job out,
            FFmpegService.jobs created !! jobId = Some job ∧
            FFmpegService.inputFile job = Some file ∧
            FFmpegService.outputFile job = Some out ∧
            FFmpegService.endTime job = Some t ∧
            FFmpegService.sweepable sweep maxAge created fs = true)
    as (job & out & Hjob & Hin & Hout & Hend & Hsw).
  { destruct Hcreated as [(quality & codec & -> & Hsw)|(bitrate & -> & Hsw)].
    - destruct (finished_video_job outputDir now jobId file
                  (or_string format "mp4")
                  {| Ffmpeg.events := events; Ffmpeg.outcome := Some (o, t) |}
                  o t st eq_refl)
        as (job & Hjob & Hin & Hout & Hend).
      exists job, (path_join outputDir (jobId +:+ "." +:+ or_string format "mp4")).
      unfold Convert.post_video in Hsw |- *.
      destruct (FFmpegService.convertVideo _ _ _ _ _ _ _) eqn:E.
      done.
    - destruct (finished_audio_job outputDir now jobId file
                  (or_string format "mp3")
                  {| Ffmpeg.events := events; Ffmpeg.outcome := Some (o, t) |}
                  o t st eq_refl)
        as (job & Hjob & Hin & Hout & Hend).
      exists job, (path_join outputDir (jobId +:+ "." +:+ or_string format "mp3")).
      unfold Convert.post_audio in Hsw |- *.
      destruct (FFmpegService.extractAudio _ _ _ _ _ _ _) eqn:E.
      done. }
  destruct (finished_job_swept created jobId job file out t sweep maxAge fs
              Hjob Hin Hout Hend (upload_in_uploads root uuid originalname)
              Ht Hold Hsw)
    as (st' & fs' & Hrun & Hfile & _ & Hp & Hd).
  by exists st', fs'.
Qed.

Lemma upload_swept_witness :
  ∃ st' fs',
    FFmpegService.cleanup (9001 + FFmpegService.default_maxAge)
      FFmpegService.default_maxAge
      (Convert.post_video "/srv/output" 1000 "job-9"
         (Upload.file_path "/srv" "u1" "a.avi") None None None
         (Examples.ended 9000) FFmpegService.init).1
      [Examples.regular "/srv/uploads" "u1-a.avi" 20;
       Examples.regular "/srv/output" "job-9.mp4" 10]
    = Ok (st', fs') ∧
    Fs.existsSync (Some "/srv/uploads/u1-a.avi") fs' = false.
Proof.
  edestruct (upload_swept "/srv" "u1" "a.avi" "/srv/output" 1000 "job-9" None
               [] Ffmpeg.End 9000 FFmpegService.init
               (9001 + FFmpegService.default_maxAge)
               FFmpegService.default_maxAge
               [Examples.regular "/srv/uploads" "u1-a.avi" 20;
                Examples.regular "/srv/output" "job-9.mp4" 10])
    as (st' & fs' & Hrun & Hfile & _).
  - done.
  - by vm_compute.
  - left. exists None, None. split; [reflexivity|by vm_compute].
  - exists st', fs'. split; [exact Hrun|exact Hfile].
Defined.

End UploadRetention.

(** ** The download routes behind the limiter *)

Section Middleware.

Import Validation.

(** X18: [POST /] runs the limiter before it looks at the body. The
    answer is 429 exactly when the client has 10 requests in the window,
    and 200 exactly when it has fewer and the body passes
    [validateDownloadRequest]. A request refused for its body (400) has
    taken a slot of the limiter all the same, and only a 200 answer
    changes the job map. *)
Theorem download_route_charged key now now' jobId validated w :
  let result := Chain.post_download key now now' jobId validated w in
  let kept := in_window now (stored key (Chain.limits w)) in
  (code result.2 = 429 ↔ (10 ≤ length kept)%nat) ∧
  (code result.2 = 200
   ↔ (length kept < 10)%nat ∧
     ∃ value, validateDownloadRequest validated = Pass value) ∧
  (code result.2 = 400 →
   stored key (Chain.limits result.1) = kept ++ [now] ∧
   ∃ r, validateDownloadRequest validated = Refuse r) ∧
  (code result.2 ≠ 200 → Chain.jobs result.1 = Chain.jobs w) ∧
  (code result.2 = 200 → is_Some (Chain.jobs result.1 !! jobId)).
Proof.
  intros result kept. subst result kept. unfold Chain.post_download.
  destruct (validateRateLimit_served key now (Chain.limits w))
    as [(Hlt & Hv & Hs)|(Hge & Hv & Hs)];
    destruct (validateRateLimit key now (Chain.limits w)) as [limits' v];
    cbn [fst snd] in Hv, Hs; subst v; unfold maxRequests in *.
  - destruct (validateDownloadRequest validated) as [value|r] eqn:Hcheck.
    + unfold Download.post_download. cbn [fst snd code Chain.limits Chain.jobs].
      split; [split; [done|lia]|]. split; [split; [by eauto|done]|].
      split; [done|]. split; [done|]. intros _.
      unfold Download.downloadVideo_begin. by rewrite lookup_insert_eq.
    + cbn [fst snd Chain.limits Chain.jobs].
      assert (code r = 400) as Hcode.
      { unfold validateDownloadRequest in Hcheck.
        destruct validated as [value|details]; [|by injection Hcheck as <-].
        destruct (isSupported (url value)); [done|]. by injection Hcheck as <-. }
      rewrite Hcode. split; [split; [done|lia]|].
      split; [split; [done|by intros [_ [value [=]]]]|].
      split; [by eauto|]. split; [done|]. done.
  - cbn [fst snd Chain.limits Chain.jobs too_many code].
    split; [done|]. split; [split; [done|lia]|]. split; [done|].
    split; [done|]. done.
Qed.

Lemma download_route_charged_witness :
  let result :=
    Chain.post_download (Some "10.0.0.7") 1000 1001 "job-1"
      (Valid {| url := "https://example.com/watch"; format := "mp4";
                quality := "720p" |})
      {| Chain.limits := ∅; Chain.jobs := ∅ |} in
  code result.2 = 400 ∧
  stored (Some "10.0.0.7") (Chain.limits result.1) = [1000] ∧
  Chain.jobs result.1 = ∅.
Proof.
  intros result.
  pose proof (download_route_charged (Some "10.0.0.7") 1000 1001 "job-1"
                (Valid {| url := "https://example.com/watch"; format := "mp4";
                          quality := "720p" |})
                {| Chain.limits := ∅; Chain.jobs := ∅ |})
    as (_ & _ & Hrefused & Hjobs & _).
  split; [reflexivity|]. split.
  - exact (proj1 (Hrefused eq_refl)).
  - apply Hjobs. by vm_compute.
Defined.

(** X19: [POST /batch] runs the limiter only. Its answer is 429 exactly
    when the client has 10 requests in the window and 200 exactly when it
    has fewer and the body's [urls] is an array of 1 to 10 elements, of
    whatever kind: the urls of a batch are not checked against the
    platforms. A batch takes one slot of the limiter whatever its size,
    and so does a batch refused for its [urls]. *)
Theorem batch_route_charged key now now' uuid urls format quality w :
  let result := Chain.post_batch key now now' uuid urls format quality w in
  let kept := in_window now (stored key (Chain.limits w)) in
  (code result.2 = 429 ↔ (10 ≤ length kept)%nat) ∧
  (code result.2 = 200
   ↔ (length kept < 10)%nat ∧
     ∃ l, urls = JArray l ∧ (1 ≤ length l ≤ 10)%nat) ∧
  (code result.2 ≠ 429 →
   stored key (Chain.limits result.1) = kept ++ [now]) ∧
  (code result.2 ≠ 200 → Chain.jobs result.1 = Chain.jobs w).
Proof.
  intros result kept. subst result kept. unfold Chain.post_batch.
  destruct (validateRateLimit_served key now (Chain.limits w))
    as [(Hlt & Hv & Hs)|(Hge & Hv & Hs)];
    destruct (validateRateLimit key now (Chain.limits w)) as [limits' v];
    cbn [fst snd] in Hv, Hs; subst v; unfold maxRequests in *.
  - unfold Download.post_batch.
    destruct urls as [| | | | |s|[|u us]|fields];
      try (cbn [fst snd Chain.limits Chain.jobs Download.bad_request code];
           split; [split; [done|lia]|];
           split; [split; [done|by intros [_ (l & [=] & _)]]|];
           split; [done|]; done).
    + cbn [fst snd Chain.limits Chain.jobs Download.bad_request code].
      split; [split; [done|lia]|].
      split; [split; [done|]|split; [done|done]].
      intros [_ (l & [= <-] & Hl)]. simpl in Hl. lia.
    + destruct (decide (10 < length (u :: us))%nat) as [Hmany|Hfew];
        cbn [fst snd Chain.limits Chain.jobs Download.bad_request code].
      * split; [split; [done|lia]|].
        split; [split; [done|]|split; [done|done]].
        intros [_ (l & [= <-] & Hl)]. lia.
      * split; [split; [done|lia]|].
        split; [split; [|done]|split; [done|done]].
        intros _. split; [done|]. exists (u :: us). split; [done|].
        simpl in *. lia.
  - cbn [fst snd Chain.limits Chain.jobs too_many code].
    split; [done|]. split; [split; [done|lia]|]. split; [done|]. done.
Qed.

Lemma batch_route_charged_witness :
  let result :=
    Chain.post_batch (Some "10.0.0.7") 1000 Examples.readings Examples.uuid
      (JArray [JNumber (Num 1); JString "not a url"]) JUndefined JUndefined
      {| Chain.limits := ∅; Chain.jobs := ∅ |} in
  code result.2 = 200 ∧
  stored (Some "10.0.0.7") (Chain.limits result.1) = [1000].
Proof.
  intros result.
  pose proof (batch_route_charged (Some "10.0.0.7") 1000 Examples.readings
                Examples.uuid
                (JArray [JNumber (Num 1); JString "not a url"]) JUndefined
                JUndefined
                {| Chain.limits := ∅; Chain.jobs := ∅ |})
    as (_ & _ & Hslot & _).
  split; [reflexivity|]. apply Hslot. by vm_compute.
Defined.

End Middleware.
